(** * GzipHeaderCodec: the SPDY header-block codec of proxygen

    A shallow embedding of
    [proxygen/lib/http/codec/compress/GzipHeaderCodec.cpp]:
    the zlib context cache ([getZlibContext]), the header canonicalizer and
    compressor ([encode]), the decompressor ([decode]) and the Name/Value
    parser ([parseNameValues]).

    Buffers are lists of bytes, pointers into a buffer are offsets, sizes
    are integers in [Z].  zlib and [std::sort] are libraries the codec
    calls: zlib is an interface ([Zlib]) and the sort is a function that
    meets the postcondition of [std::sort]. *)

From Stdlib Require Import ZArith List Bool Lia Permutation Sorted.
From Stdlib.Strings Require Import Byte.
Import ListNotations.
Local Open Scope Z_scope.

Set Implicit Arguments.

(* ------------------------------------------------------------------ *)
(** ** Bytes and characters *)

Abbreviation byte := Byte.byte.

(** The value of a byte as an unsigned char, in [0, 256). *)
Definition byte_val (b : byte) : Z := Z.of_N (Byte.to_N b).

(** The byte a store of an integer leaves: the integer modulo 256. *)
Definition byte_of_Z (z : Z) : byte :=
  match Byte.of_N (Z.to_N (z mod 256)) with
  | Some b => b
  | None => Byte.x00
  end.

(** The value of a byte seen as a [char].  [signed_char] tells whether
    plain [char] is signed on the platform (it is on x86-64). *)
Definition char_val (signed_char : bool) (b : byte) : Z :=
  let u := byte_val b in
  if signed_char && (128 <=? u) then u - 256 else u.

Definition is_nul (b : byte) : bool := byte_val b =? 0.

Fixpoint bytes_eqb (a b : list byte) : bool :=
  match a, b with
  | [], [] => true
  | x :: a', y :: b' => (byte_val x =? byte_val y) && bytes_eqb a' b'
  | _, _ => false
  end.

(** [std::string::operator<]: lexicographic order on unsigned chars, a
    proper prefix being smaller. *)
Fixpoint bytes_ltb (a b : list byte) : bool :=
  match a, b with
  | _, [] => false
  | [], _ :: _ => true
  | x :: a', y :: b' =>
      if byte_val x <? byte_val y then true
      else if byte_val y <? byte_val x then false
      else bytes_ltb a' b'
  end.

Definition len (A : Type) (l : list A) : Z := Z.of_nat (length l).

(** [folly::toLowerAscii]: A-Z become a-z, every other byte is kept. *)
Definition toLowerAscii (b : byte) : byte :=
  let u := byte_val b in
  if (65 <=? u) && (u <=? 90) then byte_of_Z (u + 32) else b.

(* ------------------------------------------------------------------ *)
(** ** Version settings and wire integers *)

Inductive SPDYVersion := SPDY2 | SPDY3 | SPDY3_1.

Definition SPDYVersion_eqb (a b : SPDYVersion) : bool :=
  match a, b with
  | SPDY2, SPDY2 | SPDY3, SPDY3 | SPDY3_1, SPDY3_1 => true
  | _, _ => false
  end.

(** The fields of [SPDYVersionSettings] the codec reads.  The two
    function pointers [appendSizeFun] and [parseSizeFun] are fixed by
    [nameValueSize] and are the definitions below. *)
Record SPDYVersionSettings := {
  version : SPDYVersion;
  dict : list byte;
  nameValueSize : nat
}.

(** Modelled from the spec: the version settings registry
    ([SPDYCodec::getVersionSettings]) is not part of the sources at hand.
    The integer width is 2 for version 2 and 4 for versions 3.x; the
    preload dictionaries are fixed byte strings, taken as a parameter. *)
Definition getVersionSettings (dictOf : SPDYVersion -> list byte)
    (v : SPDYVersion) : SPDYVersionSettings :=
  {| version := v;
     dict := dictOf v;
     nameValueSize := match v with SPDY2 => 2%nat | _ => 4%nat end |}.

(** Modelled from the spec: [appendSizeFun] is declared with the version
    settings, outside the sources at hand.  It stores [n] as a big-endian
    unsigned integer of [w] bytes; higher bits of [n] are dropped by the
    conversion to the w-byte integer. *)
Fixpoint appendSize (w : nat) (n : Z) : list byte :=
  match w with
  | O => []
  | S w' => byte_of_Z (n / 256 ^ Z.of_nat w') :: appendSize w' n
  end.

(** The big-endian value of a byte string. *)
Definition be_value (bs : list byte) : Z :=
  fold_left (fun acc b => acc * 256 + byte_val b) bs 0.

(* ------------------------------------------------------------------ *)
(** ** Headers *)

(** [compress::Header]: a classification code and two strings, which the
    source holds by pointer and compares by content. *)
Record Header := {
  code : Z;
  name : list byte;
  value : list byte
}.

(** Modelled from the spec: [Header::operator<] is declared in
    [compress/Header.h], outside the sources at hand.  Headers are
    ordered by (classification code, name bytes). *)
Definition Header_ltb (a b : Header) : bool :=
  (code a <? code b) || ((code a =? code b) && bytes_ltb (name a) (name b)).

(** The test of [encode] that starts a new wire entry. *)
Definition same_key (c : Z) (n : list byte) (h : Header) : bool :=
  (code h =? c) && bytes_eqb (name h) n.

(** The postcondition of [std::sort (headers.begin(), headers.end())]:
    the range is rearranged and no element is smaller than one before
    it.  The order of equivalent elements is not specified. *)
Definition sort_post (l l' : list Header) : Prop :=
  Permutation l l' /\ StronglySorted (fun a b => Header_ltb b a = false) l'.

(* ------------------------------------------------------------------ *)
(** ** The header canonicalizer: the serialization loop of [encode] *)

(** Overwrite [bs] into [buf] at offset [off]. *)
Definition write_at (off : nat) (bs buf : list byte) : list byte :=
  firstn off buf ++ bs ++ skipn (off + length bs) buf.

(** The local variables of [encode] during serialization.  [written] is
    the content of the scratch buffer from [writableData()] up to [dst];
    [lastValueLenPtr] is an offset into it, [None] for [nullptr]. *)
Record EncState := {
  written : list byte;
  lastCode : Z;
  lastName : list byte;
  lastValueLenPtr : option nat;
  lastValueLen : Z;
  numHeaders : Z
}.

Section Canonicalizer.

Variable W : nat.                 (* versionSettings_.nameValueSize *)
Variable HTTP_HEADER_OTHER : Z.   (* the code of uncommon header names *)

(** Upper bound computed before serialization (lines 148-154). *)
Definition maxUncompressedSize (headers : list Header) : Z :=
  fold_left
    (fun acc h =>
       acc + Z.of_nat W + len (name h) + Z.of_nat W + len (value h))
    headers (Z.of_nat W).

(** State before the loop: [dst] has skipped the count field. *)
Definition enc_init : EncState :=
  {| written := repeat Byte.x00 W;
     lastCode := HTTP_HEADER_OTHER;
     lastName := [];
     lastValueLenPtr := None;
     lastValueLen := 0;
     numHeaders := 0 |}.

(** One iteration of the loop at lines 173-200.  [None] is the store
    through a null [lastValueLenPtr], which happens when the very first
    header has code [HTTP_HEADER_OTHER] and an empty name. *)
Definition enc_step (st : EncState) (h : Header) : option EncState :=
  if negb (same_key (lastCode st) (lastName st) h) then
    let dst := written st ++ appendSize W (len (name h))
                          ++ map toLowerAscii (name h) in
    Some {| written := dst ++ appendSize W (len (value h)) ++ value h;
            lastCode := code h;
            lastName := name h;
            lastValueLenPtr := Some (length dst);
            lastValueLen := len (value h);
            numHeaders := (numHeaders st + 1) mod 2 ^ 32 |}
  else
    match lastValueLenPtr st with
    | None => None
    | Some p =>
        let l := lastValueLen st + (1 + len (value h)) in
        Some {| written :=
                  write_at p (appendSize W l)
                           (written st ++ Byte.x00 :: value h);
                lastCode := lastCode st;
                lastName := lastName st;
                lastValueLenPtr := Some p;
                lastValueLen := l;
                numHeaders := numHeaders st |}
    end.

Fixpoint enc_loop (st : EncState) (headers : list Header)
  : option EncState :=
  match headers with
  | [] => Some st
  | h :: rest =>
      match enc_step st h with
      | Some st' => enc_loop st' rest
      | None => None
      end
  end.

(** Lines 166-208: the uncompressed image of an already sorted list,
    with the count of unique names written at the front. *)
Definition serialize (headers : list Header) : option (list byte) :=
  match enc_loop enc_init headers with
  | Some st => Some (write_at 0 (appendSize W (numHeaders st)) (written st))
  | None => None
  end.

End Canonicalizer.

(* ------------------------------------------------------------------ *)
(** ** Decoded pieces and decode errors *)

(** [compress::HeaderPiece]: the bytes the piece views, whether it owns
    them, and whether it came out of a combined value. *)
Record HeaderPiece := {
  str : list byte;
  owner : bool;
  multiValued : bool
}.

Inductive HeaderDecodeError :=
| BAD_ENCODING
| HEADERS_TOO_LARGE
| INFLATE_DICTIONARY
| EMPTY_HEADER_NAME
| EMPTY_HEADER_VALUE
| INVALID_HEADER_VALUE.

(** What a call of [parseNameValues] ends with: the expanded byte count,
    an error, or a [std::out_of_range] thrown by the cursor. *)
Inductive ParseResult :=
| ParseOk (expandedHeaderLineBytes : Z)
| ParseError (e : HeaderDecodeError)
| OutOfRange.

(** Maximum size of header names+values after expanding multi-value
    headers. *)
Definition kMaxExpandedHeaderLineBytes : Z := 80 * 1024.

(* ------------------------------------------------------------------ *)
(** ** The Name/Value parser *)

(** The test of line 350 on one character of a name. *)
Definition bad_name_char (signed_char : bool) (b : byte) : bool :=
  let c := char_val signed_char b in
  (c <? 32) || (c >? 126) || ((65 <=? c) && (c <=? 90)).

(** [headerValue.str.reset (start, n)] on the piece at index [i] of
    [outHeaders_]: the view changes, the flags stay. *)
Fixpoint reset_str (i : nat) (s : list byte) (out : list HeaderPiece)
  : list HeaderPiece :=
  match out, i with
  | [], _ => []
  | p :: out', O =>
      {| str := s; owner := owner p; multiValued := multiValued p |} :: out'
  | p :: out', S i' => p :: reset_str i' s out'
  end.

(** The bytes of [s] from offset [start], [n] of them. *)
Definition slice (s : list byte) (start n : nat) : list byte :=
  firstn n (skipn start s).

(** The variables of the scan of one value (lines 357-381). *)
Record ScanState := {
  sc_first : bool;
  sc_valueStart : nat;
  sc_pos : nat;
  sc_out : list HeaderPiece;
  sc_expanded : Z
}.

(** What the scan of one value ends with: its result, or the return of
    [EMPTY_HEADER_VALUE] with [outHeaders_] as the scan left it. *)
Inductive Scan (A : Type) :=
| Scanned (a : A)
| EmptyValue (out : list HeaderPiece).
Arguments Scanned {A} a.
Arguments EmptyValue {A} out.

Section Parser.

Variable W : nat.            (* versionSettings_.nameValueSize *)
Variable signed_char : bool.

(** Modelled from the spec: [parseSizeFun] is declared with the version
    settings, outside the sources at hand.  It reads a big-endian
    unsigned integer of [W] bytes from the cursor, which throws
    [std::out_of_range] when fewer bytes are left.  The scratch buffer
    is a single [IOBuf], so the cursor is the list of bytes left. *)
Definition parseSize (cur : list byte) : option (Z * list byte) :=
  if (length cur <? W)%nat then None
  else Some (be_value (firstn W cur), skipn W cur).

(** The [while (pos < stop)] loop over the bytes [rest] of the value
    from [pos] on.  [hv] is the index of the value piece in
    [outHeaders_], [nm] the bytes of the name piece, [s] the whole value
    string; [valueStart] and [pos] are offsets into [s]. *)
Fixpoint scan_value (s nm : list byte) (hv : nat) (rest : list byte)
    (st : ScanState) : Scan ScanState :=
  match rest with
  | [] => Scanned st
  | c :: rest' =>
      let pos := sc_pos st in
      let valueStart := sc_valueStart st in
      if is_nul c then
        if (pos - valueStart =? 0)%nat then EmptyValue (sc_out st)
        else
          let seg := slice s valueStart (pos - valueStart) in
          if sc_first st then
            scan_value s nm hv rest'
              {| sc_first := false;
                 sc_valueStart := S pos;
                 sc_pos := S pos;
                 sc_out := reset_str hv seg (sc_out st);
                 sc_expanded := sc_expanded st |}
          else
            scan_value s nm hv rest'
              {| sc_first := false;
                 sc_valueStart := S pos;
                 sc_pos := S pos;
                 sc_out := sc_out st
                   ++ [ {| str := nm; owner := false; multiValued := true |};
                        {| str := seg; owner := false; multiValued := true |} ];
                 sc_expanded := sc_expanded st + (len seg + len nm) |}
      else
        scan_value s nm hv rest'
          {| sc_first := sc_first st;
             sc_valueStart := valueStart;
             sc_pos := S pos;
             sc_out := sc_out st;
             sc_expanded := sc_expanded st |}
  end.

(** After the scan (lines 382-393): a value that held a NUL gives its
    last segment, or the return of [EMPTY_HEADER_VALUE] when that
    segment is empty. *)
Definition scan_finish (s nm : list byte) (st : ScanState)
  : Scan (list HeaderPiece * Z) :=
  if negb (sc_first st) then
    if (sc_pos st - sc_valueStart st =? 0)%nat then EmptyValue (sc_out st)
    else
      let seg := slice s (sc_valueStart st)
                       (sc_pos st - sc_valueStart st) in
      Scanned (sc_out st
                 ++ [ {| str := nm; owner := false; multiValued := true |};
                      {| str := seg; owner := false; multiValued := true |} ],
               sc_expanded st + (len seg + len nm))
  else Scanned (sc_out st, sc_expanded st).

Definition scan_all (s nm : list byte) (hv : nat) (rest : list byte)
    (st : ScanState) : Scan (list HeaderPiece * Z) :=
  match scan_value s nm hv rest st with
  | EmptyValue out => EmptyValue out
  | Scanned st' => scan_finish s nm st'
  end.

(** The value branch of the loop body (lines 356-394) on the value
    piece at the back of [out]: the pieces and the expanded count it
    leaves, or the return of [EMPTY_HEADER_VALUE] with the pieces as
    they are at that point (the value piece cut at its first NUL, the
    segments before the empty one appended). *)
Definition split_value (nm : list byte) (out : list HeaderPiece)
    (expanded : Z) : Scan (list HeaderPiece * Z) :=
  let hv := (length out - 1)%nat in
  let s := str (last out {| str := []; owner := false;
                            multiValued := false |}) in
  scan_all s nm hv s
    {| sc_first := true; sc_valueStart := 0; sc_pos := 0;
       sc_out := out; sc_expanded := expanded |}.

(** The [for] loop of lines 330-396 with [n] iterations left, at index
    [i].  [headerName] is the name piece the pointer of that name
    refers to.  The result carries [outHeaders_] as the loop left it. *)
Fixpoint parse_loop (n : nat) (i : Z) (headerName : option HeaderPiece)
    (cur : list byte) (out : list HeaderPiece) (expanded : Z)
  : list HeaderPiece * ParseResult :=
  match n with
  | O => (out, ParseOk expanded)
  | S n' =>
      match parseSize cur with
      | None => (out, OutOfRange)
      | Some (l, cur1) =>
          if (l =? 0) && (match headerName with None => true | Some _ => false end)
          then (out, ParseError EMPTY_HEADER_NAME)
          else if len cur1 <? l then
            (* not contiguous: [pull] runs off the end of the buffer *)
            (out, OutOfRange)
          else
            let piece := {| str := firstn (Z.to_nat l) cur1;
                            owner := false; multiValued := false |} in
            let out1 := out ++ [piece] in
            let cur2 := skipn (Z.to_nat l) cur1 in
            if i mod 2 =? 0 then
              if existsb (bad_name_char signed_char) (str piece)
              then (out1, ParseError INVALID_HEADER_VALUE)
              else parse_loop n' ((i + 1) mod 2 ^ 32) (Some piece)
                              cur2 out1 expanded
            else
              match split_value
                      (match headerName with
                       | Some nm => str nm
                       | None => []
                       end) out1 expanded with
              | EmptyValue out2 => (out2, ParseError EMPTY_HEADER_VALUE)
              | Scanned (out2, expanded') =>
                  parse_loop n' ((i + 1) mod 2 ^ 32) None cur2 out2 expanded'
              end
      end
  end.

(** [GzipHeaderCodec::parseNameValues] on the scratch buffer content
    [uncompressed], appending to [outHeaders_].  The loop bound
    [numNV * 2] is a product of 32-bit unsigned integers. *)
Definition parseNameValues (uncompressed : list byte)
    (outHeaders_ : list HeaderPiece) : list HeaderPiece * ParseResult :=
  match parseSize uncompressed with
  | None => (outHeaders_, OutOfRange)
  | Some (numNV, cur) =>
      parse_loop (Z.to_nat ((numNV * 2) mod 2 ^ 32)) 0 None cur
                 outHeaders_ 0
  end.

End Parser.

(* ------------------------------------------------------------------ *)
(** ** folly::IOBuf as the codec uses it *)

(** A single unshared buffer without headroom: the bytes in
    [data(), tail()) and the capacity. *)
Record IOBuf := {
  data : list byte;
  capacity : Z
}.

Definition tailroom (b : IOBuf) : Z := capacity b - len (data b).

(** [IOBuf::reserve (0, minTailroom)].  The allocator may round the new
    capacity up; the model takes the exact fit. *)
Definition reserve (minTailroom : Z) (b : IOBuf) : IOBuf :=
  if minTailroom <=? tailroom b then b
  else {| data := data b; capacity := len (data b) + minTailroom |}.

(** [IOBuf::append (n)] after [bs] were stored at the tail. *)
Definition append (bs : list byte) (b : IOBuf) : IOBuf :=
  {| data := data b ++ bs; capacity := capacity b |}.

(** [getStaticHeaderBufSpace]: the thread-local buffer [tl] is replaced
    when it is missing or too small and cleared otherwise. *)
Definition getStaticHeaderBufSpace (size : Z) (tl : option IOBuf) : IOBuf :=
  match tl with
  | None => {| data := []; capacity := size |}
  | Some buf =>
      if size >? capacity buf then {| data := []; capacity := size |}
      else {| data := []; capacity := capacity buf |}
  end.

(** A [folly::io::Cursor] over a chain: the bytes left in the current
    buffer, then the buffers after it. *)
Definition Cursor := list (list byte).

(** [Cursor::peek]: the bytes left in the current buffer, after moving
    past exhausted buffers. *)
Fixpoint peek (c : Cursor) : list byte :=
  match c with
  | [] => []
  | [] :: c' => peek c'
  | (b :: bs) :: _ => b :: bs
  end.

(** [Cursor::skip (n)] for [n] bytes of the buffer [peek] returned. *)
Fixpoint skip (n : nat) (c : Cursor) : Cursor :=
  match c with
  | [] => []
  | [] :: c' => skip n c'
  | (b :: bs) :: c' => skipn n (b :: bs) :: c'
  end.

(* ------------------------------------------------------------------ *)
(** ** zlib *)

Definition Z_OK : Z := 0.
Definition Z_NEED_DICT : Z := 2.
Definition Z_NO_FLUSH : Z := 0.
Definition Z_SYNC_FLUSH : Z := 2.
Definition Z_NO_COMPRESSION : Z := 0.
Definition Z_DEFLATED : Z := 8.
Definition Z_DEFAULT_STRATEGY : Z := 0.

(** What a call of [deflate] or [inflate] leaves in the [z_stream]: the
    return code, the internal state, the input not consumed
    ([next_in], [avail_in]) and the bytes stored at [next_out]. *)
Record ZRet (S : Type) := {
  z_rc : Z;
  z_next : S;
  z_rest : list byte;
  z_out : list byte
}.

(** The calls the codec makes into zlib.  [z_stream] is the internal
    state of a stream; the input and output windows are arguments. *)
Class Zlib := {
  z_stream : Type;
  (* level, method, windowBits, memLevel, strategy *)
  deflateInit2 : Z -> Z -> Z -> Z -> Z -> Z * z_stream;
  deflateSetDictionary : z_stream -> list byte -> Z * z_stream;
  inflateInit : Z * z_stream;
  inflateSetDictionary : z_stream -> list byte -> Z * z_stream;
  deflateBound : z_stream -> Z -> Z;
  (* state, input, avail_out, flush *)
  deflate : z_stream -> list byte -> Z -> Z -> ZRet z_stream;
  inflate : z_stream -> list byte -> Z -> Z -> ZRet z_stream
}.

(* ------------------------------------------------------------------ *)
(** ** The zlib context cache *)

Section ZlibContexts.

Context {zlib : Zlib}.

(** [GzipHeaderCodec::ZlibContext]. *)
Record ZlibContext := {
  deflater : z_stream;
  inflater : z_stream
}.

(** [ZlibConfig] is the key (version, compression level); the
    thread-local [ZlibContextMap] is kept as an association list. *)
Definition ZlibConfig : Type := SPDYVersion * Z.
Definition ZlibContextMap : Type := list (ZlibConfig * ZlibContext).

Definition ZlibConfig_eqb (a b : ZlibConfig) : bool :=
  SPDYVersion_eqb (fst a) (fst b) && (snd a =? snd b).

Fixpoint find_context (k : ZlibConfig) (m : ZlibContextMap)
  : option ZlibContext :=
  match m with
  | [] => None
  | (k', ctx) :: m' => if ZlibConfig_eqb k k' then Some ctx
                       else find_context k m'
  end.

(** [GzipHeaderCodec::getZlibContext].  [None] is a failed [CHECK],
    which ends the process. *)
Definition getZlibContext (zlibContexts_ : ZlibContextMap)
    (versionSettings : SPDYVersionSettings) (compressionLevel : Z)
  : option (ZlibContext * ZlibContextMap) :=
  let zlibConfig := (version versionSettings, compressionLevel) in
  match find_context zlibConfig zlibContexts_ with
  | Some ctx => Some (ctx, zlibContexts_)
  | None =>
      let windowBits :=
        if compressionLevel =? Z_NO_COMPRESSION then 8 else 11 in
      let (r, d) := deflateInit2 compressionLevel Z_DEFLATED windowBits 1
                                 Z_DEFAULT_STRATEGY in
      if negb (r =? Z_OK) then None
      else
        let (r1, d1) :=
          if negb (compressionLevel =? Z_NO_COMPRESSION)
          then deflateSetDictionary d (dict versionSettings)
          else (r, d) in
        if negb (r1 =? Z_OK) then None
        else
          let (r2, i) := inflateInit in
          if negb (r2 =? Z_OK) then None
          else
            let newContext := {| deflater := d1; inflater := i |} in
            Some (newContext, (zlibConfig, newContext) :: zlibContexts_)
  end.

End ZlibContexts.

(* ------------------------------------------------------------------ *)
(** ** The codec *)

(** [HeaderCodec::HeaderSize] and the calls a stats sink receives. *)
Record HeaderSize := {
  compressed : Z;
  uncompressed : Z
}.

Inductive StatsCall :=
| recordEncode (size : HeaderSize)
| recordDecode (size : HeaderSize).

(** [HeaderDecodeResult]: the pieces and the bytes consumed. *)
Record HeaderDecodeResult := {
  headers : list HeaderPiece;
  bytesConsumed : Z
}.

Inductive Result (T E : Type) :=
| Ok (t : T)
| Error (e : E).
Arguments Ok {T E} t.
Arguments Error {T E} e.

Section Codec.

Context {zlib : Zlib}.

Variable HTTP_HEADER_OTHER : Z.
Variable signed_char : bool.

(** [std::sort] on the header vector. *)
Variable sort : list Header -> list Header.

(** The members of [GzipHeaderCodec] and of its base [HeaderCodec].
    [stats_] is the optional sink, seen as the calls it received. *)
Record GzipHeaderCodec := {
  versionSettings_ : SPDYVersionSettings;
  deflater_ : z_stream;
  inflater_ : z_stream;
  maxUncompressed_ : Z;
  encodeHeadroom_ : Z;
  encodedSize_ : HeaderSize;
  decodedSize_ : HeaderSize;
  outHeaders_ : list HeaderPiece;
  stats_ : option (list StatsCall)
}.

Definition getHeaderBuf (c : GzipHeaderCodec) (tl : option IOBuf) : IOBuf :=
  getStaticHeaderBufSpace (maxUncompressed_ c) tl.

Definition record_stat (call : StatsCall) (s : option (list StatsCall))
  : option (list StatsCall) :=
  match s with
  | Some calls => Some (calls ++ [call])
  | None => None
  end.

(** *** encode *)

(** The output [IOBuf] of [encode]: the headroom left in front and the
    compressed bytes. *)
Record EncodeOut := {
  eo_headroom : Z;
  eo_bytes : list byte;
  eo_codec : GzipHeaderCodec;
  eo_scratch : option IOBuf
}.

(** [GzipHeaderCodec::encode].  The first component is the caller's
    vector after the call.  The second is [None] when the call does
    not return: a store through the null [lastValueLenPtr], a store
    past the reserved scratch space, or a failed [CHECK]. *)
Definition encode (c : GzipHeaderCodec) (tl : option IOBuf)
    (hdrs : list Header) : list Header * option EncodeOut :=
  let W := nameValueSize (versionSettings_ c) in
  let hdrs := sort hdrs in
  let scratch := getHeaderBuf c tl in
  let scratch := reserve (maxUncompressedSize W hdrs) scratch in
  (hdrs,
   match serialize W HTTP_HEADER_OTHER hdrs with
   | None => None
   | Some image =>
       let uncompressedLen := len image in
       if capacity scratch <? uncompressedLen then None
       else
         let maxDeflatedSize := deflateBound (deflater_ c) uncompressedLen in
         let r := deflate (deflater_ c) image maxDeflatedSize Z_SYNC_FLUSH in
         if negb (z_rc r =? Z_OK) then None
         else if negb (len (z_rest r) =? 0) then None
         else
           let size := {| compressed := len (z_out r);
                          uncompressed := uncompressedLen |} in
           Some {| eo_headroom := encodeHeadroom_ c;
                   eo_bytes := z_out r;
                   eo_codec :=
                     {| versionSettings_ := versionSettings_ c;
                        deflater_ := z_next r;
                        inflater_ := inflater_ c;
                        maxUncompressed_ := maxUncompressed_ c;
                        encodeHeadroom_ := encodeHeadroom_ c;
                        encodedSize_ := size;
                        decodedSize_ := decodedSize_ c;
                        outHeaders_ := outHeaders_ c;
                        stats_ := record_stat (recordEncode size) (stats_ c) |};
                   eo_scratch := Some scratch |}
   end).

(** *** decode *)

(** The state of the decompression loops: the inflater, the scratch
    buffer, the input window of the inflater and its [avail_out]. *)
Record InflState := {
  i_stream : z_stream;
  i_buf : IOBuf;
  i_in : list byte;
  i_avail_out : Z
}.

Inductive Step :=
| Return (e : HeaderDecodeError) (st : InflState)
| Again (st : InflState)
| Exit (st : InflState).

(** The condition of the [do ... while] at line 291. *)
Definition loop_test (st : InflState) : Step :=
  if (len (i_in st) >? 0) && (i_avail_out st =? 0) then Again st
  else Exit st.

(** One pass through the body of the [do ... while] (lines 258-290). *)
Definition inflate_body (c : GzipHeaderCodec) (st : InflState) : Step :=
  let buf :=
    if tailroom (i_buf st) =? 0
    then reserve (capacity (i_buf st)) (i_buf st)
    else i_buf st in
  let avail_out := tailroom buf in
  let r := inflate (i_stream st) (i_in st) avail_out Z_NO_FLUSH in
  if z_rc r =? Z_NEED_DICT then
    let (r', s') :=
      inflateSetDictionary (z_next r) (dict (versionSettings_ c)) in
    if negb (r' =? Z_OK) then
      Return INFLATE_DICTIONARY
        {| i_stream := s'; i_buf := buf; i_in := z_rest r;
           i_avail_out := avail_out - len (z_out r) |}
    else
      loop_test {| i_stream := s'; i_buf := buf; i_in := z_rest r;
                   i_avail_out := 0 |}
  else if negb (z_rc r =? 0) then
    Return BAD_ENCODING
      {| i_stream := z_next r; i_buf := buf; i_in := z_rest r;
         i_avail_out := avail_out - len (z_out r) |}
  else
    let st' := {| i_stream := z_next r;
                  i_buf := append (z_out r) buf;
                  i_in := z_rest r;
                  i_avail_out := avail_out - len (z_out r) |} in
    if len (data (i_buf st')) >? maxUncompressed_ c
    then Return HEADERS_TOO_LARGE st'
    else loop_test st'.

(** The [do ... while] loop; [None] when [fuel] passes do not end it. *)
Fixpoint inflate_loop (fuel : nat) (c : GzipHeaderCodec) (st : InflState)
  : option (Result InflState (HeaderDecodeError * InflState)) :=
  match fuel with
  | O => None
  | S fuel' =>
      match inflate_body c st with
      | Return e st' => Some (Error (e, st'))
      | Exit st' => Some (Ok st')
      | Again st' => inflate_loop fuel' c st'
      end
  end.

(** What the [while (length > 0)] loop hands on. *)
Record Inflated := {
  in_state : InflState;
  in_consumed : Z;
  in_cursor : Cursor
}.

(** The loop of lines 252-295 over the chunks of the input. *)
Fixpoint inflate_chunks (fuel : nat) (c : GzipHeaderCodec)
    (cursor : Cursor) (length consumed : Z) (st : InflState)
  : option (Result Inflated (HeaderDecodeError * Inflated)) :=
  if length >? 0 then
    match fuel with
    | O => None
    | S fuel' =>
        let next := peek cursor in
        let chunkLen := Z.min (len next mod 2 ^ 32) length in
        match inflate_loop (S fuel') c
                {| i_stream := i_stream st; i_buf := i_buf st;
                   i_in := firstn (Z.to_nat chunkLen) next;
                   i_avail_out := i_avail_out st |} with
        | None => None
        | Some (Error (e, st')) =>
            Some (Error (e, {| in_state := st'; in_consumed := consumed;
                               in_cursor := cursor |}))
        | Some (Ok st') =>
            inflate_chunks fuel' c (skip (Z.to_nat chunkLen) cursor)
                           (length - chunkLen)
                           ((consumed + chunkLen) mod 2 ^ 32) st'
        end
    end
  else Some (Ok {| in_state := st; in_consumed := consumed;
                   in_cursor := cursor |}).

(** What a call of [decode] leaves: its result, the codec, the
    thread-local scratch buffer and the cursor. *)
Record DecodeOut := {
  do_result : Result HeaderDecodeResult HeaderDecodeError;
  do_codec : GzipHeaderCodec;
  do_scratch : option IOBuf;
  do_cursor : Cursor
}.

Definition with_decoded (c : GzipHeaderCodec) (s : z_stream)
    (size : HeaderSize) (out : list HeaderPiece)
    (stats : option (list StatsCall)) : GzipHeaderCodec :=
  {| versionSettings_ := versionSettings_ c;
     deflater_ := deflater_ c;
     inflater_ := s;
     maxUncompressed_ := maxUncompressed_ c;
     encodeHeadroom_ := encodeHeadroom_ c;
     encodedSize_ := encodedSize_ c;
     decodedSize_ := size;
     outHeaders_ := out;
     stats_ := stats |}.

(** The state in which [decode] enters the loops: the inflater of the
    codec and the cleared scratch buffer. *)
Definition inflate_start (c : GzipHeaderCodec) (tl : option IOBuf)
  : InflState :=
  {| i_stream := inflater_ c; i_buf := getHeaderBuf c tl; i_in := [];
     i_avail_out := 0 |}.

(** [GzipHeaderCodec::decode] on [length] bytes at [cursor]; [None]
    when the loops do not end within [fuel]. *)
Definition decode (fuel : nat) (c : GzipHeaderCodec) (tl : option IOBuf)
    (cursor : Cursor) (length : Z) : option DecodeOut :=
  let start := with_decoded c (inflater_ c) (decodedSize_ c) [] (stats_ c) in
  if length =? 0 then
    Some {| do_result := Ok {| headers := []; bytesConsumed := 0 |};
            do_codec := start; do_scratch := tl; do_cursor := cursor |}
  else
    match inflate_chunks fuel c cursor length 0 (inflate_start c tl) with
    | None => None
    | Some (Error (e, r)) =>
        let st := in_state r in
        Some {| do_result := Error e;
                do_codec := with_decoded c (i_stream st) (decodedSize_ c) []
                                         (stats_ c);
                do_scratch := Some (i_buf st); do_cursor := in_cursor r |}
    | Some (Ok r) =>
        let st := in_state r in
        let consumed := in_consumed r in
        let size := {| compressed := consumed;
                       uncompressed := len (data (i_buf st)) |} in
        let stats := record_stat (recordDecode size) (stats_ c) in
        let (out, parsed) :=
          parseNameValues (nameValueSize (versionSettings_ c)) signed_char
                          (data (i_buf st)) [] in
        let c' := with_decoded c (i_stream st) size out stats in
        let finish res :=
          Some {| do_result := res; do_codec := c';
                  do_scratch := Some (i_buf st);
                  do_cursor := in_cursor r |} in
        match parsed with
        | ParseError e => finish (Error e)
        | OutOfRange => finish (Error BAD_ENCODING)
        | ParseOk expandedHeaderLineBytes =>
            if expandedHeaderLineBytes >? kMaxExpandedHeaderLineBytes
            then finish (Error HEADERS_TOO_LARGE)
            else finish (Ok {| headers := out; bytesConsumed := consumed |})
        end
    end.

End Codec.

(* ------------------------------------------------------------------ *)
(** ** The wire layout, stated on the header list

    The layout of section "Name/Value block" read off a list of
    headers: a header that repeats the key of the one before it adds a
    NUL and its value to the entry of that header. *)

Section WireLayout.

Variable W : nat.

(** Bytes the headers at the front of [hs] with key [(c, n)] add to
    the value of the current entry. *)
Fixpoint run_len (c : Z) (n : list byte) (hs : list Header) : Z :=
  match hs with
  | [] => 0
  | h :: t => if same_key c n h then 1 + len (value h) + run_len c n t
              else 0
  end.

(** The entries for [hs], when the entry before them has key [(c, n)]. *)
Fixpoint wire (c : Z) (n : list byte) (hs : list Header) : list byte :=
  match hs with
  | [] => []
  | h :: t =>
      if same_key c n h then Byte.x00 :: value h ++ wire c n t
      else appendSize W (len (name h)) ++ map toLowerAscii (name h)
           ++ appendSize W (len (value h) + run_len (code h) (name h) t)
           ++ value h ++ wire (code h) (name h) t
  end.

(** The number of entries [hs] opens. *)
Fixpoint unique_names (c : Z) (n : list byte) (hs : list Header) : Z :=
  match hs with
  | [] => 0
  | h :: t => (if same_key c n h then 0 else 1)
              + unique_names (code h) (name h) t
  end.

(** The pieces a decoder returns for [hs]: a name and a value per
    header, flagged multi-valued when the header repeats the key of the
    one before it. *)
Fixpoint pieces (c : Z) (n : list byte) (hs : list Header)
  : list HeaderPiece :=
  match hs with
  | [] => []
  | h :: t =>
      let m := same_key c n h in
      {| str := name h; owner := false; multiValued := m |}
      :: {| str := value h; owner := false; multiValued := m |}
      :: pieces (code h) (name h) t
  end.

(** The bytes the parser counts as expanded: name and value of every
    header that repeats the key of the one before it. *)
Fixpoint expandedBytes (c : Z) (n : list byte) (hs : list Header) : Z :=
  match hs with
  | [] => 0
  | h :: t => (if same_key c n h then len (value h) + len (name h) else 0)
              + expandedBytes (code h) (name h) t
  end.

(** The size estimate of the encoder in the words of the spec: [W]
    plus, for every pair, [W + |name| + W + |value|]. *)
Definition payload (hs : list Header) : Z :=
  fold_right
    (fun h acc =>
       (Z.of_nat W + len (name h) + Z.of_nat W + len (value h)) + acc)
    0 hs.

Definition size_estimate (hs : list Header) : Z :=
  Z.of_nat W + payload hs.

(** Every length field of the entries of [hs] holds its value: the name
    of each entry and its combined value are shorter than [256^W]. *)
Fixpoint fields_fit (c : Z) (n : list byte) (hs : list Header) : Prop :=
  match hs with
  | [] => True
  | h :: t =>
      (same_key c n h = false ->
       len (name h) < 256 ^ Z.of_nat W
       /\ len (value h) + run_len (code h) (name h) t < 256 ^ Z.of_nat W)
      /\ fields_fit (code h) (name h) t
  end.

(** The remembered length field lies inside the written bytes. *)
Definition ptr_ok (st : EncState) : Prop :=
  match lastValueLenPtr st with
  | Some p => (p + W <= length (written st))%nat
  | None => True
  end.

End WireLayout.

(** The headers at the front of [hs] that repeat the key [(c, n)], and
    the headers after them. *)
Fixpoint take_run (c : Z) (n : list byte) (hs : list Header)
  : list Header * list Header :=
  match hs with
  | [] => ([], [])
  | h :: t =>
      if same_key c n h
      then let (r, rest) := take_run c n t in (h :: r, rest)
      else ([], hs)
  end.

(** What the headers [r] of a run add to the combined value, to the
    pieces and to the expanded byte count of a name [nm]. *)
Definition run_bytes (r : list Header) : list byte :=
  flat_map (fun h => Byte.x00 :: value h) r.

Definition run_pieces (nm : list byte) (r : list Header) : list HeaderPiece :=
  flat_map
    (fun h => [ {| str := nm; owner := false; multiValued := true |};
                {| str := value h; owner := false; multiValued := true |} ])
    r.

Definition run_expanded (nm : list byte) (r : list Header) : Z :=
  fold_right (fun h acc => len (value h) + len nm + acc) 0 r.

(** [hs] does not start with a header of key [(c, n)]. *)
Definition fresh (c : Z) (n : list byte) (hs : list Header) : Prop :=
  forall h t, hs = h :: t -> same_key c n h = false.

Definition value_ok (v : list byte) : Prop :=
  v <> [] /\ existsb is_nul v = false.

(** The (name, value) pairs of a list of pieces, read two by two. *)
Fixpoint pairs_of (ps : list HeaderPiece) : list (list byte * list byte) :=
  match ps with
  | n :: v :: rest => (str n, str v) :: pairs_of rest
  | _ => []
  end.

(** A byte allowed in a name on the wire: in [0x20, 0x7E] and not an
    uppercase letter. *)
Definition wire_name_char (b : byte) : bool :=
  let u := byte_val b in
  (32 <=? u) && (u <=? 126) && negb ((65 <=? u) && (u <=? 90)).

(** A header as the round-trip law takes it: the name is not empty and
    made of lowercase printable ASCII, the value is not empty and holds
    no NUL. *)
Definition wire_header (h : Header) : Prop :=
  name h <> [] /\ forallb wire_name_char (name h) = true /\
  value h <> [] /\ existsb is_nul (value h) = false.

(* ------------------------------------------------------------------ *)
(** ** Reference instances, to run the model *)

(** Two sorts that meet [sort_post]: insertion sorts that put an element
    before, respectively after, the elements equivalent to it. *)
Fixpoint insert_before (h : Header) (l : list Header) : list Header :=
  match l with
  | [] => [h]
  | x :: t => if Header_ltb x h then x :: insert_before h t else h :: l
  end.

Definition sort_keeping : list Header -> list Header :=
  fold_right insert_before [].

Fixpoint insert_after (h : Header) (l : list Header) : list Header :=
  match l with
  | [] => [h]
  | x :: t => if Header_ltb h x then h :: l else x :: insert_after h t
  end.

Definition sort_reversing : list Header -> list Header :=
  fold_right insert_after [].

(** A stand-in for zlib that stores bytes as they are.  A stream keeps
    the parameters it was initialized with and its dictionary; a fresh
    inflate stream asks for the dictionary at its first call. *)
Record StoredStream := {
  ss_params : list Z;
  ss_dict : option (list byte);
  ss_needs_dict : bool
}.

Definition Z_BUF_ERROR : Z := -5.

Definition stored_copy (s : StoredStream) (input : list byte) (avail_out : Z)
  : ZRet StoredStream :=
  let n := Z.to_nat avail_out in
  match input with
  | [] => {| z_rc := Z_BUF_ERROR; z_next := s; z_rest := []; z_out := [] |}
  | _ => {| z_rc := Z_OK; z_next := s;
            z_rest := skipn n input; z_out := firstn n input |}
  end.

Definition stored_zlib : Zlib := {|
  z_stream := StoredStream;
  deflateInit2 level method windowBits memLevel strategy :=
    (Z_OK, {| ss_params := [level; method; windowBits; memLevel; strategy];
              ss_dict := None; ss_needs_dict := false |});
  deflateSetDictionary s d :=
    (Z_OK, {| ss_params := ss_params s; ss_dict := Some d;
              ss_needs_dict := false |});
  inflateInit :=
    (Z_OK, {| ss_params := []; ss_dict := None; ss_needs_dict := true |});
  inflateSetDictionary s d :=
    (Z_OK, {| ss_params := ss_params s; ss_dict := Some d;
              ss_needs_dict := false |});
  deflateBound _ sourceLen := sourceLen + 6;
  deflate s input avail_out _ := stored_copy s input avail_out;
  inflate s input avail_out _ :=
    if ss_needs_dict s
    then {| z_rc := Z_NEED_DICT; z_next := s; z_rest := input; z_out := [] |}
    else stored_copy s input avail_out
|}.

(** Bytes of a short ASCII text. *)
Definition bytes_of (l : list Z) : list byte := map byte_of_Z l.

Definition hdr (c : Z) (n v : list Z) : Header :=
  {| code := c; name := bytes_of n; value := bytes_of v |}.

(** A codec for [vs] over [stored_zlib], with streams copied from the
    template of level 9 and a cap of [maxUncompressed] bytes. *)
Definition stored_codec (vs : SPDYVersionSettings) (maxUncompressed : Z)
    (stats : option (list StatsCall)) : @GzipHeaderCodec stored_zlib :=
  {| versionSettings_ := vs;
     deflater_ := snd (@deflateSetDictionary stored_zlib
                         (snd (@deflateInit2 stored_zlib 9 Z_DEFLATED 11 1
                                             Z_DEFAULT_STRATEGY))
                         (dict vs));
     inflater_ := snd (@inflateInit stored_zlib);
     maxUncompressed_ := maxUncompressed;
     encodeHeadroom_ := 0;
     encodedSize_ := {| compressed := 0; uncompressed := 0 |};
     decodedSize_ := {| compressed := 0; uncompressed := 0 |};
     outHeaders_ := [];
     stats_ := stats |}.

Definition spdy3 : SPDYVersionSettings :=
  getVersionSettings (fun _ => bytes_of [111; 112; 116]) SPDY3.

Definition spdy2 : SPDYVersionSettings :=
  getVersionSettings (fun _ => bytes_of [111; 112; 116]) SPDY2.


(** The two pairs ("x", "a") and ("x", "b") with classification code
    [c]. *)
Definition x_a (c : Z) : Header := hdr c [120] [97].
Definition x_b (c : Z) : Header := hdr c [120] [98].

(** The decompression loops of [decode] end within [fuel] and leave
    [image] in the scratch buffer. *)
Definition inflates_to {zlib : Zlib} (fuel : nat) (c : GzipHeaderCodec)
    (tl : option IOBuf) (cursor : Cursor) (length : Z) (image : list byte)
    (r : Inflated) : Prop :=
  inflate_chunks fuel c cursor length 0 (inflate_start c tl) = Some (Ok r)
  /\ data (i_buf (in_state r)) = image.

(** What the round trip asks of zlib.  [inflates_back]: [inflate] on
    the stream [i], given all of [input] and room for [avail] bytes,
    consumes the input and stores [image], either at once or after
    asking for the dictionary, which [inflateSetDictionary] accepts, and
    being called again on the input it has left. *)
Definition inflates_back {zlib : Zlib} (i : z_stream)
    (dictionary input : list byte) (avail : Z) (image : list byte) : Prop :=
  let a := inflate i input avail Z_NO_FLUSH in
  (z_rc a = Z_OK /\ z_rest a = [] /\ z_out a = image)
  \/ (z_rc a = Z_NEED_DICT
      /\ z_rest a <> []
      /\ fst (inflateSetDictionary (z_next a) dictionary) = Z_OK
      /\ let b := inflate (snd (inflateSetDictionary (z_next a) dictionary))
                          (z_rest a) avail Z_NO_FLUSH in
         z_rc b = Z_OK /\ z_rest b = [] /\ z_out b = image).

(** [zlib_inverts d i dictionary]: whatever [deflate] on the stream [d]
    makes of a nonempty [image] with [Z_SYNC_FLUSH], when it answers
    [Z_OK] with all input consumed, is not empty and is inflated back to
    [image] by the stream [i] whenever there is room for it. *)
Definition zlib_inverts {zlib : Zlib} (d i : z_stream)
    (dictionary : list byte) : Prop :=
  forall image avail,
    image <> [] ->
    len image <= avail ->
    let r := deflate d image (deflateBound d (len image)) Z_SYNC_FLUSH in
    z_rc r = Z_OK ->
    z_rest r = [] ->
    z_out r <> [] /\ inflates_back i dictionary (z_out r) avail image.

(** The result of [decode] once the loops have left [r]. *)
Definition decoded {zlib : Zlib} (signed_char : bool)
    (c : GzipHeaderCodec) (r : Inflated) : DecodeOut :=
  let st := in_state r in
  let size := {| compressed := in_consumed r;
                 uncompressed := len (data (i_buf st)) |} in
  let parsed :=
    parseNameValues (nameValueSize (versionSettings_ c)) signed_char
                    (data (i_buf st)) [] in
  {| do_result :=
       match snd parsed with
       | ParseError e => Error e
       | OutOfRange => Error BAD_ENCODING
       | ParseOk n =>
           if n >? kMaxExpandedHeaderLineBytes then Error HEADERS_TOO_LARGE
           else Ok {| headers := fst parsed; bytesConsumed := in_consumed r |}
       end;
     do_codec := with_decoded c (i_stream st) size (fst parsed)
                   (record_stat (recordDecode size) (stats_ c));
     do_scratch := Some (i_buf st);
     do_cursor := in_cursor r |}.


(** The (name, value) pairs of a list of headers. *)
Definition header_pairs (hs : list Header) : list (list byte * list byte) :=
  map (fun h => (name h, value h)) hs.

(** The values listed under the name [nm], in order. *)
Definition values_of (nm : list byte) (ps : list (list byte * list byte))
  : list (list byte) :=
  map snd (filter (fun p => bytes_eqb (fst p) nm) ps).

(** The round-trip law in the words of the spec, for one list [H] and
    codecs over one zlib: decoding what [encode] returned gives the
    pairs of [H], and the values of every name in the order [H] has
    them. *)
Definition round_trip_law {zlib : Zlib} (other : Z) (signed_char : bool)
    (sort : list Header -> list Header) (enc dec : GzipHeaderCodec)
    (fuel : nat) (H : list Header) : Prop :=
  forall eo,
    snd (encode other sort enc None H) = Some eo ->
    exists out pcs,
      decode signed_char fuel dec None [eo_bytes eo] (len (eo_bytes eo))
      = Some out
      /\ do_result out
         = Ok {| headers := pcs; bytesConsumed := len (eo_bytes eo) |}
      /\ Permutation (pairs_of pcs) (header_pairs H)
      /\ forall nm,
           values_of nm (pairs_of pcs) = values_of nm (header_pairs H).

(** 275 pairs with one name of 300 bytes and the value "a". *)
Definition long_name : list byte := repeat (byte_of_Z 120) 300.

Definition many_values : list Header :=
  repeat {| code := 1; name := long_name; value := bytes_of [97] |} 275.

(** The pairs ("host", "a"), ("host", "b") and ("accept", "*/*"), all
    with classification code 1. *)
Definition scenario : list Header :=
  [ hdr 1 [104; 111; 115; 116] [97];
    hdr 1 [104; 111; 115; 116] [98];
    hdr 1 [97; 99; 99; 101; 112; 116] [42; 47; 42] ].

(** A SPDY/3 codec over [stored_zlib] with a cap of 128 KiB and a stats
    sink that has seen no call. *)
Definition codec3 : @GzipHeaderCodec stored_zlib :=
  stored_codec spdy3 131072 (Some []).

(** A value cut at its NUL bytes: the segment before the first NUL and
    the segments after each NUL. *)
Fixpoint split_nul (v : list byte) : list byte * list (list byte) :=
  match v with
  | [] => ([], [])
  | c :: v' =>
      let (cur, vs) := split_nul v' in
      if is_nul c then ([], cur :: vs) else (c :: cur, vs)
  end.

Definition segments (v : list byte) : list (list byte) :=
  fst (split_nul v) :: snd (split_nul v).

Definition is_empty (s : list byte) : bool :=
  match s with
  | [] => true
  | _ :: _ => false
  end.

Definition has_empty_segment (v : list byte) : bool :=
  existsb is_empty (segments v).

Definition nul_joined (vs : list (list byte)) : list byte :=
  flat_map (fun v => Byte.x00 :: v) vs.




(** A block whose first name has length zero. *)
Definition block_empty_name : list byte :=
  bytes_of [0; 0; 0; 1; 0; 0; 0; 0].

(* ------------------------------------------------------------------ *)
(** ** The passes of the decompression loops *)

Section Passes.

Context {zlib : Zlib}.
Variable c : GzipHeaderCodec.

(** The length of the chunk the outer loop takes and the state in which
    it enters the inner loop. *)
Definition chunk_len (cursor : Cursor) (length : Z) : Z :=
  Z.min (len (peek cursor) mod 2 ^ 32) length.

Definition enter_chunk (cursor : Cursor) (length : Z) (st : InflState)
  : InflState :=
  {| i_stream := i_stream st; i_buf := i_buf st;
     i_in := firstn (Z.to_nat (chunk_len cursor length)) (peek cursor);
     i_avail_out := i_avail_out st |}.

(** [passes st st']: the inner loop entered in [st] starts a pass of its
    body in [st']. *)
Inductive passes : InflState -> InflState -> Prop :=
| passes_here st : passes st st
| passes_again st st1 st2 :
    inflate_body c st = Again st1 -> passes st1 st2 -> passes st st2.

(** [reaches cursor length st0 st]: the outer loop entered with
    [cursor], [length] and [st0] starts a pass of the inner body in
    [st]. *)
Inductive reaches : Cursor -> Z -> InflState -> InflState -> Prop :=
| reaches_in_chunk cursor length st0 st :
    length > 0 ->
    passes (enter_chunk cursor length st0) st ->
    reaches cursor length st0 st
| reaches_next_chunk cursor length st0 st1 st2 st :
    length > 0 ->
    passes (enter_chunk cursor length st0) st1 ->
    inflate_body c st1 = Exit st2 ->
    reaches (skip (Z.to_nat (chunk_len cursor length)) cursor)
            (length - chunk_len cursor length) st2 st ->
    reaches cursor length st0 st.

(** The pass that starts in [st] inflates without error and leaves
    more than the configured maximum in the scratch buffer. *)
Definition cap_exceeded (st : InflState) : Prop :=
  let buf :=
    if tailroom (i_buf st) =? 0
    then reserve (capacity (i_buf st)) (i_buf st)
    else i_buf st in
  let r := inflate (i_stream st) (i_in st) (tailroom buf) Z_NO_FLUSH in
  z_rc r = Z_OK
  /\ len (data buf) + len (z_out r) > maxUncompressed_ c.

End Passes.

(** A SPDY/3 codec over [stored_zlib] with a cap of 4 bytes. *)
Definition codec_cap4 : @GzipHeaderCodec stored_zlib :=
  stored_codec spdy3 4 (Some []).

(** A SPDY/2 codec over [stored_zlib], and one pair whose value has
    65536 bytes. *)
Definition codec2 : @GzipHeaderCodec stored_zlib :=
  stored_codec spdy2 131072 (Some []).

Definition long_value : list byte := repeat (byte_of_Z 97) (256 * 256).

Definition one_long_value : list Header :=
  [ {| code := 1; name := bytes_of [120]; value := long_value |} ].

(** The output of a call of [encode] that returned, [d] otherwise. *)
Definition encoded_or {zlib : Zlib} (d : EncodeOut) (x : option EncodeOut)
  : EncodeOut :=
  match x with
  | Some e => e
  | None => d
  end.

Definition returned {A : Type} (x : option A) : bool :=
  match x with
  | Some _ => true
  | None => false
  end.

Definition no_output : @EncodeOut stored_zlib :=
  {| eo_headroom := 0; eo_bytes := []; eo_codec := codec3;
     eo_scratch := None |}.

From Stdlib Require String.

(* ------------------------------------------------------------------ *)
(** ** More of the codec: construction *)

Section Construction.

Context {zlib : Zlib}.


End Construction.

(* ------------------------------------------------------------------ *)
(** ** More on the wire layout *)

Section MoreLayout.

Variable W : nat.

(** The bytes a header saves against the size estimate when it repeats
    the key [(c, n)] of the header before it: two length fields and the
    name, less the NUL. *)
Fixpoint saved_bytes (c : Z) (n : list byte) (hs : list Header) : Z :=
  match hs with
  | [] => 0
  | h :: t =>
      (if same_key c n h then 2 * Z.of_nat W + len (name h) - 1 else 0)
      + saved_bytes (code h) (name h) t
  end.

(** The keys of the entries the serialization loop opens: the key of
    every header that does not repeat the key [(c, n)] before it. *)
Fixpoint entry_keys (c : Z) (n : list byte) (hs : list Header)
  : list (Z * list byte) :=
  match hs with
  | [] => []
  | h :: t =>
      (if same_key c n h then [] else [(code h, name h)])
      ++ entry_keys (code h) (name h) t
  end.

(** One entry of the layout with a single value. *)
Definition plain_entry (h : Header) : list byte :=
  appendSize W (len (name h)) ++ map toLowerAscii (name h)
  ++ appendSize W (len (value h)) ++ value h.

End MoreLayout.

(** A header with its name in lowercase. *)
Definition lower_header (h : Header) : Header :=
  {| code := code h; name := map toLowerAscii (name h); value := value h |}.

(** Lowercasing the names does not change which neighbours share a key:
    no header of [hs] differs from the one before it only in the case of
    letters. *)
Fixpoint case_consistent (c : Z) (n : list byte) (hs : list Header) : Prop :=
  match hs with
  | [] => True
  | h :: t =>
      same_key c n h = same_key c (map toLowerAscii n) (lower_header h)
      /\ case_consistent (code h) (name h) t
  end.

Definition printable (b : byte) : bool :=
  (32 <=? byte_val b) && (byte_val b <=? 126).

(** A header whose name is not empty and printable, uppercase letters
    allowed, and whose value is not empty and holds no NUL. *)
Definition printable_header (h : Header) : Prop :=
  name h <> [] /\ forallb printable (name h) = true /\
  value h <> [] /\ existsb is_nul (value h) = false.

(* ------------------------------------------------------------------ *)
(** ** What the parser returns, stated on names and segments *)

(** The pieces and the expanded bytes the segments [vs] after the first
    NUL of a value add under the name [nm]. *)
Definition seg_pieces (nm : list byte) (vs : list (list byte))
  : list HeaderPiece :=
  flat_map
    (fun v => [ {| str := nm; owner := false; multiValued := true |};
                {| str := v; owner := false; multiValued := true |} ])
    vs.

Definition seg_expanded (nm : list byte) (vs : list (list byte)) : Z :=
  fold_right (fun v acc => len v + len nm + acc) 0 vs.

(** The segments before the first empty one. *)
Fixpoint before_empty (vs : list (list byte)) : list (list byte) :=
  match vs with
  | [] => []
  | v :: vs' => if is_empty v then [] else v :: before_empty vs'
  end.

(** [outHeaders_] when the scan of the value [s] at its back returns
    [EMPTY_HEADER_VALUE]: with an empty first segment nothing has
    changed; otherwise the value piece is cut down to the first segment
    and the segments before the empty one have been appended. *)
Definition cut_pieces (nm : list byte) (out0 : list HeaderPiece)
    (s : list byte) : list HeaderPiece :=
  if is_empty (fst (split_nul s))
  then out0 ++ [ {| str := s; owner := false; multiValued := false |} ]
  else out0
         ++ {| str := fst (split_nul s); owner := false;
               multiValued := false |}
         :: seg_pieces nm (before_empty (snd (split_nul s))).

(** A header that carries the value [v] only. *)
Definition value_header (v : list byte) : Header :=
  {| code := 0; name := []; value := v |}.

(** A decoded (name, value) pair and its flag. *)
Record Entry := {
  e_name : list byte;
  e_value : list byte;
  e_multi : bool
}.

Definition entry_pieces (e : Entry) : list HeaderPiece :=
  [ {| str := e_name e; owner := false; multiValued := e_multi e |};
    {| str := e_value e; owner := false; multiValued := e_multi e |} ].

(** What holds of every pair the parser returns: the name is not empty
    and made of allowed bytes, the value holds no NUL, and a pair flagged
    multi-valued has a nonempty value. *)
Definition entry_ok (e : Entry) : Prop :=
  e_name e <> []
  /\ forallb wire_name_char (e_name e) = true
  /\ existsb is_nul (e_value e) = false
  /\ (e_multi e = true -> e_value e <> []).

(** The name and value bytes of the pairs flagged multi-valued. *)
Definition flagged_bytes (es : list Entry) : Z :=
  fold_right
    (fun e acc => (if e_multi e then len (e_value e) + len (e_name e) else 0)
                  + acc)
    0 es.

(** The bytes of the pieces flagged multi-valued. *)
Definition flagged_piece_bytes (ps : list HeaderPiece) : Z :=
  fold_right
    (fun p acc => (if multiValued p then len (str p) else 0) + acc) 0 ps.

(** SPDY/3 blocks with the entry of [many_values], one name of 300
    bytes with 275 values: alone, and followed by an entry whose name is
    "X". *)
Definition block_over_ceiling : list byte :=
  appendSize 4 1 ++ wire 4 1 [] many_values.

Definition block_over_then_invalid : list byte :=
  appendSize 4 2 ++ wire 4 1 [] many_values ++ bytes_of [0; 0; 0; 1; 88].

(** What the decompression loops handed on, [d] if they did not get
    through. *)
Definition inflated_or {zlib : Zlib} (d : Inflated)
    (x : option (Result Inflated (HeaderDecodeError * Inflated)))
  : Inflated :=
  match x with
  | Some (Ok r) => r
  | _ => d
  end.

Definition nothing_inflated : @Inflated stored_zlib :=
  {| in_state := inflate_start codec3 None; in_consumed := 0;
     in_cursor := [] |}.

(** The pairs ("X-Foo", "1") and ("x-foo", "2"). *)
Definition x_foo_upper : Header := hdr 1 [88; 45; 70; 111; 111] [49].
Definition x_foo_lower : Header := hdr 1 [120; 45; 102; 111; 111] [50].

(** Every pair flagged multi-valued comes right after a pair of the
    same name; [prev] is the name before the list. *)
Fixpoint flags_follow (prev : option (list byte)) (es : list Entry) : Prop :=
  match es with
  | [] => True
  | e :: t =>
      (e_multi e = true -> prev = Some (e_name e))
      /\ flags_follow (Some (e_name e)) t
  end.

(** The pairs one name and value slot give: the first segment
    unflagged, the segments after a NUL flagged. *)
Definition slot_entries (nm first : list byte) (rest : list (list byte))
  : list Entry :=
  {| e_name := nm; e_value := first; e_multi := false |}
  :: map (fun v => {| e_name := nm; e_value := v; e_multi := true |}) rest.

(** A SPDY/3 block with the one entry "x" -> "a\0b". *)
Definition block_two_segments : list byte :=
  bytes_of [0; 0; 0; 1; 0; 0; 0; 1; 120; 0; 0; 0; 3; 97; 0; 98].




(* ------------------------------------------------------------------ *)
(** ** Where the errors of decode come from *)

Section PassOutcomes.

Context {zlib : Zlib}.
Variable c : GzipHeaderCodec.

(** The buffer a pass of the inner loop of [decode] inflates into
    (lines 258-264) and what [inflate] answers in that pass. *)
Definition pass_buf (st : InflState) : IOBuf :=
  if tailroom (i_buf st) =? 0
  then reserve (capacity (i_buf st)) (i_buf st)
  else i_buf st.

Definition pass_inflate (st : InflState) : ZRet z_stream :=
  inflate (i_stream st) (i_in st) (tailroom (pass_buf st)) Z_NO_FLUSH.

(** The pass that starts in [st] is asked for the dictionary and zlib
    refuses the one of the version. *)
Definition dict_rejected (st : InflState) : Prop :=
  z_rc (pass_inflate st) = Z_NEED_DICT
  /\ fst (inflateSetDictionary (z_next (pass_inflate st))
            (dict (versionSettings_ c))) <> Z_OK.

(** [inflate] answers something else than success or the request for
    the dictionary. *)
Definition inflate_failed (st : InflState) : Prop :=
  z_rc (pass_inflate st) <> Z_NEED_DICT /\ z_rc (pass_inflate st) <> 0.

(** The condition under which the pass that starts in [st] returns the
    error [e]. *)
Definition pass_fails (st : InflState) (e : HeaderDecodeError) : Prop :=
  match e with
  | INFLATE_DICTIONARY => dict_rejected st
  | BAD_ENCODING => inflate_failed st
  | HEADERS_TOO_LARGE => cap_exceeded c st
  | EMPTY_HEADER_NAME | EMPTY_HEADER_VALUE | INVALID_HEADER_VALUE => False
  end.

(** What holds of the scratch buffer at the start of every pass: it
    holds no more than the cap and has a capacity of at least the
    cap. *)
Definition buf_ok (st : InflState) : Prop :=
  len (data (i_buf st)) <= Z.max 0 (maxUncompressed_ c)
  /\ maxUncompressed_ c <= capacity (i_buf st).

End PassOutcomes.

(** The error [decode] makes of what the parser ended with (lines
    303-317). *)
Definition parse_fails (p : ParseResult) (e : HeaderDecodeError) : Prop :=
  match p with
  | ParseError e' => e' = e
  | OutOfRange => e = BAD_ENCODING
  | ParseOk n => n > kMaxExpandedHeaderLineBytes /\ e = HEADERS_TOO_LARGE
  end.

(** A stand-in for zlib like [stored_zlib] whose inflate streams refuse
    every dictionary, and a SPDY/3 codec over it. *)
Definition Z_DATA_ERROR : Z := -3.

Definition rejecting_zlib : Zlib := {|
  z_stream := StoredStream;
  deflateInit2 := @deflateInit2 stored_zlib;
  deflateSetDictionary := @deflateSetDictionary stored_zlib;
  inflateInit := @inflateInit stored_zlib;
  inflateSetDictionary s d := (Z_DATA_ERROR, s);
  deflateBound := @deflateBound stored_zlib;
  deflate := @deflate stored_zlib;
  inflate := @inflate stored_zlib
|}.

Definition rejecting_codec : @GzipHeaderCodec rejecting_zlib :=
  {| versionSettings_ := spdy3;
     deflater_ := snd (@deflateSetDictionary rejecting_zlib
                         (snd (@deflateInit2 rejecting_zlib 9 Z_DEFLATED 11 1
                                             Z_DEFAULT_STRATEGY))
                         (dict spdy3));
     inflater_ := snd (@inflateInit rejecting_zlib);
     maxUncompressed_ := 65536;
     encodeHeadroom_ := 0;
     encodedSize_ := {| compressed := 0; uncompressed := 0 |};
     decodedSize_ := {| compressed := 0; uncompressed := 0 |};
     outHeaders_ := [];
     stats_ := None |}.

(** [block_two_segments] in a chain of two buffers. *)
Definition cursor_two_chunks : Cursor :=
  [ bytes_of [0; 0; 0; 1; 0];
    bytes_of [0; 0; 1; 120; 0; 0; 0; 3; 97; 0; 98] ].

(** The SPDY/3 codec over [stored_zlib] with a cap of 8 bytes, and nine
    bytes of input in one buffer. *)
Definition codec_cap8 : @GzipHeaderCodec stored_zlib :=
  stored_codec spdy3 8 (Some []).

Definition nine_bytes : list byte :=
  bytes_of [0; 0; 0; 1; 0; 0; 0; 0; 0].

(* ------------------------------------------------------------------ *)
(** ** CodecProtocol.cpp *)

(** The names of the protocols (lines 17-22). *)
Module Names.
Import String.
Definition http_1_1 : string := "http/1.1"%string.
Definition spdy_2 : string := "spdy/2"%string.
Definition spdy_3 : string := "spdy/3"%string.
Definition spdy_3_1 : string := "spdy/3.1"%string.
Definition spdy_3_1_hpack : string := "spdy/3.1-hpack"%string.
Definition http_2 : string := "http/2"%string.
End Names.

(** [CodecProtocol], with the enumerators the switch of
    [getCodecProtocolString] goes through. *)
Inductive CodecProtocol :=
| HTTP_1_1
| SPDY_2
| SPDY_3
| SPDY_3_1
| SPDY_3_1_HPACK
| HTTP_2.

Definition CodecProtocol_eqb (a b : CodecProtocol) : bool :=
  match a, b with
  | HTTP_1_1, HTTP_1_1 | SPDY_2, SPDY_2 | SPDY_3, SPDY_3
  | SPDY_3_1, SPDY_3_1 | SPDY_3_1_HPACK, SPDY_3_1_HPACK
  | HTTP_2, HTTP_2 => true
  | _, _ => false
  end.

Definition getCodecProtocolString (proto : CodecProtocol) : String.string :=
  match proto with
  | HTTP_1_1 => Names.http_1_1
  | SPDY_2 => Names.spdy_2
  | SPDY_3 => Names.spdy_3
  | SPDY_3_1 => Names.spdy_3_1
  | SPDY_3_1_HPACK => Names.spdy_3_1_hpack
  | HTTP_2 => Names.http_2
  end.

Definition isValidCodecProtocolStr (protocolStr : String.string) : bool :=
  String.eqb protocolStr Names.http_1_1
  || String.eqb protocolStr Names.spdy_2
  || String.eqb protocolStr Names.spdy_3
  || String.eqb protocolStr Names.spdy_3_1
  || String.eqb protocolStr Names.spdy_3_1_hpack
  || String.eqb protocolStr Names.http_2.

Definition getCodecProtocolFromStr (protocolStr : String.string)
  : CodecProtocol :=
  if String.eqb protocolStr Names.http_1_1 then HTTP_1_1
  else if String.eqb protocolStr Names.spdy_2 then SPDY_2
  else if String.eqb protocolStr Names.spdy_3 then SPDY_3
  else if String.eqb protocolStr Names.spdy_3_1 then SPDY_3_1
  else if String.eqb protocolStr Names.spdy_3_1_hpack then SPDY_3_1_HPACK
  else if String.eqb protocolStr Names.http_2 then HTTP_2
  else (* return default protocol *) HTTP_1_1.

Definition isSpdyCodecProtocol (protocol : CodecProtocol) : bool :=
  CodecProtocol_eqb protocol SPDY_2
  || CodecProtocol_eqb protocol SPDY_3
  || CodecProtocol_eqb protocol SPDY_3_1
  || CodecProtocol_eqb protocol SPDY_3_1_HPACK.

(** [maxProtocolPriority], a [uint8_t]. *)
Definition maxProtocolPriority (protocol : CodecProtocol) : Z :=
  match protocol with
  | SPDY_2 => 3
  | SPDY_3 | SPDY_3_1 | SPDY_3_1_HPACK => 7
  | HTTP_1_1 | HTTP_2 => 0
  end.

(* ================================================================== *)
(** * Properties *)

Unset Implicit Arguments.

(* ------------------------------------------------------------------ *)
(** ** Bytes and wire integers *)

Lemma byte_val_range (b : byte) : 0 <= byte_val b < 256.
Proof.
  unfold byte_val. pose proof (Byte.to_N_bounded b). lia.
Qed.

Lemma byte_of_Z_val (b : byte) : byte_of_Z (byte_val b) = b.
Proof.
  unfold byte_of_Z. pose proof (byte_val_range b) as Hr.
  rewrite Z.mod_small by lia. unfold byte_val.
  rewrite N2Z.id, Byte.of_to_N. reflexivity.
Qed.

Lemma byte_val_of_Z (z : Z) : byte_val (byte_of_Z z) = z mod 256.
Proof.
  unfold byte_of_Z.
  assert (Hm : 0 <= z mod 256 < 256) by (apply Z.mod_pos_bound; lia).
  destruct (Byte.of_N (Z.to_N (z mod 256))) as [b|] eqn:E.
  - apply Byte.to_of_N in E. unfold byte_val. rewrite E. lia.
  - apply Byte.of_N_None_iff in E. lia.
Qed.

Lemma byte_val_inj (a b : byte) : byte_val a = byte_val b -> a = b.
Proof.
  intros H. rewrite <- (byte_of_Z_val a), <- (byte_of_Z_val b), H.
  reflexivity.
Qed.

Lemma bytes_eqb_eq (a b : list byte) : bytes_eqb a b = true <-> a = b.
Proof.
  revert b. induction a as [|x a IH]; intros [|y b]; simpl;
    try (split; [discriminate | discriminate]); try tauto.
  rewrite andb_true_iff, Z.eqb_eq, IH. split.
  - intros [Hx Hab]. f_equal; [apply byte_val_inj|]; assumption.
  - intros H. inversion H. tauto.
Qed.

Lemma bytes_eqb_refl (a : list byte) : bytes_eqb a a = true.
Proof. apply bytes_eqb_eq. reflexivity. Qed.

Lemma len_app {A : Type} (a b : list A) : len (a ++ b) = len a + len b.
Proof. unfold len. rewrite length_app. lia. Qed.

Lemma len_nonneg {A : Type} (a : list A) : 0 <= len a.
Proof. unfold len. lia. Qed.

Lemma len_cons {A : Type} (x : A) (a : list A) : len (x :: a) = 1 + len a.
Proof. unfold len. simpl length. lia. Qed.

Lemma len_pos {A : Type} (a : list A) : a <> [] -> 0 < len a.
Proof.
  destruct a as [|x l]; [congruence|].
  rewrite len_cons. pose proof (len_nonneg l). lia.
Qed.

Lemma length_appendSize (w : nat) (n : Z) : length (appendSize w n) = w.
Proof. induction w; simpl; congruence. Qed.

Lemma fold_appendSize (w : nat) (n acc : Z) :
  fold_left (fun a b => a * 256 + byte_val b) (appendSize w n) acc
  = acc * 256 ^ Z.of_nat w + n mod 256 ^ Z.of_nat w.
Proof.
  revert acc. induction w as [|w IH]; intros acc.
  - simpl. rewrite Z.mod_1_r. lia.
  - cbn [appendSize fold_left]. rewrite IH, byte_val_of_Z.
    rewrite Nat2Z.inj_succ, Z.pow_succ_r by lia.
    assert (Hp : 0 < 256 ^ Z.of_nat w) by (apply Z.pow_pos_nonneg; lia).
    rewrite (Z.mul_comm 256 (256 ^ Z.of_nat w)).
    rewrite (Z.rem_mul_r n (256 ^ Z.of_nat w) 256) by lia.
    ring.
Qed.

Lemma be_value_appendSize (w : nat) (n : Z) :
  be_value (appendSize w n) = n mod 256 ^ Z.of_nat w.
Proof. unfold be_value. rewrite fold_appendSize. lia. Qed.

Lemma firstn_app_exact {A : Type} (a b : list A) (n : nat) :
  n = length a -> firstn n (a ++ b) = a.
Proof.
  intros ->. rewrite firstn_app, Nat.sub_diag, firstn_all. simpl.
  apply app_nil_r.
Qed.

Lemma skipn_app_exact {A : Type} (a b : list A) (n : nat) :
  n = length a -> skipn n (a ++ b) = b.
Proof.
  intros ->. rewrite skipn_app, Nat.sub_diag, skipn_all. reflexivity.
Qed.

Section ParseSize.

Variable W : nat.

Lemma parseSize_appendSize (n : Z) (rest : list byte) :
  0 <= n < 256 ^ Z.of_nat W ->
  parseSize W (appendSize W n ++ rest) = Some (n, rest).
Proof.
  intros Hn. unfold parseSize.
  rewrite length_app, length_appendSize.
  destruct (Nat.ltb_spec (W + length rest) W); [lia|].
  rewrite firstn_app_exact, skipn_app_exact
    by (symmetry; apply length_appendSize).
  rewrite be_value_appendSize, Z.mod_small by lia. reflexivity.
Qed.

Lemma parseSize_appendSize_mod (n : Z) (rest : list byte) :
  parseSize W (appendSize W n ++ rest)
  = Some (n mod 256 ^ Z.of_nat W, rest).
Proof.
  unfold parseSize.
  rewrite length_app, length_appendSize.
  destruct (Nat.ltb_spec (W + length rest) W); [lia|].
  rewrite firstn_app_exact, skipn_app_exact
    by (symmetry; apply length_appendSize).
  rewrite be_value_appendSize. reflexivity.
Qed.

End ParseSize.

(** The name test does not depend on the signedness of [char]. *)
Lemma bad_name_char_wire (signed_char : bool) (b : byte) :
  bad_name_char signed_char b = negb (wire_name_char b).
Proof.
  unfold bad_name_char, wire_name_char, char_val.
  pose proof (byte_val_range b) as Hr.
  destruct signed_char; simpl andb;
    repeat match goal with
    | |- context [?x <=? ?y] => destruct (Z.leb_spec x y)
    | |- context [?x <? ?y] => destruct (Z.ltb_spec x y)
    | |- context [?x >? ?y] => rewrite (Z.gtb_ltb x y)
    end; simpl; try reflexivity; try lia.
Qed.

Lemma toLowerAscii_wire (b : byte) :
  wire_name_char b = true -> toLowerAscii b = b.
Proof.
  unfold wire_name_char, toLowerAscii. cbv zeta.
  destruct ((65 <=? byte_val b) && (byte_val b <=? 90)); [|reflexivity].
  rewrite andb_false_r. discriminate.
Qed.

Lemma map_toLowerAscii_wire (n : list byte) :
  forallb wire_name_char n = true -> map toLowerAscii n = n.
Proof.
  induction n as [|b n IH]; simpl; [reflexivity|].
  rewrite andb_true_iff. intros [Hb Hn].
  rewrite toLowerAscii_wire, IH by assumption. reflexivity.
Qed.

Lemma existsb_bad_name (signed_char : bool) (n : list byte) :
  existsb (bad_name_char signed_char) n = negb (forallb wire_name_char n).
Proof.
  induction n as [|b n IH]; simpl; [reflexivity|].
  rewrite IH, bad_name_char_wire, negb_andb. reflexivity.
Qed.

(* ------------------------------------------------------------------ *)
(** ** The canonicalizer *)

Lemma write_at_field (pre old rest bs : list byte) :
  length bs = length old ->
  write_at (length pre) bs (pre ++ old ++ rest) = pre ++ bs ++ rest.
Proof.
  intros Hl. unfold write_at.
  rewrite firstn_app_exact by reflexivity.
  rewrite skipn_app, skipn_all2 by lia. simpl.
  replace (length pre + length bs - length pre)%nat with (length old) by lia.
  rewrite skipn_app_exact by reflexivity. reflexivity.
Qed.

Lemma write_at_front (old rest bs : list byte) :
  length bs = length old ->
  write_at 0 bs (old ++ rest) = bs ++ rest.
Proof. intros Hl. apply (write_at_field [] old rest bs Hl). Qed.

Lemma length_write_at (p : nat) (bs buf : list byte) :
  (p + length bs <= length buf)%nat ->
  length (write_at p bs buf) = length buf.
Proof.
  intros H. unfold write_at.
  rewrite !length_app, length_firstn, length_skipn. lia.
Qed.

Tactic Notation "enc_fields" :=
  cbn [written lastCode lastName lastValueLenPtr lastValueLen numHeaders
       enc_init].
Tactic Notation "enc_fields" "in" hyp(H) :=
  cbn [written lastCode lastName lastValueLenPtr lastValueLen numHeaders
       enc_init] in H.

Lemma Some_inj {A : Type} (a b : A) : Some a = Some b -> a = b.
Proof. congruence. Qed.

Section CanonicalizerFacts.

Variable W : nat.
Variable HTTP_HEADER_OTHER : Z.

Let step := enc_step W.
Let loop := enc_loop W.

Lemma maxUncompressedSize_fold (hs : list Header) (acc : Z) :
  fold_left
    (fun a h => a + Z.of_nat W + len (name h) + Z.of_nat W + len (value h))
    hs acc
  = acc + fold_right
      (fun h a =>
         (Z.of_nat W + len (name h) + Z.of_nat W + len (value h)) + a)
      0 hs.
Proof.
  revert acc. induction hs as [|h t IH]; intros acc; simpl; [lia|].
  rewrite IH. lia.
Qed.

Lemma maxUncompressedSize_estimate (hs : list Header) :
  maxUncompressedSize W hs = size_estimate W hs.
Proof. apply maxUncompressedSize_fold. Qed.

Lemma size_estimate_perm (hs hs' : list Header) :
  Permutation hs hs' -> size_estimate W hs = size_estimate W hs'.
Proof.
  unfold size_estimate, payload. intros Hp. f_equal.
  induction Hp; simpl; lia.
Qed.

Lemma enc_step_grows (st st' : EncState) (h : Header) :
  (1 <= W)%nat -> ptr_ok W st -> step st h = Some st' ->
  ptr_ok W st' /\
  len (written st') <= len (written st)
    + (Z.of_nat W + len (name h) + Z.of_nat W + len (value h)).
Proof.
  intros HW Hok. unfold step, enc_step.
  destruct (negb (same_key (lastCode st) (lastName st) h)).
  - intros E. apply Some_inj in E. subst st'. unfold ptr_ok. enc_fields.
    rewrite !len_app. unfold len.
    rewrite !length_app, !length_appendSize, length_map. lia.
  - unfold ptr_ok in Hok.
    destruct (lastValueLenPtr st) as [p|]; [|discriminate].
    intros E. apply Some_inj in E. subst st'. unfold ptr_ok. enc_fields.
    assert (Hp : (p + length (appendSize W
              (lastValueLen st + (1 + len (value h))))
            <= length (written st ++ Byte.x00 :: value h))%nat).
    { rewrite length_appendSize, length_app. lia. }
    split.
    + rewrite (length_write_at _ _ _ Hp), length_app. lia.
    + unfold len at 1. rewrite (length_write_at _ _ _ Hp).
      fold (len (written st ++ Byte.x00 :: value h)).
      rewrite len_app, len_cons.
      pose proof (len_nonneg (name h)). lia.
Qed.

Lemma enc_loop_grows (hs : list Header) :
  forall st st', (1 <= W)%nat -> ptr_ok W st -> loop st hs = Some st' ->
  len (written st') <= len (written st)
    + (size_estimate W hs - Z.of_nat W).
Proof.
  unfold size_estimate, payload.
  induction hs as [|h t IH]; intros st st' HW Hok; simpl.
  - intros [= <-]. lia.
  - unfold loop in *. simpl.
    destruct (enc_step W st h) as [st1|] eqn:E; [|discriminate].
    intros Hl. destruct (enc_step_grows st st1 h HW Hok E) as [Hok1 Hb].
    specialize (IH st1 st' HW Hok1 Hl). lia.
Qed.

(** The loop stops only at a first header that repeats the initial
    key: the code for other names and the empty name. *)
Lemma enc_loop_total (hs : list Header) :
  forall st, lastValueLenPtr st <> None -> loop st hs <> None.
Proof.
  induction hs as [|h t IH]; intros st Hp; unfold loop in *; simpl.
  - discriminate.
  - unfold enc_step.
    destruct (negb (same_key (lastCode st) (lastName st) h)).
    + apply IH. enc_fields. discriminate.
    + destruct (lastValueLenPtr st) as [p|]; [|congruence].
      apply IH. enc_fields. discriminate.
Qed.

Lemma serialize_none (hs : list Header) :
  serialize W HTTP_HEADER_OTHER hs = None <->
  exists h t, hs = h :: t /\ code h = HTTP_HEADER_OTHER /\ name h = [].
Proof.
  unfold serialize. destruct hs as [|h t]; simpl.
  - split; [discriminate | intros (h & t & H & _); discriminate].
  - unfold enc_step. cbn [lastCode lastName lastValueLenPtr enc_init].
    destruct (same_key HTTP_HEADER_OTHER [] h) eqn:K; simpl.
    + split; [|reflexivity]. intros _.
      unfold same_key in K. apply andb_true_iff in K as [Kc Kn].
      apply Z.eqb_eq in Kc. apply bytes_eqb_eq in Kn.
      exists h, t. auto.
    + match goal with
      | |- context [enc_loop W ?s t] =>
          pose proof (enc_loop_total t s) as Ht
      end.
      unfold loop in Ht.
      match type of Ht with
      | _ -> ?x <> None => destruct x eqn:E
      end.
      * split; [discriminate|].
        intros (h' & t' & [= <- <-] & Hc & Hn).
        unfold same_key in K.
        rewrite Hc, Hn, Z.eqb_refl, bytes_eqb_refl in K. discriminate.
      * exfalso. apply Ht; [enc_fields; discriminate | reflexivity].
Qed.

Lemma enc_loop_mono (hs : list Header) :
  forall st st', loop st hs = Some st' ->
  (length (written st) <= length (written st'))%nat.
Proof.
  unfold loop.
  induction hs as [|h t IH]; intros s s'; simpl.
  - intros E. apply Some_inj in E. subst s'. lia.
  - unfold enc_step.
    destruct (negb (same_key (lastCode s) (lastName s) h)).
    + intros H. apply IH in H. enc_fields in H.
      rewrite !length_app in H. lia.
    + destruct (lastValueLenPtr s) as [p|]; [|discriminate].
      intros H. apply IH in H. enc_fields in H. unfold write_at in H.
      rewrite !length_app, length_firstn, length_skipn,
        length_appendSize, length_app in H. simpl length in H. lia.
Qed.

Lemma serialize_bound (hs : list Header) (image : list byte) :
  (1 <= W)%nat ->
  serialize W HTTP_HEADER_OTHER hs = Some image ->
  len image <= size_estimate W hs.
Proof.
  intros HW. unfold serialize.
  destruct (enc_loop W (enc_init W HTTP_HEADER_OTHER) hs) as [st|] eqn:E;
    [|discriminate].
  intros Ei. apply Some_inj in Ei. subst image.
  assert (Hg := enc_loop_grows hs (enc_init W HTTP_HEADER_OTHER) st HW I E).
  assert (Hm := enc_loop_mono hs (enc_init W HTTP_HEADER_OTHER) st E).
  enc_fields in Hg. enc_fields in Hm.
  unfold len in *. rewrite repeat_length in *.
  rewrite length_write_at by (rewrite length_appendSize; lia).
  lia.
Qed.

End CanonicalizerFacts.

(* ------------------------------------------------------------------ *)
(** ** The serialized image is the wire layout *)

Section SerializeWire.

Variable W : nat.
Variable HTTP_HEADER_OTHER : Z.

Lemma same_key_eq (c : Z) (n : list byte) (h : Header) :
  same_key c n h = true <-> code h = c /\ name h = n.
Proof.
  unfold same_key. rewrite andb_true_iff, Z.eqb_eq, bytes_eqb_eq. tauto.
Qed.

Lemma enc_loop_wire (hs : list Header) :
  forall pre cur c n l nh,
    0 <= nh < 2 ^ 32 ->
    exists st',
      enc_loop W
        {| written := pre ++ appendSize W l ++ cur;
           lastCode := c; lastName := n;
           lastValueLenPtr := Some (length pre);
           lastValueLen := l; numHeaders := nh |} hs = Some st'
      /\ written st'
         = pre ++ appendSize W (l + run_len c n hs) ++ cur ++ wire W c n hs
      /\ numHeaders st' = (nh + unique_names c n hs) mod 2 ^ 32.
Proof.
  induction hs as [|h t IH]; intros pre cur c n l nh Hnh.
  - eexists. split; [reflexivity|]. enc_fields. simpl.
    rewrite !Z.add_0_r, app_nil_r, Z.mod_small by lia. auto.
  - cbn [enc_loop]. unfold enc_step. enc_fields.
    cbn [run_len wire unique_names].
    destruct (same_key c n h) eqn:K; cbn [negb].
    + apply same_key_eq in K as [Kc Kn].
      rewrite <- !app_assoc.
      rewrite write_at_field
        by (rewrite !length_appendSize; reflexivity).
      destruct (IH pre (cur ++ Byte.x00 :: value h) c n
                   (l + (1 + len (value h))) nh Hnh)
        as (st' & E & Hw & Hn).
      exists st'. split; [exact E|]. split.
      * rewrite Hw, <- !app_assoc. cbn [app].
        replace (l + (1 + len (value h)) + run_len c n t)
          with (l + (1 + len (value h) + run_len c n t)) by lia.
        reflexivity.
      * rewrite Hn, Kc, Kn. f_equal.
    + rewrite !app_assoc.
      rewrite <- (app_assoc _ (appendSize W (len (value h))) (value h)).
      assert (Hnh' : 0 <= (nh + 1) mod 2 ^ 32 < 2 ^ 32)
        by (apply Z.mod_pos_bound; lia).
      destruct (IH ((pre ++ appendSize W l ++ cur)
                      ++ appendSize W (len (name h))
                      ++ map toLowerAscii (name h))
                   (value h) (code h) (name h) (len (value h))
                   ((nh + 1) mod 2 ^ 32) Hnh')
        as (st' & E & Hw & Hn).
      rewrite <- !app_assoc in E. rewrite <- !app_assoc.
      rewrite !length_app in *.
      exists st'. split; [exact E|]. split.
      * rewrite Hw, <- !app_assoc, Z.add_0_r. reflexivity.
      * rewrite Hn, Zplus_mod_idemp_l. f_equal. lia.
Qed.

End SerializeWire.

(* ------------------------------------------------------------------ *)
(** ** Scanning a combined value *)

Lemma serialize_wire (W : nat) (other : Z) (hs : list Header) :
  (forall h t, hs = h :: t -> same_key other [] h = false) ->
  serialize W other hs
  = Some (appendSize W (unique_names other [] hs mod 2 ^ 32)
            ++ wire W other [] hs).
Proof.
  intros Hfresh. unfold serialize. destruct hs as [|h t].
  - cbn [enc_loop enc_init written numHeaders unique_names wire].
    rewrite <- (app_nil_r (repeat Byte.x00 W)).
    rewrite write_at_front
      by (rewrite length_appendSize, repeat_length; reflexivity).
    reflexivity.
  - cbn [enc_loop]. unfold enc_step. enc_fields.
    rewrite (Hfresh h t eq_refl). cbn [negb].
    assert (Hnh : 0 <= (0 + 1) mod 2 ^ 32 < 2 ^ 32)
      by (apply Z.mod_pos_bound; lia).
    destruct (enc_loop_wire W t
                (repeat Byte.x00 W ++ appendSize W (len (name h))
                   ++ map toLowerAscii (name h))
                (value h) (code h) (name h) (len (value h))
                ((0 + 1) mod 2 ^ 32) Hnh)
      as (st' & E & Hw & Hn).
    rewrite E, Hw, Hn. rewrite <- !app_assoc.
    rewrite write_at_front
      by (rewrite length_appendSize, repeat_length; reflexivity).
    cbn [unique_names wire]. rewrite (Hfresh h t eq_refl).
    rewrite Zplus_mod_idemp_l. reflexivity.
Qed.

Lemma is_nul_x00 : is_nul Byte.x00 = true.
Proof. reflexivity. Qed.

Lemma scan_value_plain (s nm : list byte) (hv : nat) (v : list byte) :
  forall r st,
    existsb is_nul v = false ->
    scan_value s nm hv (v ++ r) st
    = scan_value s nm hv r
        {| sc_first := sc_first st;
           sc_valueStart := sc_valueStart st;
           sc_pos := sc_pos st + length v;
           sc_out := sc_out st;
           sc_expanded := sc_expanded st |}.
Proof.
  induction v as [|c v IH]; intros r st Hv.
  - simpl. rewrite Nat.add_0_r. destruct st; reflexivity.
  - simpl in Hv. apply orb_false_iff in Hv as [Hc Hv].
    cbn [app scan_value]. rewrite Hc, IH by assumption.
    cbn [sc_first sc_valueStart sc_pos sc_out sc_expanded].
    replace (sc_pos st + length (c :: v))%nat
      with (S (sc_pos st) + length v)%nat by (simpl; lia).
    reflexivity.
Qed.

Lemma scan_all_run (nm : list byte) (hv : nat) (r : list Header) :
  forall s a cur out expanded,
    s = a ++ cur ++ run_bytes r ->
    value_ok cur ->
    Forall (fun h => value_ok (value h)) r ->
    scan_all s nm hv (cur ++ run_bytes r)
      {| sc_first := false; sc_valueStart := length a; sc_pos := length a;
         sc_out := out; sc_expanded := expanded |}
    = Scanned (out
                 ++ {| str := nm; owner := false; multiValued := true |}
                 :: {| str := cur; owner := false; multiValued := true |}
                 :: run_pieces nm r,
               expanded + (len cur + len nm) + run_expanded nm r).
Proof.
  induction r as [|h r IH]; intros s a cur out expanded Hs [Hne Hnul] Hr.
  - unfold scan_all. cbn [run_bytes flat_map] in *.
    rewrite scan_value_plain by assumption.
    cbn [scan_value sc_first sc_valueStart sc_pos sc_out sc_expanded].
    unfold scan_finish.
    cbn [sc_first sc_valueStart sc_pos sc_out sc_expanded negb].
    replace (length a + length cur - length a)%nat with (length cur) by lia.
    destruct (Nat.eqb_spec (length cur) 0) as [H0|_].
    { apply length_zero_iff_nil in H0. contradiction. }
    unfold slice. rewrite Hs, skipn_app_exact by reflexivity.
    rewrite app_nil_r, firstn_all.
    cbn [run_pieces flat_map run_expanded fold_right].
    rewrite Z.add_0_r. reflexivity.
  - inversion Hr as [|h' r' Hh Hr']; subst h' r'.
    unfold scan_all. cbn [run_bytes flat_map].
    rewrite scan_value_plain by assumption.
    cbn [scan_value app sc_first sc_valueStart sc_pos sc_out sc_expanded].
    rewrite is_nul_x00.
    replace (length a + length cur - length a)%nat with (length cur) by lia.
    destruct (Nat.eqb_spec (length cur) 0) as [H0|_].
    { apply length_zero_iff_nil in H0. contradiction. }
    assert (Hseg : slice s (length a) (length cur) = cur).
    { unfold slice. rewrite Hs, skipn_app_exact by reflexivity.
      apply firstn_app_exact. reflexivity. }
    rewrite Hseg.
    specialize (IH s (a ++ cur ++ [Byte.x00]) (value h)
                  (out ++ [ {| str := nm; owner := false; multiValued := true |};
                            {| str := cur; owner := false; multiValued := true |} ])
                  (expanded + (len cur + len nm))).
    unfold scan_all in IH. fold (run_bytes r).
    replace (S (length a + length cur))
      with (length (a ++ cur ++ [Byte.x00]))
      by (rewrite !length_app; simpl; lia).
    rewrite IH; [| | assumption | assumption].
    + rewrite <- app_assoc. cbn [app run_pieces flat_map run_expanded fold_right].
      fold (run_pieces nm r). fold (run_expanded nm r).
      f_equal. f_equal. lia.
    + rewrite Hs, <- !app_assoc. reflexivity.
Qed.

Lemma reset_str_last (out0 : list HeaderPiece) (p : HeaderPiece)
    (sg : list byte) :
  reset_str (length out0) sg (out0 ++ [p])
  = out0 ++ [ {| str := sg; owner := owner p; multiValued := multiValued p |} ].
Proof.
  induction out0 as [|q out0 IH]; simpl; [reflexivity|].
  rewrite IH. reflexivity.
Qed.

Lemma split_value_run (nm : list byte) (out0 : list HeaderPiece)
    (v : list byte) (r : list Header) (expanded : Z) :
  value_ok v ->
  Forall (fun h => value_ok (value h)) r ->
  split_value nm
    (out0 ++ [ {| str := v ++ run_bytes r; owner := false;
                  multiValued := false |} ]) expanded
  = Scanned (out0 ++ {| str := v; owner := false; multiValued := false |}
                  :: run_pieces nm r,
             expanded + run_expanded nm r).
Proof.
  intros [Hne Hnul] Hr. unfold split_value.
  rewrite last_last, length_app. cbn [length str].
  replace (length out0 + 1 - 1)%nat with (length out0) by lia.
  destruct r as [|h r].
  - cbn [run_bytes flat_map run_pieces run_expanded fold_right].
    unfold scan_all. rewrite scan_value_plain by assumption.
    cbn [scan_value scan_finish sc_first sc_out sc_expanded negb].
    unfold scan_finish. cbn [sc_first sc_out sc_expanded negb].
    rewrite app_nil_r, Z.add_0_r. reflexivity.
  - inversion Hr as [|h' r' Hh Hr']; subst h' r'.
    cbn [run_bytes flat_map]. fold (run_bytes r).
    unfold scan_all. rewrite scan_value_plain by assumption.
    cbn [scan_value app sc_first sc_valueStart sc_pos sc_out sc_expanded].
    rewrite is_nul_x00. cbn [Nat.add].
    rewrite Nat.sub_0_r.
    destruct (Nat.eqb_spec (length v) 0) as [H0|_].
    { apply length_zero_iff_nil in H0. contradiction. }
    assert (Hseg : slice (v ++ Byte.x00 :: value h ++ run_bytes r) 0
                         (length v) = v).
    { unfold slice. cbn [skipn]. apply firstn_app_exact. reflexivity. }
    rewrite Hseg, reset_str_last. cbn [owner multiValued].
    pose proof (scan_all_run nm (length out0) r
                  (v ++ Byte.x00 :: value h ++ run_bytes r)
                  (v ++ [Byte.x00]) (value h)
                  (out0 ++ [ {| str := v; owner := false;
                                multiValued := false |} ])
                  expanded) as Hrun.
    unfold scan_all in Hrun.
    replace (S (length v)) with (length (v ++ [Byte.x00]))
      by (rewrite length_app; simpl; lia).
    rewrite Hrun; [| | assumption | assumption].
    + rewrite <- app_assoc. cbn [app run_pieces flat_map run_expanded
                                 fold_right].
      fold (run_pieces nm r). fold (run_expanded nm r).
      f_equal. f_equal. lia.
    + rewrite <- app_assoc. reflexivity.
Qed.

(* ------------------------------------------------------------------ *)
(** ** Runs of headers with one key *)

Section Runs.

Variable W : nat.

Lemma take_run_spec (c : Z) (n : list byte) (hs : list Header) :
  forall r rest, take_run c n hs = (r, rest) ->
    hs = r ++ rest
    /\ Forall (fun h => same_key c n h = true) r
    /\ fresh c n rest.
Proof.
  induction hs as [|h t IH]; intros r rest; simpl.
  - intros [= <- <-]. repeat split; [constructor|].
    intros h t H. discriminate.
  - destruct (same_key c n h) eqn:K.
    + destruct (take_run c n t) as [r' rest'].
      intros [= <- <-]. destruct (IH r' rest' eq_refl) as (-> & Hr & Hf).
      repeat split; [constructor; assumption | assumption].
    + intros [= <- <-]. repeat split; [constructor|].
      intros h' t' [= <- <-]. assumption.
Qed.

Lemma wire_run (c : Z) (n : list byte) (r rest : list Header) :
  Forall (fun h => same_key c n h = true) r ->
  wire W c n (r ++ rest) = run_bytes r ++ wire W c n rest.
Proof.
  induction 1 as [|h r Hh Hr IH]; [reflexivity|].
  cbn [app wire run_bytes flat_map]. rewrite Hh, IH.
  fold (run_bytes r). rewrite <- app_assoc. reflexivity.
Qed.

Lemma run_len_run (c : Z) (n : list byte) (r rest : list Header) :
  Forall (fun h => same_key c n h = true) r ->
  fresh c n rest ->
  run_len c n (r ++ rest) = len (run_bytes r).
Proof.
  intros Hr Hf. induction Hr as [|h r Hh Hr IH].
  - destruct rest as [|h t]; [reflexivity|].
    cbn [app run_len]. rewrite (Hf h t eq_refl). reflexivity.
  - cbn [app run_len run_bytes flat_map]. rewrite Hh, IH.
    fold (run_bytes r). rewrite len_cons, len_app. lia.
Qed.

Lemma unique_names_run (c : Z) (n : list byte) (r rest : list Header) :
  Forall (fun h => same_key c n h = true) r ->
  unique_names c n (r ++ rest) = unique_names c n rest.
Proof.
  induction 1 as [|h r Hh Hr IH]; [reflexivity|].
  cbn [app unique_names]. rewrite Hh.
  apply same_key_eq in Hh as [-> ->]. exact IH.
Qed.

Lemma pieces_run (c : Z) (n : list byte) (r rest : list Header) :
  Forall (fun h => same_key c n h = true) r ->
  pieces c n (r ++ rest) = run_pieces n r ++ pieces c n rest.
Proof.
  induction 1 as [|h r Hh Hr IH]; [reflexivity|].
  cbn [app pieces run_pieces flat_map]. rewrite Hh.
  apply same_key_eq in Hh as [Hc Hn]. rewrite Hc, Hn, IH.
  reflexivity.
Qed.

Lemma expandedBytes_run (c : Z) (n : list byte) (r rest : list Header) :
  Forall (fun h => same_key c n h = true) r ->
  expandedBytes c n (r ++ rest) = run_expanded n r + expandedBytes c n rest.
Proof.
  induction 1 as [|h r Hh Hr IH]; [simpl; lia|].
  cbn [app expandedBytes run_expanded fold_right]. rewrite Hh.
  apply same_key_eq in Hh as [Hc Hn]. rewrite Hc, Hn, IH.
  fold (run_expanded n r). lia.
Qed.

Lemma unique_names_nonneg (hs : list Header) :
  forall c n, 0 <= unique_names c n hs.
Proof.
  induction hs as [|h t IH]; intros c n; simpl; [lia|].
  specialize (IH (code h) (name h)).
  destruct (same_key c n h); lia.
Qed.

Lemma unique_names_le (hs : list Header) :
  forall c n, unique_names c n hs <= len hs.
Proof.
  induction hs as [|h t IH]; intros c n; simpl; [unfold len; simpl; lia|].
  specialize (IH (code h) (name h)). rewrite len_cons.
  destruct (same_key c n h); lia.
Qed.

End Runs.

(* ------------------------------------------------------------------ *)
(** ** Parsing the wire layout *)

Section ParseWire.

Variable W : nat.
Variable signed_char : bool.

Lemma Z_to_nat_len {A : Type} (l : list A) : Z.to_nat (len l) = length l.
Proof. unfold len. apply Nat2Z.id. Qed.

Lemma mod32_parity (x : Z) : (x mod 2 ^ 32) mod 2 = x mod 2.
Proof.
  apply Z.mod_mod_divide. exists (2 ^ 31). reflexivity.
Qed.

Lemma next_even (i : Z) :
  i mod 2 = 0 -> (((i + 1) mod 2 ^ 32 + 1) mod 2 ^ 32) mod 2 = 0.
Proof.
  intros Hi. rewrite mod32_parity, Zplus_mod, mod32_parity.
  rewrite (Zplus_mod i 1), Hi. reflexivity.
Qed.

(** A name slot: the length, the bytes, the test of every byte. *)
Lemma parse_name_slot (n : nat) (i : Z) (nm rest : list byte)
    (out : list HeaderPiece) (expanded : Z) :
  i mod 2 = 0 ->
  nm <> [] ->
  len nm < 256 ^ Z.of_nat W ->
  parse_loop W signed_char (S n) i None
    (appendSize W (len nm) ++ nm ++ rest) out expanded
  = let piece := {| str := nm; owner := false; multiValued := false |} in
    if forallb wire_name_char nm
    then parse_loop W signed_char n ((i + 1) mod 2 ^ 32) (Some piece) rest
           (out ++ [piece]) expanded
    else (out ++ [piece], ParseError INVALID_HEADER_VALUE).
Proof.
  intros Hi Hne Hnm.
  pose proof (len_pos nm Hne) as Hpos.
  cbn [parse_loop].
  rewrite parseSize_appendSize by lia.
  replace (len nm =? 0) with false by (symmetry; apply Z.eqb_neq; lia).
  cbn [andb].
  replace (len (nm ++ rest) <? len nm) with false
    by (symmetry; apply Z.ltb_ge; rewrite len_app;
        pose proof (len_nonneg rest); lia).
  rewrite Z_to_nat_len.
  rewrite firstn_app_exact, skipn_app_exact by reflexivity.
  cbn [str]. rewrite Hi. cbn [Z.eqb].
  rewrite existsb_bad_name.
  destruct (forallb wire_name_char nm); reflexivity.
Qed.

(** A value slot after the name piece [nmp]. *)
Lemma parse_value_slot (n : nat) (i : Z) (nmp : HeaderPiece)
    (v rest : list byte) (out : list HeaderPiece) (expanded : Z) :
  i mod 2 = 1 ->
  len v < 256 ^ Z.of_nat W ->
  parse_loop W signed_char (S n) i (Some nmp)
    (appendSize W (len v) ++ v ++ rest) out expanded
  = let piece := {| str := v; owner := false; multiValued := false |} in
    match split_value (str nmp) (out ++ [piece]) expanded with
    | EmptyValue out2 => (out2, ParseError EMPTY_HEADER_VALUE)
    | Scanned (out2, expanded') =>
        parse_loop W signed_char n ((i + 1) mod 2 ^ 32) None rest out2
          expanded'
    end.
Proof.
  intros Hi Hv.
  pose proof (len_nonneg v) as Hvp.
  cbn [parse_loop].
  rewrite parseSize_appendSize by lia.
  rewrite andb_false_r.
  replace (len (v ++ rest) <? len v) with false
    by (symmetry; apply Z.ltb_ge; rewrite len_app;
        pose proof (len_nonneg rest); lia).
  rewrite Z_to_nat_len.
  rewrite firstn_app_exact, skipn_app_exact by reflexivity.
  rewrite Hi. reflexivity.
Qed.

Lemma next_odd (i : Z) : i mod 2 = 0 -> ((i + 1) mod 2 ^ 32) mod 2 = 1.
Proof.
  intros Hi. rewrite mod32_parity, Zplus_mod, Hi. reflexivity.
Qed.

Lemma parse_entry (n : nat) (i : Z) (nm v : list byte) (r : list Header)
    (tail : list byte) (out : list HeaderPiece) (expanded : Z) :
  i mod 2 = 0 ->
  nm <> [] -> forallb wire_name_char nm = true ->
  len nm < 256 ^ Z.of_nat W ->
  len (v ++ run_bytes r) < 256 ^ Z.of_nat W ->
  value_ok v -> Forall (fun h => value_ok (value h)) r ->
  parse_loop W signed_char (S (S n)) i None
    (appendSize W (len nm) ++ map toLowerAscii nm
       ++ appendSize W (len (v ++ run_bytes r))
       ++ (v ++ run_bytes r) ++ tail) out expanded
  = parse_loop W signed_char n (((i + 1) mod 2 ^ 32 + 1) mod 2 ^ 32) None
      tail
      (out ++ {| str := nm; owner := false; multiValued := false |}
           :: {| str := v; owner := false; multiValued := false |}
           :: run_pieces nm r)
      (expanded + run_expanded nm r).
Proof.
  intros Hi Hne Hchars Hnm Hval Hv Hr.
  rewrite map_toLowerAscii_wire by assumption.
  rewrite parse_name_slot by assumption.
  cbv zeta. rewrite Hchars.
  rewrite parse_value_slot by (try apply next_odd; assumption).
  cbv zeta. cbn [str].
  rewrite split_value_run by assumption.
  rewrite <- app_assoc. reflexivity.
Qed.

Lemma payload_app (a b : list Header) :
  payload W (a ++ b) = payload W a + payload W b.
Proof.
  unfold payload. induction a as [|h a IH]; simpl; [lia|].
  rewrite IH. lia.
Qed.

Lemma payload_nonneg (a : list Header) : 0 <= payload W a.
Proof.
  unfold payload. induction a as [|h a IH]; simpl; [lia|].
  pose proof (len_nonneg (name h)). pose proof (len_nonneg (value h)).
  lia.
Qed.

Lemma run_bytes_payload (r : list Header) :
  (1 <= W)%nat -> len (run_bytes r) <= payload W r.
Proof.
  intros HW. unfold payload.
  induction r as [|h r IH]; cbn [run_bytes flat_map fold_right app].
  - unfold len. simpl. lia.
  - fold (run_bytes r). rewrite len_cons, len_app.
    pose proof (len_nonneg (name h)). lia.
Qed.

Lemma fields_fit_run (c : Z) (n : list byte) (r rest : list Header) :
  Forall (fun h => same_key c n h = true) r ->
  fields_fit W c n (r ++ rest) -> fields_fit W c n rest.
Proof.
  induction 1 as [|h r Hh Hr IH]; [auto|].
  cbn [app fields_fit]. intros [_ Hf].
  apply same_key_eq in Hh as [Hc Hn]. rewrite Hc, Hn in Hf. auto.
Qed.

Lemma payload_fields_fit (hs : list Header) :
  forall c n,
    (1 <= W)%nat ->
    payload W hs < 256 ^ Z.of_nat W ->
    fields_fit W c n hs.
Proof.
  induction hs as [|h t IH]; intros c n HW Hp; [exact I|].
  cbn [payload fold_right] in Hp. fold (payload W t) in Hp.
  pose proof (payload_nonneg t).
  pose proof (len_nonneg (name h)). pose proof (len_nonneg (value h)).
  cbn [fields_fit]. split; [|apply IH; [assumption | lia]].
  intros _. split; [lia|].
  assert (Hrun : run_len (code h) (name h) t <= payload W t).
  { clear -HW. generalize (code h) (name h). intros c n.
    induction t as [|x t IH]; cbn [run_len]; [apply payload_nonneg|].
    cbn [payload fold_right]. fold (payload W t).
    pose proof (payload_nonneg t). pose proof (len_nonneg (name x)).
    pose proof (len_nonneg (value x)).
    destruct (same_key c n x); lia. }
  lia.
Qed.

Lemma parse_wire_fit_then (m : nat) :
  forall hs c n out expanded i k tail,
    (length hs <= m)%nat ->
    fresh c n hs ->
    Forall wire_header hs ->
    fields_fit W c n hs ->
    i mod 2 = 0 ->
    exists i',
      i' mod 2 = 0 /\
      parse_loop W signed_char (Z.to_nat (2 * unique_names c n hs) + k) i
        None (wire W c n hs ++ tail) out expanded
      = parse_loop W signed_char k i' None tail (out ++ pieces c n hs)
          (expanded + expandedBytes c n hs).
Proof.
  induction m as [|m IH];
    intros hs c n out expanded i k tail Hm Hf Hwf Hfit Hi.
  - destruct hs; [|simpl in Hm; lia]. exists i. simpl.
    rewrite app_nil_r, Z.add_0_r. auto.
  - destruct hs as [|h t].
    { exists i. simpl. rewrite app_nil_r, Z.add_0_r. auto. }
    pose proof (Hf h t eq_refl) as K.
    inversion Hwf as [|h' t' Hh Ht]; subst h' t'.
    destruct Hh as (Hne & Hchars & Hvne & Hvnul).
    destruct (take_run (code h) (name h) t) as [r rest] eqn:T.
    destruct (take_run_spec (code h) (name h) t r rest T)
      as (Ht' & Hr & Hfr).
    subst t.
    cbn [fields_fit] in Hfit. destruct Hfit as [Hh Hfit].
    destruct (Hh K) as [Hnm Hval].
    rewrite run_len_run in Hval by assumption.
    apply fields_fit_run in Hfit; [|exact Hr].
    cbn [wire unique_names pieces expandedBytes]. rewrite K.
    rewrite wire_run, run_len_run, unique_names_run, pieces_run,
      expandedBytes_run by assumption.
    pose proof (unique_names_nonneg rest (code h) (name h)) as Hu.
    replace (Z.to_nat (2 * (1 + unique_names (code h) (name h) rest)) + k)%nat
      with (S (S (Z.to_nat (2 * unique_names (code h) (name h) rest) + k)))
      by lia.
    rewrite <- len_app.
    rewrite (app_assoc (value h) (run_bytes r)).
    apply Forall_app in Ht as [Htr Htrest].
    rewrite <- !app_assoc.
    rewrite (app_assoc (value h) (run_bytes r)).
    rewrite parse_entry;
      [ | assumption | assumption | assumption | assumption
        | rewrite len_app; assumption | split; assumption
        | eapply Forall_impl; [|exact Htr];
          intros a (_ & _ & Ha1 & Ha2); split; assumption ].
    destruct (IH rest (code h) (name h)
                (out ++ {| str := name h; owner := false;
                           multiValued := false |}
                     :: {| str := value h; owner := false;
                           multiValued := false |}
                     :: run_pieces (name h) r)
                (expanded + run_expanded (name h) r)
                (((i + 1) mod 2 ^ 32 + 1) mod 2 ^ 32) k tail)
      as (i' & Hi' & E);
      [ simpl in Hm; rewrite length_app in Hm; lia | assumption
        | assumption | assumption | apply next_even; assumption | ].
    exists i'. split; [exact Hi'|]. rewrite E.
    cbn [app]. rewrite <- !app_assoc. cbn [app].
    f_equal. lia.
Qed.

Lemma parse_wire_then (m : nat) :
  forall hs c n out expanded i k tail,
    (length hs <= m)%nat ->
    fresh c n hs ->
    Forall wire_header hs ->
    (1 <= W)%nat ->
    payload W hs < 256 ^ Z.of_nat W ->
    i mod 2 = 0 ->
    exists i',
      i' mod 2 = 0 /\
      parse_loop W signed_char (Z.to_nat (2 * unique_names c n hs) + k) i
        None (wire W c n hs ++ tail) out expanded
      = parse_loop W signed_char k i' None tail (out ++ pieces c n hs)
          (expanded + expandedBytes c n hs).
Proof.
  intros hs c n out expanded i k tail Hm Hf Hwf HW Hp Hi.
  apply (parse_wire_fit_then m); try assumption.
  apply payload_fields_fit; assumption.
Qed.

Lemma parse_wire (m : nat) :
  forall hs c n out expanded i,
    (length hs <= m)%nat ->
    fresh c n hs ->
    Forall wire_header hs ->
    (1 <= W)%nat ->
    payload W hs < 256 ^ Z.of_nat W ->
    i mod 2 = 0 ->
    parse_loop W signed_char (Z.to_nat (2 * unique_names c n hs)) i None
      (wire W c n hs) out expanded
    = (out ++ pieces c n hs, ParseOk (expanded + expandedBytes c n hs)).
Proof.
  intros hs c n out expanded i Hm Hf Hwf HW Hp Hi.
  destruct (parse_wire_then m hs c n out expanded i 0 [] Hm Hf Hwf HW Hp Hi)
    as (i' & _ & E).
  rewrite Nat.add_0_r, app_nil_r in E. rewrite E. reflexivity.
Qed.

(** The parser on the image of a list of headers. *)
Lemma parseNameValues_wire (hs : list Header) (c : Z) (n : list byte) :
  fresh c n hs ->
  Forall wire_header hs ->
  (1 <= W <= 4)%nat ->
  size_estimate W hs < 256 ^ Z.of_nat W ->
  parseNameValues W signed_char
    (appendSize W (unique_names c n hs mod 2 ^ 32) ++ wire W c n hs) []
  = (pieces c n hs, ParseOk (expandedBytes c n hs)).
Proof.
  intros Hf Hwf HW Hsz. unfold parseNameValues.
  assert (Hpow : 256 ^ Z.of_nat W <= 2 ^ 32).
  { change (2 ^ 32) with (256 ^ Z.of_nat 4).
    apply Z.pow_le_mono_r; lia. }
  pose proof (unique_names_nonneg hs c n) as Hu0.
  pose proof (unique_names_le hs c n) as Hu1.
  assert (Hlen : 4 * len hs <= payload W hs).
  { clear -HW Hwf. unfold payload.
    induction Hwf as [|h t (Hne & _ & Hvne & _) Ht IH]; cbn [fold_right].
    - unfold len. simpl. lia.
    - rewrite len_cons. pose proof (len_pos _ Hne).
      pose proof (len_pos _ Hvne). lia. }
  unfold size_estimate in Hsz.
  rewrite (Z.mod_small (unique_names c n hs)) by lia.
  rewrite parseSize_appendSize by lia.
  rewrite Z.mod_small by lia.
  rewrite (Z.mul_comm (unique_names c n hs) 2).
  rewrite (parse_wire (length hs))
    by (try assumption; try reflexivity; lia).
  reflexivity.
Qed.

(** The parser on the entries of a list of headers whose length fields
    hold, followed by any bytes. *)
Lemma parseNameValues_wire_fit (hs : list Header) (c : Z) (n : list byte)
    (tail : list byte) :
  fresh c n hs ->
  Forall wire_header hs ->
  fields_fit W c n hs ->
  unique_names c n hs < 256 ^ Z.of_nat W ->
  2 * unique_names c n hs < 2 ^ 32 ->
  parseNameValues W signed_char
    (appendSize W (unique_names c n hs mod 2 ^ 32) ++ wire W c n hs ++ tail)
    []
  = (pieces c n hs, ParseOk (expandedBytes c n hs)).
Proof.
  intros Hf Hwf Hfit Hu H2u. unfold parseNameValues.
  pose proof (unique_names_nonneg hs c n) as Hu0.
  rewrite (Z.mod_small (unique_names c n hs)) by lia.
  rewrite parseSize_appendSize by lia.
  rewrite Z.mod_small by lia.
  rewrite (Z.mul_comm (unique_names c n hs) 2).
  destruct (parse_wire_fit_then (length hs) hs c n [] 0 0 0%nat tail
              (le_n _) Hf Hwf Hfit eq_refl) as (i & _ & E).
  rewrite Nat.add_0_r in E. rewrite E. reflexivity.
Qed.

End ParseWire.

(* ------------------------------------------------------------------ *)
(** ** The order on headers and the reference sorts *)

Ltac ltb_cases :=
  repeat match goal with
         | H : context [?x <? ?y] |- _ => destruct (Z.ltb_spec x y)
         | |- context [?x <? ?y] => destruct (Z.ltb_spec x y)
         end.

Lemma bytes_ltb_asym (a : list byte) :
  forall b, bytes_ltb a b = true -> bytes_ltb b a = false.
Proof.
  induction a as [|x a IH]; intros [|y b]; simpl; try congruence.
  ltb_cases; try congruence; try lia. apply IH.
Qed.

Lemma bytes_ltb_trans (a : list byte) :
  forall b c, bytes_ltb b a = false -> bytes_ltb c b = false ->
              bytes_ltb c a = false.
Proof.
  induction a as [|x a IH]; intros [|y b] [|z c]; simpl;
    try congruence; ltb_cases; try congruence; try lia.
  apply IH.
Qed.

Lemma Header_ltb_asym (a b : Header) :
  Header_ltb a b = true -> Header_ltb b a = false.
Proof.
  unfold Header_ltb. intros H.
  apply orb_true_iff in H as [H | H].
  - apply Z.ltb_lt in H. apply orb_false_iff. split.
    + apply Z.ltb_ge. lia.
    + apply andb_false_iff. left. apply Z.eqb_neq. lia.
  - apply andb_true_iff in H as [He Hl]. apply Z.eqb_eq in He.
    apply orb_false_iff. split.
    + apply Z.ltb_ge. lia.
    + apply andb_false_iff. right. apply bytes_ltb_asym. assumption.
Qed.

Lemma Header_ltb_trans (a b c : Header) :
  Header_ltb b a = false -> Header_ltb c b = false ->
  Header_ltb c a = false.
Proof.
  unfold Header_ltb. intros H1 H2.
  apply orb_false_iff in H1 as [H1 H1'], H2 as [H2 H2'].
  apply Z.ltb_ge in H1, H2.
  apply orb_false_iff. split; [apply Z.ltb_ge; lia|].
  destruct (Z.eqb_spec (code c) (code a)) as [E|]; [|reflexivity].
  assert (E1 : code b = code a) by lia.
  assert (E2 : code c = code b) by lia.
  rewrite E1, Z.eqb_refl in H1'. rewrite E2, Z.eqb_refl in H2'.
  simpl in *. eapply bytes_ltb_trans; eassumption.
Qed.

Lemma insert_before_perm (h : Header) (l : list Header) :
  Permutation (h :: l) (insert_before h l).
Proof.
  induction l as [|x t IH]; simpl; [reflexivity|].
  destruct (Header_ltb x h); [|reflexivity].
  rewrite perm_swap. constructor. exact IH.
Qed.

Lemma insert_after_perm (h : Header) (l : list Header) :
  Permutation (h :: l) (insert_after h l).
Proof.
  induction l as [|x t IH]; simpl; [reflexivity|].
  destruct (Header_ltb h x); [reflexivity|].
  rewrite perm_swap. constructor. exact IH.
Qed.

Lemma insert_before_sorted (h : Header) (l : list Header) :
  StronglySorted (fun a b => Header_ltb b a = false) l ->
  StronglySorted (fun a b => Header_ltb b a = false) (insert_before h l).
Proof.
  induction 1 as [|x t Ht IH Hx]; simpl.
  - repeat constructor.
  - destruct (Header_ltb x h) eqn:E.
    + constructor; [exact IH|].
      eapply Permutation_Forall; [apply insert_before_perm|].
      constructor; [apply Header_ltb_asym; exact E | exact Hx].
    + constructor; [constructor; assumption|].
      constructor; [exact E|].
      eapply Forall_impl; [|exact Hx].
      intros y Hy. eapply Header_ltb_trans; eassumption.
Qed.

Lemma insert_after_sorted (h : Header) (l : list Header) :
  StronglySorted (fun a b => Header_ltb b a = false) l ->
  StronglySorted (fun a b => Header_ltb b a = false) (insert_after h l).
Proof.
  induction 1 as [|x t Ht IH Hx]; simpl.
  - repeat constructor.
  - destruct (Header_ltb h x) eqn:E.
    + constructor; [constructor; assumption|].
      constructor; [apply Header_ltb_asym; exact E|].
      eapply Forall_impl; [|exact Hx].
      intros y Hy.
      eapply Header_ltb_trans; [apply Header_ltb_asym; exact E | exact Hy].
    + constructor; [exact IH|].
      eapply Permutation_Forall; [apply insert_after_perm|].
      constructor; [exact E | exact Hx].
Qed.

Lemma sort_keeping_post (l : list Header) : sort_post l (sort_keeping l).
Proof.
  unfold sort_post, sort_keeping. induction l as [|h t [IHp IHs]]; simpl.
  - split; constructor.
  - split.
    + etransitivity; [|apply insert_before_perm]. constructor. exact IHp.
    + apply insert_before_sorted. exact IHs.
Qed.

Lemma sort_reversing_post (l : list Header) : sort_post l (sort_reversing l).
Proof.
  unfold sort_post, sort_reversing. induction l as [|h t [IHp IHs]]; simpl.
  - split; constructor.
  - split.
    + etransitivity; [|apply insert_after_perm]. constructor. exact IHp.
    + apply insert_after_sorted. exact IHs.
Qed.

(* ------------------------------------------------------------------ *)
(** ** The encoder: size estimate, effect on the argument *)

Lemma sort_post_perm (sort : list Header -> list Header) :
  (forall l, sort_post l (sort l)) -> forall l, Permutation l (sort l).
Proof. intros H l. apply H. Qed.

Lemma x_a_x_b_equiv (k : Z) :
  Header_ltb (x_a k) (x_b k) = false /\ Header_ltb (x_b k) (x_a k) = false.
Proof.
  unfold Header_ltb, x_a, x_b, hdr. cbn [code name].
  rewrite Z.ltb_irrefl, Z.eqb_refl. split; reflexivity.
Qed.

Section EncodeFacts.

Context {zlib : Zlib}.
Variable HTTP_HEADER_OTHER : Z.
Variable sort : list Header -> list Header.

Lemma reserve_capacity (m : Z) (b : IOBuf) :
  data b = [] -> m <= capacity (reserve m b).
Proof.
  intros Hd. unfold reserve, tailroom. rewrite Hd.
  change (len (@nil byte)) with 0.
  destruct (Z.leb_spec m (capacity b - 0)); simpl; lia.
Qed.

Lemma getHeaderBuf_empty (c : GzipHeaderCodec) (tl : option IOBuf) :
  data (getHeaderBuf c tl) = [].
Proof.
  unfold getHeaderBuf, getStaticHeaderBufSpace.
  destruct tl as [b|]; [|reflexivity].
  destruct (maxUncompressed_ c >? capacity b); reflexivity.
Qed.

(** C7. The size estimate of [encode] is an upper bound.  For every
    header list, the image the canonicalizer writes for the sorted
    list is at most [W] plus the sum over the input pairs of
    [W + |name| + W + |value|] long; this is the amount [encode]
    reserves, so the image fits the scratch buffer.  The serialization
    fails to produce an image only through the store at a null length
    pointer, when the first sorted header has the code of other names
    and an empty name, never for its size. *)
Theorem encode_estimate_is_upper_bound
    (c : GzipHeaderCodec) (tl : option IOBuf) (hs : list Header) :
  (forall l, Permutation l (sort l)) ->
  (1 <= nameValueSize (versionSettings_ c))%nat ->
  let W := nameValueSize (versionSettings_ c) in
  let scratch :=
    reserve (maxUncompressedSize W (sort hs)) (getHeaderBuf c tl) in
  match serialize W HTTP_HEADER_OTHER (sort hs) with
  | Some image =>
      len image <= size_estimate W hs
      /\ maxUncompressedSize W (sort hs) = size_estimate W hs
      /\ (capacity scratch <? len image) = false
  | None =>
      exists h t, sort hs = h :: t
                  /\ code h = HTTP_HEADER_OTHER /\ name h = []
  end.
Proof.
  intros Hperm HW W scratch.
  destruct (serialize W HTTP_HEADER_OTHER (sort hs)) as [image|] eqn:E.
  - pose proof (serialize_bound W HTTP_HEADER_OTHER _ _ HW E) as Hb.
    rewrite <- (size_estimate_perm W hs (sort hs) (Hperm hs)) in Hb.
    assert (Hm : maxUncompressedSize W (sort hs) = size_estimate W hs).
    { rewrite maxUncompressedSize_estimate.
      symmetry. apply size_estimate_perm, Hperm. }
    repeat split; [exact Hb | exact Hm |].
    apply Z.ltb_ge. subst scratch.
    pose proof (reserve_capacity (maxUncompressedSize W (sort hs))
                  (getHeaderBuf c tl) (getHeaderBuf_empty c tl)).
    lia.
  - apply serialize_none in E. exact E.
Qed.

(** C9. [encode] changes the vector it is given: after the call the
    caller's list holds the same headers, rearranged by [std::sort]
    into an order in which no header is smaller, by (classification
    code, name), than one before it.  The sort is not stable: for two
    entries with equal code and name both orders meet its
    postcondition. *)
Theorem encode_sorts_argument_in_place
    (c : GzipHeaderCodec) (tl : option IOBuf) (hs : list Header) :
  (forall l, sort_post l (sort l)) ->
  fst (encode HTTP_HEADER_OTHER sort c tl hs) = sort hs
  /\ Permutation hs (fst (encode HTTP_HEADER_OTHER sort c tl hs))
  /\ StronglySorted (fun a b => Header_ltb b a = false)
       (fst (encode HTTP_HEADER_OTHER sort c tl hs))
  /\ (forall k, sort_post [x_a k; x_b k] [x_a k; x_b k]
                /\ sort_post [x_a k; x_b k] [x_b k; x_a k]).
Proof.
  intros Hsort. unfold encode. cbn [fst].
  destruct (Hsort hs) as [Hp Hs].
  split; [reflexivity|]. split; [exact Hp|]. split; [exact Hs|].
  intros k. destruct (x_a_x_b_equiv k) as [Hab Hba].
  split; split.
  - reflexivity.
  - repeat constructor. exact Hba.
  - apply perm_swap.
  - repeat constructor. exact Hab.
Qed.

End EncodeFacts.

Lemma encode_estimate_is_upper_bound_witness :
  (forall l, Permutation l (sort_keeping l))
  /\ (1 <= nameValueSize spdy3)%nat
  /\ match serialize 4 1 (sort_keeping [x_a 1; x_b 1]) with
     | Some image =>
         len image <= size_estimate 4 [x_a 1; x_b 1]
         /\ maxUncompressedSize 4 (sort_keeping [x_a 1; x_b 1])
            = size_estimate 4 [x_a 1; x_b 1]
         /\ (capacity
               (reserve (maxUncompressedSize 4 (sort_keeping [x_a 1; x_b 1]))
                  (getHeaderBuf (stored_codec spdy3 1000 None) None))
             <? len image) = false
     | None =>
         exists h t, sort_keeping [x_a 1; x_b 1] = h :: t
                     /\ code h = 1 /\ name h = []
     end.
Proof.
  split; [apply sort_post_perm, sort_keeping_post|].
  split; [simpl; lia|].
  apply (@encode_estimate_is_upper_bound stored_zlib 1 sort_keeping
           (stored_codec spdy3 1000 None) None [x_a 1; x_b 1]).
  - apply sort_post_perm, sort_keeping_post.
  - simpl. lia.
Defined.

Lemma encode_sorts_argument_in_place_witness :
  (forall l, sort_post l (sort_reversing l))
  /\ fst (@encode stored_zlib 1 sort_reversing
            (stored_codec spdy3 1000 None) None [x_a 1; x_b 1])
     = [x_b 1; x_a 1].
Proof.
  split; [apply sort_reversing_post|].
  destruct (@encode_sorts_argument_in_place stored_zlib 1 sort_reversing
              (stored_codec spdy3 1000 None) None [x_a 1; x_b 1]
              sort_reversing_post) as (H & _).
  rewrite H. reflexivity.
Defined.

(* ------------------------------------------------------------------ *)
(** ** The zlib context cache *)

Section ContextFacts.

Context {zlib : Zlib}.

(** C6, as the code has it.  The first call of [getZlibContext] for a
    key (version, level) builds the deflate stream of the template with
    [deflateInit2] at window bits 8 when the level is no-compression and
    11 otherwise, memory level 1 and the default strategy, and stores the
    template under the key.  The preload dictionary of the version is
    installed on that stream when the level is not no-compression; at
    level no-compression the stream is left without it. *)
Theorem first_obtain_builds_template
    (cache cache' : ZlibContextMap) (vs : SPDYVersionSettings) (level : Z)
    (ctx : ZlibContext) :
  find_context (version vs, level) cache = None ->
  getZlibContext cache vs level = Some (ctx, cache') ->
  let windowBits := if level =? Z_NO_COMPRESSION then 8 else 11 in
  let fresh_stream :=
    snd (deflateInit2 level Z_DEFLATED windowBits 1 Z_DEFAULT_STRATEGY) in
  deflater ctx
  = (if level =? Z_NO_COMPRESSION then fresh_stream
     else snd (deflateSetDictionary fresh_stream (dict vs)))
  /\ cache' = ((version vs, level), ctx) :: cache.
Proof.
  intros Hmiss. unfold getZlibContext. rewrite Hmiss.
  destruct (deflateInit2 level Z_DEFLATED
              (if level =? Z_NO_COMPRESSION then 8 else 11) 1
              Z_DEFAULT_STRATEGY) as [r d] eqn:Ed.
  destruct (negb (r =? Z_OK)); [discriminate|].
  cbn [snd].
  destruct (level =? Z_NO_COMPRESSION); cbn [negb].
  - destruct (negb (r =? Z_OK)); [discriminate|].
    destruct inflateInit as [r2 i].
    destruct (negb (r2 =? Z_OK)); [discriminate|].
    intros E. apply Some_inj in E. inversion E. split; reflexivity.
  - destruct (deflateSetDictionary d (dict vs)) as [r1 d1].
    destruct (negb (r1 =? Z_OK)); [discriminate|].
    destruct inflateInit as [r2 i].
    destruct (negb (r2 =? Z_OK)); [discriminate|].
    intros E. apply Some_inj in E. inversion E. split; reflexivity.
Qed.

End ContextFacts.

Lemma first_obtain_builds_template_witness :
  exists ctx cache',
    @find_context stored_zlib (version spdy3, 9) [] = None
    /\ @getZlibContext stored_zlib [] spdy3 9 = Some (ctx, cache')
    /\ ss_params (deflater ctx) = [9; 8; 11; 1; 0]
    /\ ss_dict (deflater ctx) = Some (dict spdy3).
Proof.
  eexists. eexists.
  split; [reflexivity|]. split; [reflexivity|].
  destruct (@first_obtain_builds_template stored_zlib [] _ spdy3 9 _
              eq_refl eq_refl) as [H _].
  rewrite H. split; reflexivity.
Defined.

(** At level no-compression the template's deflate stream carries no
    dictionary. *)
Lemma no_dictionary_without_compression :
  exists ctx cache',
    @getZlibContext stored_zlib [] spdy3 Z_NO_COMPRESSION = Some (ctx, cache')
    /\ ss_params (deflater ctx) = [0; 8; 8; 1; 0]
    /\ ss_dict (deflater ctx) = None
    /\ deflater ctx
       <> snd (@deflateSetDictionary stored_zlib
                 (snd (@deflateInit2 stored_zlib Z_NO_COMPRESSION Z_DEFLATED
                                     8 1 Z_DEFAULT_STRATEGY))
                 (dict spdy3)).
Proof.
  eexists. eexists. split; [reflexivity|].
  repeat split. discriminate.
Qed.

(* ------------------------------------------------------------------ *)
(** ** Merge and split *)

Lemma x_a_fresh (other k : Z) : same_key other [] (x_a k) = false.
Proof. unfold same_key, x_a, hdr. cbn [name]. apply andb_false_r. Qed.

Lemma x_b_repeats (k : Z) : same_key k (name (x_a k)) (x_b k) = true.
Proof.
  unfold same_key, x_a, x_b, hdr. cbn [name code].
  rewrite Z.eqb_refl. reflexivity.
Qed.

(** C2, as the code has it.  When the sort leaves ("x", "a") in front of
    ("x", "b"), the two pairs are serialized as one wire entry with name
    "x" and value "a\0b", and the parser turns that entry into the four
    pieces "x", "a", "x", "b": the pieces of the first pair are not
    flagged multi-valued, the pieces of the second pair are. *)
Theorem merge_and_split
    (dictOf : SPDYVersion -> list byte) (v : SPDYVersion)
    (signed_char : bool) (other k : Z)
    (sort : list Header -> list Header) :
  sort [x_a k; x_b k] = [x_a k; x_b k] ->
  let W := nameValueSize (getVersionSettings dictOf v) in
  let image := appendSize W 1
                 ++ appendSize W 1 ++ bytes_of [120]
                 ++ appendSize W 3 ++ bytes_of [97; 0; 98] in
  serialize W other (sort [x_a k; x_b k]) = Some image
  /\ parseNameValues W signed_char image []
     = ([ {| str := bytes_of [120]; owner := false; multiValued := false |};
          {| str := bytes_of [97]; owner := false; multiValued := false |};
          {| str := bytes_of [120]; owner := false; multiValued := true |};
          {| str := bytes_of [98]; owner := false; multiValued := true |} ],
        ParseOk 2).
Proof.
  intros Hsort W image. rewrite Hsort.
  assert (Hfresh : fresh other [] [x_a k; x_b k]).
  { intros h t E. inversion E. apply x_a_fresh. }
  assert (Himage : appendSize W (unique_names other [] [x_a k; x_b k]
                                   mod 2 ^ 32)
                     ++ wire W other [] [x_a k; x_b k] = image).
  { cbn [unique_names wire run_len].
    rewrite x_a_fresh, x_b_repeats. reflexivity. }
  split.
  - rewrite serialize_wire by exact Hfresh. rewrite Himage. reflexivity.
  - rewrite <- Himage.
    rewrite parseNameValues_wire.
    + cbn [pieces expandedBytes]. rewrite x_a_fresh, x_b_repeats.
      reflexivity.
    + exact Hfresh.
    + repeat constructor; discriminate.
    + subst W. destruct v; simpl; lia.
    + subst W. destruct v; reflexivity.
Qed.

Lemma merge_and_split_witness :
  sort_keeping [x_a 1; x_b 1] = [x_a 1; x_b 1]
  /\ serialize 4 1 (sort_keeping [x_a 1; x_b 1])
     = Some (bytes_of [0; 0; 0; 1; 0; 0; 0; 1; 120; 0; 0; 0; 3; 97; 0; 98])
  /\ fst (parseNameValues 4 true
            (bytes_of [0; 0; 0; 1; 0; 0; 0; 1; 120; 0; 0; 0; 3; 97; 0; 98]) [])
     = [ {| str := bytes_of [120]; owner := false; multiValued := false |};
         {| str := bytes_of [97]; owner := false; multiValued := false |};
         {| str := bytes_of [120]; owner := false; multiValued := true |};
         {| str := bytes_of [98]; owner := false; multiValued := true |} ].
Proof.
  split; [reflexivity|].
  destruct (@merge_and_split (fun _ => []) SPDY3 true 1 1 sort_keeping
              eq_refl) as [Hs Hp].
  split; [exact Hs|]. cbv zeta in Hp.
  change (appendSize (nameValueSize (getVersionSettings (fun _ => []) SPDY3)) 1
            ++ appendSize (nameValueSize (getVersionSettings (fun _ => []) SPDY3)) 1
            ++ bytes_of [120]
            ++ appendSize (nameValueSize (getVersionSettings (fun _ => []) SPDY3)) 3
            ++ bytes_of [97; 0; 98])
    with (bytes_of [0; 0; 0; 1; 0; 0; 0; 1; 120; 0; 0; 0; 3; 97; 0; 98]) in Hp.
  change (nameValueSize (getVersionSettings (fun _ => []) SPDY3))
    with 4%nat in Hp.
  rewrite Hp. reflexivity.
Defined.

(** The spec has both decoded pairs flagged multi-valued; the pieces of
    the first pair come out without the flag. *)
Lemma merge_split_first_pair_unflagged :
  sort_keeping [x_a 1; x_b 1] = [x_a 1; x_b 1]
  /\ serialize 4 1 (sort_keeping [x_a 1; x_b 1])
     = Some (bytes_of [0; 0; 0; 1; 0; 0; 0; 1; 120; 0; 0; 0; 3; 97; 0; 98])
  /\ ~ Forall (fun p => multiValued p = true)
         (fst (parseNameValues 4 true
                 (bytes_of [0; 0; 0; 1; 0; 0; 0; 1; 120; 0; 0; 0; 3;
                            97; 0; 98]) [])).
Proof.
  split; [reflexivity|]. split; [reflexivity|].
  intros H. vm_compute in H. inversion H as [|p l Hp _]. discriminate.
Qed.

(* ------------------------------------------------------------------ *)
(** ** decode after the decompression loops *)

Section DecodeFacts.

Context {zlib : Zlib}.
Variable signed_char : bool.

Lemma inflate_chunks_done (fuel : nat) (c : GzipHeaderCodec)
    (cursor : Cursor) (length consumed : Z) (st : InflState) :
  (length >? 0) = false ->
  inflate_chunks fuel c cursor length consumed st
  = Some (Ok {| in_state := st; in_consumed := consumed;
                in_cursor := cursor |}).
Proof. intros H. destruct fuel; simpl; rewrite H; reflexivity. Qed.

Lemma inflates_to_positive (fuel : nat) (c : GzipHeaderCodec)
    (tl : option IOBuf) (cursor : Cursor) (length : Z)
    (image : list byte) (r : Inflated) :
  inflates_to fuel c tl cursor length image r ->
  image <> [] -> (length =? 0) = false.
Proof.
  intros [Hi Hd] Hne. apply Z.eqb_neq. intros ->.
  rewrite inflate_chunks_done in Hi by reflexivity.
  apply Some_inj in Hi. inversion Hi as [Hr]. subst r.
  cbn [in_state inflate_start i_buf] in Hd.
  rewrite getHeaderBuf_empty in Hd. congruence.
Qed.

Lemma decode_inflated (fuel : nat) (c : GzipHeaderCodec)
    (tl : option IOBuf) (cursor : Cursor) (length : Z) (r : Inflated) :
  (length =? 0) = false ->
  inflate_chunks fuel c cursor length 0 (inflate_start c tl) = Some (Ok r) ->
  decode signed_char fuel c tl cursor length
  = Some (decoded signed_char c r).
Proof.
  intros Hl Hi. unfold decode, decoded. rewrite Hl, Hi.
  destruct (parseNameValues (nameValueSize (versionSettings_ c)) signed_char
              (data (i_buf (in_state r))) []) as [out parsed].
  cbn [fst snd].
  destruct parsed as [n|e|]; try reflexivity.
  destruct (n >? kMaxExpandedHeaderLineBytes); reflexivity.
Qed.

End DecodeFacts.

(* ------------------------------------------------------------------ *)
(** ** Pairs and pieces *)

Lemma pairs_of_pieces (hs : list Header) :
  forall c n, pairs_of (pieces c n hs) = header_pairs hs.
Proof.
  induction hs as [|h t IH]; intros c n; [reflexivity|].
  cbn [pieces pairs_of header_pairs map str]. f_equal. apply IH.
Qed.

Lemma wire_header_fresh (other : Z) (hs : list Header) :
  Forall wire_header hs -> fresh other [] hs.
Proof.
  intros Hwf h t ->. inversion Hwf as [|h' t' (Hne & _) _]; subst.
  unfold same_key. destruct (name h) as [|b n]; [congruence|].
  apply andb_false_r.
Qed.

(* ------------------------------------------------------------------ *)
(** ** The loop bound of the parser *)

Section LoopBound.

Context {zlib : Zlib}.
Variable signed_char : bool.

(** C10. The parser runs its loop [numNV * 2] times, a product of 32-bit
    unsigned integers.  With the 4-byte width a block that declares
    2^31 names makes the product wrap to zero, so when the decompressed
    block is that count alone [decode] succeeds and returns no piece. *)
Theorem count_times_two_wraps
    (fuel : nat) (c : GzipHeaderCodec) (tl : option IOBuf)
    (cursor : Cursor) (length : Z) (r : Inflated) :
  nameValueSize (versionSettings_ c) = 4%nat ->
  inflates_to fuel c tl cursor length (appendSize 4 (2 ^ 31)) r ->
  (forall W N rest,
      parseNameValues W signed_char (appendSize W N ++ rest) []
      = parse_loop W signed_char
          (Z.to_nat (((N mod 256 ^ Z.of_nat W) * 2) mod 2 ^ 32))
          0 None rest [] 0)
  /\ exists out,
       decode signed_char fuel c tl cursor length = Some out
       /\ do_result out
          = Ok {| headers := []; bytesConsumed := in_consumed r |}.
Proof.
  intros HW Hinf. split.
  - intros W N rest. unfold parseNameValues.
    rewrite parseSize_appendSize_mod. reflexivity.
  - pose proof (inflates_to_positive fuel c tl cursor length _ r Hinf)
      as Hl.
    destruct Hinf as [Hi Hd].
    exists (decoded signed_char c r).
    split; [apply decode_inflated; [apply Hl; discriminate | exact Hi]|].
    unfold decoded. cbn [do_result]. rewrite HW, Hd. reflexivity.
Qed.

End LoopBound.

Lemma count_times_two_wraps_witness :
  exists r,
    nameValueSize (versionSettings_ codec3) = 4%nat
    /\ inflates_to 10 codec3 None [bytes_of [128; 0; 0; 0]] 4
         (appendSize 4 (2 ^ 31)) r
    /\ exists out,
         decode true 10 codec3 None [bytes_of [128; 0; 0; 0]] 4 = Some out
         /\ do_result out
            = Ok {| headers := []; bytesConsumed := in_consumed r |}.
Proof.
  match eval vm_compute in
        (inflate_chunks 10 codec3 [bytes_of [128; 0; 0; 0]] 4 0
           (inflate_start codec3 None)) with
  | Some (Ok ?r) => exists r
  end.
  split; [reflexivity|]. split; [split; reflexivity|].
  match goal with
  | |- exists out, _ /\ do_result out
         = Ok {| headers := _; bytesConsumed := in_consumed ?r |} =>
      assert (Hinf : inflates_to 10 codec3 None [bytes_of [128; 0; 0; 0]] 4
                       (appendSize 4 (2 ^ 31)) r) by (split; reflexivity);
      exact (proj2 (@count_times_two_wraps stored_zlib true 10 codec3 None
                      _ 4 r eq_refl Hinf))
  end.
Defined.

(* ------------------------------------------------------------------ *)
(** ** Empty value segments *)

Lemma is_nul_eq (c : byte) : is_nul c = true -> c = Byte.x00.
Proof.
  unfold is_nul. intros H. apply Z.eqb_eq in H.
  apply byte_val_inj. rewrite H. reflexivity.
Qed.

Lemma split_nul_spec (v : list byte) :
  v = fst (split_nul v) ++ nul_joined (snd (split_nul v))
  /\ existsb is_nul (fst (split_nul v)) = false
  /\ Forall (fun s => existsb is_nul s = false) (snd (split_nul v))
  /\ (existsb is_nul v = true -> snd (split_nul v) <> []).
Proof.
  induction v as [|c v (IHv & IHc & IHs & IHn)]; cbn [split_nul].
  - repeat split; try reflexivity; [constructor | discriminate].
  - destruct (split_nul v) as [cur vs]. cbn [fst snd] in *.
    destruct (is_nul c) eqn:Ec; cbn [fst snd].
    + apply is_nul_eq in Ec. subst c.
      repeat split; try reflexivity.
      * cbn [nul_joined flat_map app]. fold (nul_joined vs). congruence.
      * constructor; assumption.
      * discriminate.
    + repeat split.
      * cbn [app]. congruence.
      * cbn [existsb]. rewrite Ec. exact IHc.
      * exact IHs.
      * cbn [existsb]. rewrite Ec. exact IHn.
Qed.

Lemma scan_all_empty_segment (nm : list byte) (hv : nat)
    (vs : list (list byte)) :
  forall s a cur out expanded,
    s = a ++ cur ++ nul_joined vs ->
    existsb is_nul cur = false ->
    Forall (fun x => existsb is_nul x = false) vs ->
    In [] (cur :: vs) ->
    scan_all s nm hv (cur ++ nul_joined vs)
      {| sc_first := false; sc_valueStart := length a; sc_pos := length a;
         sc_out := out; sc_expanded := expanded |}
    = EmptyValue (out ++ seg_pieces nm (before_empty (cur :: vs))).
Proof.
  induction vs as [|v vs IH];
    intros s a cur out expanded Hs Hcur Hvs Hin.
  - destruct Hin as [-> | []].
    unfold scan_all. cbn [nul_joined flat_map app scan_value].
    unfold scan_finish. cbn [sc_first sc_pos sc_valueStart sc_out negb].
    rewrite Nat.sub_diag. cbn [Nat.eqb before_empty is_empty seg_pieces
                                flat_map].
    rewrite app_nil_r. reflexivity.
  - inversion Hvs as [|v' vs' Hv Hvs']; subst v' vs'.
    unfold scan_all. cbn [nul_joined flat_map]. fold (nul_joined vs).
    rewrite scan_value_plain by assumption.
    cbn [scan_value app sc_first sc_valueStart sc_pos sc_out sc_expanded].
    rewrite is_nul_x00.
    replace (length a + length cur - length a)%nat with (length cur) by lia.
    destruct cur as [|b cur].
    { cbn [length Nat.eqb before_empty is_empty seg_pieces flat_map].
      rewrite app_nil_r. reflexivity. }
    cbn [length Nat.eqb].
    assert (Hin' : In [] (v :: vs)).
    { destruct Hin as [E | Hin]; [discriminate | exact Hin]. }
    assert (Hs' : s = (a ++ (b :: cur) ++ [Byte.x00]) ++ v ++ nul_joined vs).
    { rewrite Hs, <- !app_assoc. reflexivity. }
    assert (Hl : S (length a + S (length cur))
                 = length (a ++ (b :: cur) ++ [Byte.x00])).
    { rewrite !length_app. simpl. lia. }
    assert (Hseg : slice s (length a) (S (length cur)) = b :: cur).
    { unfold slice. rewrite Hs, skipn_app_exact by reflexivity.
      apply firstn_app_exact. reflexivity. }
    rewrite Hseg, Hl.
    pose proof (IH s _ v
                  (out ++ [ {| str := nm; owner := false;
                               multiValued := true |};
                            {| str := b :: cur; owner := false;
                               multiValued := true |} ])
                  (expanded + (len (b :: cur) + len nm))
                  Hs' Hv Hvs' Hin') as E.
    unfold scan_all in E. rewrite E.
    cbn [before_empty is_empty]. fold (before_empty (v :: vs)).
    unfold seg_pieces. cbn [flat_map]. rewrite <- app_assoc. reflexivity.
Qed.

Lemma has_empty_segment_In (v : list byte) :
  has_empty_segment v = true -> In [] (segments v).
Proof.
  unfold has_empty_segment. intros H.
  apply existsb_exists in H as (s & Hin & Hs).
  destruct s; [exact Hin | discriminate].
Qed.

Lemma split_value_empty_segment (nm : list byte) (out0 : list HeaderPiece)
    (v : list byte) (expanded : Z) :
  existsb is_nul v = true ->
  has_empty_segment v = true ->
  split_value nm
    (out0 ++ [ {| str := v; owner := false; multiValued := false |} ])
    expanded
  = EmptyValue (cut_pieces nm out0 v).
Proof.
  intros Hnul Hempty. unfold split_value, cut_pieces.
  rewrite last_last, length_app. cbn [length str].
  replace (length out0 + 1 - 1)%nat with (length out0) by lia.
  destruct (split_nul_spec v) as (Hv & Hc & Hs & Hn).
  apply has_empty_segment_In in Hempty. unfold segments in Hempty.
  specialize (Hn Hnul).
  destruct (split_nul v) as [cur vs]. cbn [fst snd] in *.
  destruct vs as [|v1 vs]; [congruence|].
  inversion Hs as [|v1' vs' Hv1 Hvs]; subst v1' vs'.
  unfold scan_all.
  rewrite Hv at 2. cbn [nul_joined flat_map]. fold (nul_joined vs).
  rewrite scan_value_plain by assumption.
  cbn [scan_value app sc_first sc_valueStart sc_pos sc_out sc_expanded].
  rewrite is_nul_x00. cbn [Nat.add]. rewrite Nat.sub_0_r.
  destruct cur as [|b cur]; [reflexivity|].
  cbn [length Nat.eqb is_empty].
  assert (Hin' : In [] (v1 :: vs)).
  { destruct Hempty as [E | Hin]; [discriminate | exact Hin]. }
  assert (Hseg : slice v 0 (S (length cur)) = b :: cur).
  { unfold slice. cbn [skipn]. rewrite Hv.
    apply firstn_app_exact. reflexivity. }
  rewrite Hseg, reset_str_last. cbn [owner multiValued].
  pose proof (scan_all_empty_segment nm (length out0) vs v
                ((b :: cur) ++ [Byte.x00]) v1
                (out0 ++ [ {| str := b :: cur; owner := false;
                              multiValued := false |} ])
                expanded) as E.
  unfold scan_all in E.
  replace (S (S (length cur))) with (length ((b :: cur) ++ [Byte.x00]))
    by (rewrite length_app; simpl; lia).
  rewrite E; [| | assumption | assumption | assumption].
  - rewrite <- app_assoc. reflexivity.
  - rewrite Hv at 1. rewrite <- !app_assoc. reflexivity.
Qed.

Lemma split_value_empty_value (nm : list byte) (out0 : list HeaderPiece)
    (expanded : Z) :
  split_value nm
    (out0 ++ [ {| str := []; owner := false; multiValued := false |} ])
    expanded
  = Scanned (out0 ++ [ {| str := []; owner := false;
                          multiValued := false |} ],
             expanded).
Proof.
  unfold split_value. rewrite last_last. reflexivity.
Qed.


Section Validation.

Context {zlib : Zlib}.
Variable HTTP_HEADER_OTHER : Z.
Variable signed_char : bool.


Lemma appendSize_app_nonempty (W : nat) (N : Z) (rest : list byte) :
  (1 <= W)%nat -> appendSize W N ++ rest <> [].
Proof.
  intros HW E. apply (f_equal (@List.length byte)) in E.
  rewrite length_app, length_appendSize in E. simpl in E. lia.
Qed.



End Validation.





(** The bytes the spec lists as invalid in a name, and the values it
    lists as having an empty segment. *)
Lemma invalid_name_bytes (signed_char : bool) :
  Forall (fun k => bad_name_char signed_char (byte_of_Z k) = true)
         [0; 31; 127; 128; 65].
Proof. destruct signed_char; repeat constructor. Qed.

Lemma empty_segment_values :
  Forall (fun v => existsb is_nul (bytes_of v) = true
                   /\ has_empty_segment (bytes_of v) = true)
         [[0]; [97; 0]; [0; 97]; [97; 0; 0; 98]].
Proof. repeat constructor. Qed.

(* ------------------------------------------------------------------ *)
(** ** The value scan on any value *)

Lemma nul_joined_run_bytes (vs : list (list byte)) :
  run_bytes (map value_header vs) = nul_joined vs.
Proof.
  unfold run_bytes, nul_joined.
  induction vs as [|v vs IH]; simpl; [reflexivity|].
  rewrite IH. reflexivity.
Qed.

Lemma run_pieces_seg (nm : list byte) (vs : list (list byte)) :
  run_pieces nm (map value_header vs) = seg_pieces nm vs.
Proof.
  unfold run_pieces, seg_pieces.
  induction vs as [|v vs IH]; simpl; [reflexivity|].
  rewrite IH. reflexivity.
Qed.

Lemma run_expanded_seg (nm : list byte) (vs : list (list byte)) :
  run_expanded nm (map value_header vs) = seg_expanded nm vs.
Proof.
  unfold run_expanded, seg_expanded.
  induction vs as [|v vs IH]; simpl; [reflexivity|].
  rewrite IH. reflexivity.
Qed.

Lemma split_nul_plain (s : list byte) :
  existsb is_nul s = false -> split_nul s = (s, []).
Proof.
  induction s as [|c s IH]; simpl; [reflexivity|].
  intros H. apply orb_false_iff in H as [Hc Hs].
  rewrite (IH Hs), Hc. reflexivity.
Qed.

Lemma existsb_nul_joined (cur v : list byte) (vs : list (list byte)) :
  existsb is_nul (cur ++ nul_joined (v :: vs)) = true.
Proof.
  rewrite existsb_app. cbn [nul_joined flat_map app existsb].
  rewrite is_nul_x00. cbn [orb]. apply orb_true_r.
Qed.

Lemma is_empty_false (s : list byte) : is_empty s = false -> s <> [].
Proof. destruct s; [discriminate | discriminate]. Qed.

Lemma segments_nonempty (cur : list byte) (vs : list (list byte)) :
  existsb is_empty (cur :: vs) = false ->
  cur <> [] /\ Forall (fun v => v <> []) vs.
Proof.
  cbn [existsb]. intros H. apply orb_false_iff in H as [Hc Hvs].
  split; [apply is_empty_false; exact Hc|].
  induction vs as [|v vs IH]; [constructor|].
  cbn [existsb] in Hvs. apply orb_false_iff in Hvs as [Hv Hvs].
  constructor; [apply is_empty_false; exact Hv | apply IH; exact Hvs].
Qed.

Lemma split_value_plain (nm : list byte) (out0 : list HeaderPiece)
    (s : list byte) (expanded : Z) :
  existsb is_nul s = false ->
  split_value nm
    (out0 ++ [ {| str := s; owner := false; multiValued := false |} ])
    expanded
  = Scanned (out0 ++ [ {| str := s; owner := false;
                          multiValued := false |} ],
             expanded).
Proof.
  intros Hs. destruct s as [|b s]; [apply split_value_empty_value|].
  assert (Hne : b :: s <> []) by discriminate.
  pose proof (split_value_run nm out0 (b :: s) [] expanded
                (conj Hne Hs) (Forall_nil _))
    as E.
  cbn [run_bytes flat_map run_pieces run_expanded fold_right] in E.
  rewrite app_nil_r, Z.add_0_r in E. exact E.
Qed.

(** The value branch on any value: what comes of the scan is read off
    the segments of the value. *)
Lemma split_value_spec (nm : list byte) (out0 : list HeaderPiece)
    (s : list byte) (expanded : Z) :
  split_value nm
    (out0 ++ [ {| str := s; owner := false; multiValued := false |} ])
    expanded
  = if existsb is_nul s && has_empty_segment s
    then EmptyValue (cut_pieces nm out0 s)
    else Scanned (out0
                    ++ {| str := fst (split_nul s); owner := false;
                          multiValued := false |}
                    :: seg_pieces nm (snd (split_nul s)),
                  expanded + seg_expanded nm (snd (split_nul s))).
Proof.
  destruct (existsb is_nul s) eqn:En; cbn [andb].
  - destruct (has_empty_segment s) eqn:He.
    + apply split_value_empty_segment; assumption.
    + destruct (split_nul_spec s) as (Hv & Hc & Hs & _).
      unfold has_empty_segment, segments in He.
      destruct (split_nul s) as [cur vs]. cbn [fst snd] in *.
      apply segments_nonempty in He as [Hcur Hne].
      subst s.
      rewrite <- nul_joined_run_bytes, <- run_pieces_seg, <- run_expanded_seg.
      apply split_value_run; [split; assumption|].
      apply Forall_map. clear En.
      induction vs as [|v vs IH]; [constructor|].
      inversion Hs; subst. inversion Hne; subst.
      constructor; [split; assumption | apply IH; assumption].
  - rewrite (split_nul_plain s En). cbn [fst snd seg_pieces seg_expanded
                                         flat_map fold_right].
    rewrite Z.add_0_r. apply split_value_plain. exact En.
Qed.

(** X6.  The value branch of the parser on any value string: the call
    fails exactly when the value holds a NUL and one of its NUL-separated
    segments is empty; otherwise the value piece is cut down to the first
    segment, every later segment is appended as a flagged (name, segment)
    pair, and the expanded count grows by the bytes of those pairs.  The
    segments joined by NUL are the value, and none holds a NUL.  When
    the call fails, [outHeaders_] is left as the scan had it: unchanged
    if the first segment is the empty one, and otherwise with the value
    piece cut down to the first segment and the segments before the
    empty one appended. *)
Theorem split_value_by_segments (nm : list byte) (out0 : list HeaderPiece)
    (s : list byte) (expanded : Z) :
  s = fst (split_nul s) ++ nul_joined (snd (split_nul s))
  /\ Forall (fun x => existsb is_nul x = false) (segments s)
  /\ split_value nm
       (out0 ++ [ {| str := s; owner := false; multiValued := false |} ])
       expanded
     = if existsb is_nul s && has_empty_segment s
       then EmptyValue (cut_pieces nm out0 s)
       else Scanned (out0
                       ++ {| str := fst (split_nul s); owner := false;
                             multiValued := false |}
                       :: seg_pieces nm (snd (split_nul s)),
                     expanded + seg_expanded nm (snd (split_nul s))).
Proof.
  destruct (split_nul_spec s) as (Hv & Hc & Hs & _).
  split; [exact Hv|]. split.
  - unfold segments. constructor; assumption.
  - apply split_value_spec.
Qed.

(* ------------------------------------------------------------------ *)
(** ** What the parser returns *)

Lemma be_value_fold_nonneg (bs : list byte) :
  forall acc, 0 <= acc ->
    0 <= fold_left (fun a b => a * 256 + byte_val b) bs acc.
Proof.
  induction bs as [|b bs IH]; intros acc Hacc; simpl; [exact Hacc|].
  apply IH. pose proof (byte_val_range b). lia.
Qed.

Lemma be_value_nonneg (bs : list byte) : 0 <= be_value bs.
Proof. apply be_value_fold_nonneg. lia. Qed.

Lemma parseSize_nonneg (W : nat) (cur : list byte) (l : Z)
    (rest : list byte) :
  parseSize W cur = Some (l, rest) -> 0 <= l.
Proof.
  unfold parseSize. destruct (length cur <? W)%nat; [discriminate|].
  intros E. apply Some_inj in E. inversion E. apply be_value_nonneg.
Qed.

Lemma firstn_nonempty {A : Type} (l : Z) (cur : list A) :
  0 < l -> l <= len cur -> firstn (Z.to_nat l) cur <> [].
Proof.
  intros Hl Hle E. apply (f_equal (@length A)) in E.
  rewrite length_firstn in E. unfold len in Hle. simpl in E. lia.
Qed.

Lemma flat_map_slot_entries (nm first : list byte)
    (rest : list (list byte)) :
  flat_map entry_pieces (slot_entries nm first rest)
  = {| str := nm; owner := false; multiValued := false |}
    :: {| str := first; owner := false; multiValued := false |}
    :: seg_pieces nm rest.
Proof.
  unfold slot_entries. cbn [flat_map entry_pieces e_name e_value e_multi app].
  f_equal. f_equal. unfold seg_pieces.
  induction rest as [|v rest IH]; simpl; [reflexivity|].
  rewrite IH. reflexivity.
Qed.

Lemma flagged_bytes_app (a b : list Entry) :
  flagged_bytes (a ++ b) = flagged_bytes a + flagged_bytes b.
Proof.
  unfold flagged_bytes. induction a as [|e a IH]; simpl; [reflexivity|].
  rewrite IH. lia.
Qed.

Lemma flagged_bytes_slot (nm first : list byte) (rest : list (list byte)) :
  flagged_bytes (slot_entries nm first rest) = seg_expanded nm rest.
Proof.
  unfold slot_entries, flagged_bytes, seg_expanded.
  cbn [fold_right e_multi]. rewrite Z.add_0_l.
  induction rest as [|v rest IH]; simpl; [reflexivity|].
  rewrite IH. lia.
Qed.

Lemma flags_follow_app (es new : list Entry) :
  forall p,
    flags_follow p es ->
    (forall q, flags_follow q new) ->
    flags_follow p (es ++ new).
Proof.
  induction es as [|e es IH]; intros p Hes Hnew; simpl.
  - apply Hnew.
  - destruct Hes as [He Hes]. split; [exact He|]. apply IH; assumption.
Qed.

Lemma flags_follow_slot (nm first : list byte) (rest : list (list byte)) :
  forall q, flags_follow q (slot_entries nm first rest).
Proof.
  intros q. unfold slot_entries. cbn [flags_follow e_multi e_name].
  split; [discriminate|].
  induction rest as [|v rest IH]; simpl; [exact I|].
  split; [reflexivity | exact IH].
Qed.

Lemma slot_entries_ok (nm s : list byte) :
  nm <> [] ->
  forallb wire_name_char nm = true ->
  existsb is_nul s && has_empty_segment s = false ->
  Forall entry_ok (slot_entries nm (fst (split_nul s)) (snd (split_nul s))).
Proof.
  intros Hne Hnm Hseg.
  destruct (split_nul_spec s) as (Hv & Hc & Hs & Hn).
  assert (Hrest : Forall (fun v => v <> []) (snd (split_nul s))).
  { destruct (snd (split_nul s)) as [|v vs] eqn:Ev; [constructor|].
    assert (En : existsb is_nul s = true).
    { rewrite Hv. apply existsb_nul_joined. }
    rewrite En in Hseg. cbn [andb] in Hseg.
    unfold has_empty_segment, segments in Hseg. rewrite Ev in Hseg.
    apply segments_nonempty in Hseg as [_ H]. exact H. }
  unfold slot_entries. constructor.
  - repeat split; try assumption. discriminate.
  - apply Forall_map. revert Hs Hrest.
    generalize (snd (split_nul s)) as vs.
    induction vs as [|v vs IH]; intros Hs Hrest; [constructor|].
    inversion Hs; subst. inversion Hrest; subst.
    constructor; [|apply IH; assumption].
    repeat split; try assumption. intros _. assumption.
Qed.

Section ParsedPairs.

Variable W : nat.
Variable signed_char : bool.

Lemma parse_loop_S (n : nat) (i : Z) (headerName : option HeaderPiece)
    (cur : list byte) (out : list HeaderPiece) (expanded : Z) :
  parse_loop W signed_char (S n) i headerName cur out expanded
  = match parseSize W cur with
    | None => (out, OutOfRange)
    | Some (l, cur1) =>
        if (l =? 0)
           && (match headerName with None => true | Some _ => false end)
        then (out, ParseError EMPTY_HEADER_NAME)
        else if len cur1 <? l then (out, OutOfRange)
        else
          let piece := {| str := firstn (Z.to_nat l) cur1;
                          owner := false; multiValued := false |} in
          let out1 := out ++ [piece] in
          let cur2 := skipn (Z.to_nat l) cur1 in
          if i mod 2 =? 0 then
            if existsb (bad_name_char signed_char) (str piece)
            then (out1, ParseError INVALID_HEADER_VALUE)
            else parse_loop W signed_char n ((i + 1) mod 2 ^ 32)
                            (Some piece) cur2 out1 expanded
          else
            match split_value
                    (match headerName with
                     | Some nm => str nm
                     | None => []
                     end) out1 expanded with
            | EmptyValue out2 => (out2, ParseError EMPTY_HEADER_VALUE)
            | Scanned (out2, expanded') =>
                parse_loop W signed_char n ((i + 1) mod 2 ^ 32) None cur2
                           out2 expanded'
            end
    end.
Proof. reflexivity. Qed.

(** An even number of slots that end well leave pairs that are valid. *)
Lemma parse_loop_pairs (k : nat) :
  forall i cur out0 es out n,
    i mod 2 = 0 ->
    Forall entry_ok es ->
    flags_follow None es ->
    parse_loop W signed_char (k + k) i None cur
      (out0 ++ flat_map entry_pieces es) (flagged_bytes es)
    = (out, ParseOk n) ->
    exists es',
      out = out0 ++ flat_map entry_pieces es'
      /\ Forall entry_ok es'
      /\ flags_follow None es'
      /\ n = flagged_bytes es'.
Proof.
  induction k as [|k IH]; intros i cur out0 es out n Hi Hok Hfl H.
  - cbn [Nat.add parse_loop] in H. inversion H. subst.
    exists es. repeat split; assumption.
  - replace (S k + S k)%nat with (S (S (k + k))) in H by lia.
    rewrite parse_loop_S in H.
    destruct (parseSize W cur) as [[l cur1]|] eqn:Ep; [|discriminate].
    rewrite andb_true_r in H.
    destruct (l =? 0) eqn:El; [discriminate|].
    destruct (len cur1 <? l) eqn:Elen; [discriminate|].
    cbv zeta in H. rewrite Hi in H. cbn [Z.eqb str] in H.
    destruct (existsb (bad_name_char signed_char)
                (firstn (Z.to_nat l) cur1)) eqn:Ebad; [discriminate|].
    rewrite parse_loop_S in H.
    destruct (parseSize W (skipn (Z.to_nat l) cur1))
      as [[l2 cur3]|] eqn:Ep2; [|discriminate].
    rewrite andb_false_r in H.
    destruct (len cur3 <? l2) eqn:Elen2; [discriminate|].
    cbv zeta in H. rewrite (next_odd i Hi) in H. cbn [Z.eqb str] in H.
    rewrite split_value_spec in H.
    set (nm := firstn (Z.to_nat l) cur1) in *.
    set (s := firstn (Z.to_nat l2) cur3) in *.
    destruct (existsb is_nul s && has_empty_segment s) eqn:Eseg;
      [discriminate|].
    assert (Hnm : nm <> []).
    { apply firstn_nonempty.
      - pose proof (parseSize_nonneg W cur l cur1 Ep).
        apply Z.eqb_neq in El. lia.
      - apply Z.ltb_ge. exact Elen. }
    assert (Hvalid : forallb wire_name_char nm = true).
    { rewrite existsb_bad_name in Ebad.
      apply negb_false_iff in Ebad. exact Ebad. }
    apply (IH (((i + 1) mod 2 ^ 32 + 1) mod 2 ^ 32)
             (skipn (Z.to_nat l2) cur3) out0
             (es ++ slot_entries nm (fst (split_nul s)) (snd (split_nul s)))).
    + apply next_even. exact Hi.
    + apply Forall_app. split; [exact Hok|].
      apply slot_entries_ok; assumption.
    + apply flags_follow_app; [exact Hfl | apply flags_follow_slot].
    + rewrite flat_map_app, flat_map_slot_entries, flagged_bytes_app,
        flagged_bytes_slot.
      rewrite <- H. f_equal.
      rewrite <- !app_assoc. reflexivity.
Qed.

Lemma even_slots (numNV : Z) :
  exists k, Z.to_nat ((numNV * 2) mod 2 ^ 32) = (k + k)%nat.
Proof.
  pose proof (mod32_parity (numNV * 2)) as Hp.
  rewrite Z.mod_mul in Hp by lia.
  pose proof (Z.mod_pos_bound (numNV * 2) (2 ^ 32) ltac:(lia)) as Hb.
  exists (Z.to_nat (((numNV * 2) mod 2 ^ 32) / 2)).
  pose proof (Z.div_mod ((numNV * 2) mod 2 ^ 32) 2 ltac:(lia)) as Hd.
  rewrite Hp in Hd.
  assert (0 <= ((numNV * 2) mod 2 ^ 32) / 2) by (apply Z.div_pos; lia).
  lia.
Qed.

Lemma flagged_piece_bytes_entries (es : list Entry) :
  flagged_piece_bytes (flat_map entry_pieces es) = flagged_bytes es.
Proof.
  unfold flagged_piece_bytes, flagged_bytes.
  induction es as [|e es IH]; [reflexivity|].
  cbn [flat_map entry_pieces app fold_right multiValued str].
  rewrite IH. destruct (e_multi e); lia.
Qed.

(** The count the parser returns is the number of bytes of the pieces
    it flagged. *)
Lemma parseNameValues_counts (blk : list byte) (out : list HeaderPiece)
    (n : Z) :
  parseNameValues W signed_char blk [] = (out, ParseOk n) ->
  n = flagged_piece_bytes out.
Proof.
  unfold parseNameValues.
  destruct (parseSize W blk) as [[numNV cur]|]; [|discriminate].
  destruct (even_slots numNV) as [k ->]. intros H.
  destruct (parse_loop_pairs k 0 cur [] [] out n eq_refl (Forall_nil _) I H)
    as (es & -> & _ & _ & ->).
  cbn [app]. symmetry. apply flagged_piece_bytes_entries.
Qed.

(** X7.  Whenever the parser ends without an error, what it appended to
    [outHeaders_] is a sequence of (name, value) pairs with equal flags
    in which every name is nonempty and free of bytes outside
    [0x20, 0x7E] and of uppercase letters, no value holds a NUL, every
    pair flagged multi-valued has a nonempty value and follows a pair of
    the same name, and the count returned is the number of name and value
    bytes of the flagged pairs. *)
Theorem parsed_pairs_are_valid (blk : list byte) (out0 out : list HeaderPiece)
    (n : Z) :
  parseNameValues W signed_char blk out0 = (out, ParseOk n) ->
  exists es,
    out = out0 ++ flat_map entry_pieces es
    /\ Forall entry_ok es
    /\ flags_follow None es
    /\ n = flagged_bytes es.
Proof.
  unfold parseNameValues.
  destruct (parseSize W blk) as [[numNV cur]|]; [|discriminate].
  destruct (even_slots numNV) as [k ->]. intros H.
  apply (parse_loop_pairs k 0 cur out0 [] out n eq_refl
           (Forall_nil _) I).
  cbn [flat_map flagged_bytes fold_right]. rewrite app_nil_r. exact H.
Qed.

End ParsedPairs.

(* ------------------------------------------------------------------ *)
(** ** Stats and size caps *)

Section DecodeOutcomes.

Context {zlib : Zlib}.
Variable signed_char : bool.

(** C8, as the code has it.  With a stats sink configured, a call of
    [decode] that returns invokes [recordDecode] exactly once when the
    decompression loops have completed on a block of nonzero length,
    before the block is parsed, whatever the parser and the ceiling
    check then answer.  It does not invoke it for a block of length
    zero, which succeeds, nor when the decompression returns an
    error. *)
Theorem stats_recorded_after_decompression
    (fuel : nat) (c : GzipHeaderCodec) (tl : option IOBuf)
    (cursor : Cursor) (length : Z) (calls : list StatsCall)
    (out : DecodeOut) :
  stats_ c = Some calls ->
  decode signed_char fuel c tl cursor length = Some out ->
  (length = 0
   /\ do_result out = Ok {| headers := []; bytesConsumed := 0 |}
   /\ stats_ (do_codec out) = Some calls)
  \/ (exists e r,
         length <> 0
         /\ inflate_chunks fuel c cursor length 0 (inflate_start c tl)
            = Some (Error (e, r))
         /\ do_result out = Error e
         /\ stats_ (do_codec out) = Some calls)
  \/ (exists r,
         length <> 0
         /\ inflate_chunks fuel c cursor length 0 (inflate_start c tl)
            = Some (Ok r)
         /\ out = decoded signed_char c r
         /\ stats_ (do_codec out)
            = Some (calls
                      ++ [recordDecode
                            {| compressed := in_consumed r;
                               uncompressed :=
                                 len (data (i_buf (in_state r))) |}])).
Proof.
  intros Hstats Hdec.
  destruct (Z.eqb_spec length 0) as [-> | Hne].
  - left. unfold decode in Hdec. cbn [Z.eqb] in Hdec.
    apply Some_inj in Hdec. subst out. cbn [do_result do_codec].
    unfold with_decoded. cbn [stats_]. auto.
  - right.
    assert (Hl : (length =? 0) = false) by (apply Z.eqb_neq; exact Hne).
    destruct (inflate_chunks fuel c cursor length 0 (inflate_start c tl))
      as [[r | [e r]] |] eqn:Hi.
    + right. exists r.
      rewrite (decode_inflated signed_char fuel c tl cursor length r Hl Hi)
        in Hdec.
      apply Some_inj in Hdec. subst out.
      repeat split; try assumption.
      unfold decoded. cbn [do_codec]. unfold with_decoded. cbn [stats_].
      rewrite Hstats. reflexivity.
    + left. exists e, r. unfold decode in Hdec. rewrite Hl, Hi in Hdec.
      apply Some_inj in Hdec. subst out. cbn [do_result do_codec].
      unfold with_decoded. cbn [stats_]. auto.
    + unfold decode in Hdec. rewrite Hl, Hi in Hdec. discriminate.
Qed.

End DecodeOutcomes.

Lemma stats_recorded_after_decompression_witness :
  exists out,
    stats_ codec3 = Some []
    /\ decode true 10 codec3 None [block_empty_name] 8 = Some out
    /\ do_result out = Error EMPTY_HEADER_NAME
    /\ stats_ (do_codec out)
       = Some [recordDecode {| compressed := 8; uncompressed := 8 |}].
Proof.
  match eval vm_compute in
        (decode true 10 codec3 None [block_empty_name] 8) with
  | Some ?o => exists o
  end.
  split; [reflexivity|]. split; [reflexivity|]. split; [reflexivity|].
  match goal with
  | |- stats_ (do_codec ?o) = _ =>
      destruct (@stats_recorded_after_decompression stored_zlib true 10
                  codec3 None [block_empty_name] 8 [] o eq_refl eq_refl)
        as [(H0 & _) | [(e & r & _ & Hi & _) | (r & _ & _ & _ & Hs)]]
  end.
  - discriminate H0.
  - vm_compute in Hi. discriminate Hi.
  - reflexivity.
Defined.

(** The spec has the sink called after each successful call; a decode
    of an empty block succeeds and records nothing, and a decode that
    returns [EMPTY_HEADER_NAME] has recorded its sizes. *)
Lemma stats_do_not_follow_success :
  (exists out,
      decode true 10 codec3 None [] 0 = Some out
      /\ do_result out = Ok {| headers := []; bytesConsumed := 0 |}
      /\ stats_ (do_codec out) = Some [])
  /\ (exists out,
         decode true 10 codec3 None [block_empty_name] 8 = Some out
         /\ do_result out = Error EMPTY_HEADER_NAME
         /\ stats_ (do_codec out)
            = Some [recordDecode {| compressed := 8; uncompressed := 8 |}]).
Proof.
  split.
  - eexists. split; [reflexivity|]. split; reflexivity.
  - match eval vm_compute in
          (decode true 10 codec3 None [block_empty_name] 8) with
    | Some ?o => exists o
    end.
    repeat split; reflexivity.
Qed.

Section SizeCaps.

Context {zlib : Zlib}.
Variable signed_char : bool.
Variable c : GzipHeaderCodec.

Lemma loop_test_not_return (st : InflState) (e : HeaderDecodeError)
    (st' : InflState) :
  loop_test st <> Return e st'.
Proof.
  unfold loop_test.
  destruct ((len (i_in st) >? 0) && (i_avail_out st =? 0)); discriminate.
Qed.

(** A pass returns [HEADERS_TOO_LARGE] exactly when it exceeds the
    cap. *)
Lemma inflate_body_too_large (st : InflState) :
  (exists st', inflate_body c st = Return HEADERS_TOO_LARGE st')
  <-> cap_exceeded c st.
Proof.
  unfold inflate_body, cap_exceeded.
  set (buf := if tailroom (i_buf st) =? 0
              then reserve (capacity (i_buf st)) (i_buf st)
              else i_buf st).
  set (r := inflate (i_stream st) (i_in st) (tailroom buf) Z_NO_FLUSH).
  cbv zeta.
  destruct (Z.eqb_spec (z_rc r) Z_NEED_DICT) as [Hd | Hd].
  - destruct (inflateSetDictionary (z_next r) (dict (versionSettings_ c)))
      as [r' s'].
    split.
    + intros [st' H]. destruct (negb (r' =? Z_OK)); [discriminate|].
      exfalso. exact (loop_test_not_return _ _ _ H).
    + intros [H0 _]. rewrite Hd in H0. discriminate.
  - destruct (Z.eqb_spec (z_rc r) 0) as [H0 | H0]; cbn [negb].
    + cbn [i_buf append data]. rewrite len_app.
      destruct (Z.gtb_spec (len (data buf) + len (z_out r))
                  (maxUncompressed_ c)) as [Hgt | Hle].
      * split; [intros _; split; [exact H0 | lia] | intros _; eauto].
      * split.
        -- intros [st' H]. exfalso. exact (loop_test_not_return _ _ _ H).
        -- intros [_ Hgt]. lia.
    + split; [intros [st' H]; discriminate | intros [Hz _]; contradiction].
Qed.

Lemma inflate_loop_too_large (fuel : nat) :
  forall st st',
    inflate_loop fuel c st = Some (Error (HEADERS_TOO_LARGE, st')) ->
    exists stk, passes c st stk /\ cap_exceeded c stk.
Proof.
  induction fuel as [|fuel IH]; intros st st' H; [discriminate|].
  cbn [inflate_loop] in H.
  destruct (inflate_body c st) as [e s | s | s] eqn:Hb.
  - apply Some_inj in H. inversion H; subst e s.
    exists st. split; [constructor|].
    apply inflate_body_too_large. eauto.
  - destruct (IH s st' H) as (stk & Hp & Hc).
    exists stk. split; [econstructor; eassumption | exact Hc].
  - discriminate.
Qed.

Lemma inflate_loop_exit (fuel : nat) :
  forall st st',
    inflate_loop fuel c st = Some (Ok st') ->
    exists stk, passes c st stk /\ inflate_body c stk = Exit st'.
Proof.
  induction fuel as [|fuel IH]; intros st st' H; [discriminate|].
  cbn [inflate_loop] in H.
  destruct (inflate_body c st) as [e s | s | s] eqn:Hb.
  - discriminate.
  - destruct (IH s st' H) as (stk & Hp & Hx).
    exists stk. split; [econstructor; eassumption | exact Hx].
  - apply Some_inj in H. inversion H; subst s.
    exists st. split; [constructor | exact Hb].
Qed.

Lemma inflate_chunks_unfold (fuel : nat) (cursor : Cursor)
    (length consumed : Z) (st : InflState) :
  length > 0 ->
  inflate_chunks (S fuel) c cursor length consumed st
  = match inflate_loop (S fuel) c (enter_chunk cursor length st) with
    | None => None
    | Some (Error (e, st')) =>
        Some (Error (e, {| in_state := st'; in_consumed := consumed;
                           in_cursor := cursor |}))
    | Some (Ok st') =>
        inflate_chunks fuel c
          (skip (Z.to_nat (chunk_len cursor length)) cursor)
          (length - chunk_len cursor length)
          ((consumed + chunk_len cursor length) mod 2 ^ 32) st'
    end.
Proof.
  intros Hl. cbn [inflate_chunks].
  destruct (Z.gtb_spec length 0); [reflexivity | lia].
Qed.

Lemma inflate_chunks_too_large (fuel : nat) :
  forall cursor length consumed st r,
    inflate_chunks fuel c cursor length consumed st
    = Some (Error (HEADERS_TOO_LARGE, r)) ->
    exists stk, reaches c cursor length st stk /\ cap_exceeded c stk.
Proof.
  induction fuel as [|fuel IH]; intros cursor length consumed st r H.
  - cbn [inflate_chunks] in H.
    destruct (length >? 0); discriminate.
  - destruct (Z.gtb_spec length 0) as [Hl | Hl].
    + rewrite inflate_chunks_unfold in H by lia.
      destruct (inflate_loop (S fuel) c (enter_chunk cursor length st))
        as [[st' | [e st']] |] eqn:Hloop; [| |discriminate].
      * destruct (inflate_loop_exit _ _ _ Hloop) as (st1 & Hp & Hx).
        destruct (IH _ _ _ _ _ H) as (stk & Hr & Hc).
        exists stk. split; [|exact Hc].
        eapply reaches_next_chunk; try eassumption. lia.
      * apply Some_inj in H. inversion H; subst e r.
        destruct (inflate_loop_too_large _ _ _ Hloop) as (stk & Hp & Hc).
        exists stk. split; [|exact Hc].
        apply reaches_in_chunk; [lia | exact Hp].
    + rewrite inflate_chunks_done in H
        by (rewrite Z.gtb_ltb; apply Z.ltb_ge; lia).
      discriminate.
Qed.

Lemma passes_too_large (st stk : InflState) :
  passes c st stk -> cap_exceeded c stk ->
  forall fuel res,
    inflate_loop fuel c st = Some res ->
    exists st', res = Error (HEADERS_TOO_LARGE, st').
Proof.
  induction 1 as [st | st st1 st2 Hb Hp IH]; intros Hc fuel res H.
  - apply inflate_body_too_large in Hc as [st' Hb].
    destruct fuel; [discriminate|]. cbn [inflate_loop] in H.
    rewrite Hb in H. apply Some_inj in H. subst res. eauto.
  - destruct fuel; [discriminate|]. cbn [inflate_loop] in H.
    rewrite Hb in H. eapply IH; eassumption.
Qed.

Lemma passes_exit (st st1 st2 : InflState) :
  passes c st st1 -> inflate_body c st1 = Exit st2 ->
  forall fuel res, inflate_loop fuel c st = Some res -> res = Ok st2.
Proof.
  induction 1 as [st | st sta stb Hb Hp IH]; intros Hx fuel res H.
  - destruct fuel; [discriminate|]. cbn [inflate_loop] in H.
    rewrite Hx in H. apply Some_inj in H. congruence.
  - destruct fuel; [discriminate|]. cbn [inflate_loop] in H.
    rewrite Hb in H. eapply IH; eassumption.
Qed.

Lemma reaches_too_large (cursor : Cursor) (length : Z) (st stk : InflState) :
  reaches c cursor length st stk -> cap_exceeded c stk ->
  forall fuel consumed res,
    inflate_chunks fuel c cursor length consumed st = Some res ->
    exists r, res = Error (HEADERS_TOO_LARGE, r).
Proof.
  induction 1 as [cursor length st0 st Hl Hp
                 | cursor length st0 st1 st2 st Hl Hp Hx Hr IH];
    intros Hc fuel consumed res H.
  - destruct fuel as [|fuel].
    { cbn [inflate_chunks] in H.
      destruct (Z.gtb_spec length 0); [discriminate | lia]. }
    rewrite inflate_chunks_unfold in H by lia.
    destruct (inflate_loop (S fuel) c (enter_chunk cursor length st0))
      as [res'|] eqn:Hloop; [|discriminate].
    destruct (passes_too_large _ _ Hp Hc _ _ Hloop) as (st' & ->).
    apply Some_inj in H. subst res. eauto.
  - destruct fuel as [|fuel].
    { cbn [inflate_chunks] in H.
      destruct (Z.gtb_spec length 0); [discriminate | lia]. }
    rewrite inflate_chunks_unfold in H by lia.
    destruct (inflate_loop (S fuel) c (enter_chunk cursor length st0))
      as [res'|] eqn:Hloop; [|discriminate].
    rewrite (passes_exit _ _ _ Hp Hx _ _ Hloop) in H.
    eapply IH; eassumption.
Qed.

(** The parser itself never answers [HEADERS_TOO_LARGE]. *)
Lemma parse_loop_not_too_large (W : nat) (n : nat) :
  forall i hn cur out expanded,
    snd (parse_loop W signed_char n i hn cur out expanded)
    <> ParseError HEADERS_TOO_LARGE.
Proof.
  induction n as [|n IH]; intros i hn cur out expanded; cbn [parse_loop].
  - discriminate.
  - destruct (parseSize W cur) as [[l cur1]|]; [|discriminate].
    destruct ((l =? 0) && match hn with None => true | Some _ => false end);
      [discriminate|].
    destruct (len cur1 <? l); [discriminate|].
    destruct (i mod 2 =? 0).
    + destruct (existsb _ _); [discriminate | apply IH].
    + destruct (split_value _ _ _) as [[out2 e2]|out2];
        [apply IH | discriminate].
Qed.

Lemma parse_empty_not_large (W : nat) (n : Z) :
  snd (parseNameValues W signed_char [] []) = ParseOk n -> n = 0.
Proof.
  unfold parseNameValues, parseSize. destruct W as [|W]; simpl.
  - intros H. inversion H. reflexivity.
  - discriminate.
Qed.

Variable HTTP_HEADER_OTHER : Z.

(** [decode] after a decompression that left the entries of valid
    headers, with their count, and any further bytes. *)
Lemma decoded_entries (r : Inflated) (hs : list Header) (rest : list byte) :
  let W := nameValueSize (versionSettings_ c) in
  data (i_buf (in_state r))
  = appendSize W (unique_names HTTP_HEADER_OTHER [] hs)
      ++ wire W HTTP_HEADER_OTHER [] hs ++ rest ->
  Forall wire_header hs ->
  fields_fit W HTTP_HEADER_OTHER [] hs ->
  unique_names HTTP_HEADER_OTHER [] hs < 256 ^ Z.of_nat W ->
  2 * unique_names HTTP_HEADER_OTHER [] hs < 2 ^ 32 ->
  do_result (decoded signed_char c r)
  = if expandedBytes HTTP_HEADER_OTHER [] hs >? kMaxExpandedHeaderLineBytes
    then Error HEADERS_TOO_LARGE
    else Ok {| headers := pieces HTTP_HEADER_OTHER [] hs;
               bytesConsumed := in_consumed r |}.
Proof.
  intros W Hdata Hwf Hfit Hu H2u.
  pose proof (unique_names_nonneg hs HTTP_HEADER_OTHER []) as Hu0.
  pose proof (parseNameValues_wire_fit W signed_char hs HTTP_HEADER_OTHER []
                rest (wire_header_fresh HTTP_HEADER_OTHER hs Hwf) Hwf Hfit
                Hu H2u) as E.
  rewrite Z.mod_small in E by lia.
  unfold decoded. cbn [do_result]. fold W. rewrite Hdata, E.
  reflexivity.
Qed.

(** C3, as the code has it.  A call of [decode] that returns answers
    [HEADERS_TOO_LARGE] exactly when either some pass of the
    decompression loop inflates without error and leaves more than the
    configured maximum in the scratch buffer (the check follows each
    inflate step, and the call returns at once), or the decompression
    completes, the parser accepts the whole block, and the pieces it
    flagged multi-valued (every segment after the first of a value, with
    its name) hold more than 81920 bytes; the count the parser returns
    is the number of those bytes.  In particular, when the decompressed
    block holds the entries of valid headers under their count, the
    call answers [HEADERS_TOO_LARGE] exactly when the names and values of
    the headers that repeat the key before them add up to more than
    81920 bytes, and returns their pieces otherwise.  A total above the
    ceiling does not make a block too large that the parser rejects:
    the ceiling is tested after the whole block has been parsed. *)
Theorem headers_too_large_iff
    (fuel : nat) (tl : option IOBuf) (cursor : Cursor) (length : Z)
    (out : DecodeOut) :
  decode signed_char fuel c tl cursor length = Some out ->
  let W := nameValueSize (versionSettings_ c) in
  (do_result out = Error HEADERS_TOO_LARGE
   <-> (exists st,
           reaches c cursor length (inflate_start c tl) st
           /\ cap_exceeded c st)
       \/ (exists r pcs,
              inflate_chunks fuel c cursor length 0 (inflate_start c tl)
              = Some (Ok r)
              /\ parseNameValues W signed_char (data (i_buf (in_state r))) []
                 = (pcs, ParseOk (flagged_piece_bytes pcs))
              /\ flagged_piece_bytes pcs > 81920))
  /\ (forall r hs rest,
         inflate_chunks fuel c cursor length 0 (inflate_start c tl)
         = Some (Ok r) ->
         data (i_buf (in_state r))
         = appendSize W (unique_names HTTP_HEADER_OTHER [] hs)
             ++ wire W HTTP_HEADER_OTHER [] hs ++ rest ->
         (1 <= W)%nat ->
         Forall wire_header hs ->
         fields_fit W HTTP_HEADER_OTHER [] hs ->
         unique_names HTTP_HEADER_OTHER [] hs < 256 ^ Z.of_nat W ->
         2 * unique_names HTTP_HEADER_OTHER [] hs < 2 ^ 32 ->
         (do_result out = Error HEADERS_TOO_LARGE
          <-> expandedBytes HTTP_HEADER_OTHER [] hs > 81920)
         /\ (expandedBytes HTTP_HEADER_OTHER [] hs <= 81920 ->
             do_result out
             = Ok {| headers := pieces HTTP_HEADER_OTHER [] hs;
                     bytesConsumed := in_consumed r |})).
Proof.
  intros Hdec W. split.
  - destruct (Z.eqb_spec length 0) as [-> | Hne].
    + unfold decode in Hdec. cbn [Z.eqb] in Hdec.
      apply Some_inj in Hdec. subst out. cbn [do_result].
      split; [discriminate|].
      intros [(st & Hr & _) | (r & pcs & Hi & Hp & Hn)].
      * inversion Hr; lia.
      * rewrite inflate_chunks_done in Hi by reflexivity.
        apply Some_inj in Hi. inversion Hi; subst r.
        cbn [in_state inflate_start i_buf] in Hp.
        rewrite getHeaderBuf_empty in Hp.
        assert (Hs : snd (parseNameValues W signed_char [] [])
                     = ParseOk (flagged_piece_bytes pcs))
          by (rewrite Hp; reflexivity).
        apply parse_empty_not_large in Hs. lia.
    + assert (Hl : (length =? 0) = false) by (apply Z.eqb_neq; exact Hne).
      destruct (inflate_chunks fuel c cursor length 0 (inflate_start c tl))
        as [[r | [e r]] |] eqn:Hi.
      * rewrite (decode_inflated signed_char fuel c tl cursor length r Hl Hi)
          in Hdec.
        apply Some_inj in Hdec. subst out. unfold decoded. cbn [do_result].
        fold W.
        pose proof (parse_loop_not_too_large) as Hnot.
        destruct (parseNameValues W signed_char (data (i_buf (in_state r)))
                    []) as [pcs parsed] eqn:Hp.
        cbn [fst snd].
        assert (Hparsed : parsed <> ParseError HEADERS_TOO_LARGE).
        { intros ->. unfold parseNameValues in Hp.
          destruct (parseSize _ _) as [[numNV cur]|]; [|discriminate].
          eapply Hnot. rewrite Hp. reflexivity. }
        split.
        -- intros H. right. exists r, pcs.
           destruct parsed as [n | e |]; [| congruence | discriminate].
           pose proof (parseNameValues_counts W signed_char _ _ _ Hp) as Hn.
           split; [reflexivity|].
           split; [rewrite Hp, <- Hn; reflexivity|].
           rewrite <- Hn. unfold kMaxExpandedHeaderLineBytes in H.
           destruct (Z.gtb_spec n (80 * 1024)); [lia | discriminate].
        -- intros [(st & Hr & Hc) | (r' & pcs' & Hi' & Hp' & Hn)].
           ++ destruct (reaches_too_large _ _ _ _ Hr Hc _ _ _ Hi)
                as (x & Hx).
              discriminate.
           ++ apply Some_inj in Hi'. inversion Hi'; subst r'.
              rewrite Hp in Hp'. inversion Hp'; subst pcs' parsed.
              unfold kMaxExpandedHeaderLineBytes.
              destruct (Z.gtb_spec (flagged_piece_bytes pcs) (80 * 1024));
                [reflexivity | lia].
      * unfold decode in Hdec. rewrite Hl, Hi in Hdec.
        apply Some_inj in Hdec. subst out. cbn [do_result].
        split.
        -- intros H. inversion H; subst e. left.
           eapply inflate_chunks_too_large. exact Hi.
        -- intros [(st & Hr & Hc) | (r' & pcs & Hi' & _)]; [|discriminate].
           destruct (reaches_too_large _ _ _ _ Hr Hc _ _ _ Hi) as (x & Hx).
           congruence.
      * unfold decode in Hdec. rewrite Hl, Hi in Hdec. discriminate.
  - intros r hs rest Hi Hdata HW Hwf Hfit Hu H2u.
    assert (Hl : (length =? 0) = false).
    { apply (inflates_to_positive fuel c tl cursor length _ r
               (conj Hi Hdata)).
      apply appendSize_app_nonempty. exact HW. }
    rewrite (decode_inflated signed_char fuel c tl cursor length r Hl Hi)
      in Hdec.
    apply Some_inj in Hdec. subst out.
    rewrite (decoded_entries r hs rest Hdata Hwf Hfit Hu H2u).
    unfold kMaxExpandedHeaderLineBytes.
    destruct (Z.gtb_spec (expandedBytes HTTP_HEADER_OTHER [] hs) (80 * 1024))
      as [Hgt | Hle].
    + split; [split; [intros _; lia | reflexivity] | intros; lia].
    + split; [split; [discriminate | intros; lia] | reflexivity].
Qed.

End SizeCaps.

Lemma many_values_valid : Forall wire_header many_values.
Proof.
  apply Forall_forall. intros h Hin. apply repeat_spec in Hin. subst h.
  repeat split; try discriminate; vm_compute; reflexivity.
Qed.

Lemma headers_too_large_iff_witness :
  (exists out,
      decode true 10 codec_cap4 None [block_empty_name] 8 = Some out
      /\ do_result out = Error HEADERS_TOO_LARGE
      /\ exists st,
           reaches codec_cap4 [block_empty_name] 8
             (inflate_start codec_cap4 None) st
           /\ cap_exceeded codec_cap4 st)
  /\ (exists out,
         decode true 10 codec3 None [block_over_ceiling]
           (len block_over_ceiling) = Some out
         /\ expandedBytes 1 [] many_values > 81920
         /\ do_result out = Error HEADERS_TOO_LARGE).
Proof.
  split.
  - match eval vm_compute in
          (decode true 10 codec_cap4 None [block_empty_name] 8) with
    | Some ?o =>
        exists o;
        split; [reflexivity|]; split; [reflexivity|];
        destruct (proj1 (proj1 (@headers_too_large_iff stored_zlib true
                                  codec_cap4 1 10 None [block_empty_name] 8 o
                                  eq_refl))
                    eq_refl)
          as [Hreach | (r & pcs & Hi & _)]
    end.
    + exact Hreach.
    + vm_compute in Hi. discriminate Hi.
  - set (r := inflated_or nothing_inflated
                (inflate_chunks 10 codec3 [block_over_ceiling]
                   (len block_over_ceiling) 0 (inflate_start codec3 None))).
    assert (Hi : inflate_chunks 10 codec3 [block_over_ceiling]
                   (len block_over_ceiling) 0 (inflate_start codec3 None)
                 = Some (Ok r)) by (vm_compute; reflexivity).
    assert (Hdec : decode true 10 codec3 None [block_over_ceiling]
                     (len block_over_ceiling)
                   = Some (decoded true codec3 r))
      by (apply decode_inflated; [reflexivity | exact Hi]).
    assert (Hgt : expandedBytes 1 [] many_values > 81920)
      by (vm_compute; reflexivity).
    assert (Hfit : fields_fit 4 1 [] many_values)
      by (vm_compute; repeat split; intros; reflexivity).
    exists (decoded true codec3 r).
    split; [exact Hdec|]. split; [exact Hgt|].
    refine (proj2 (proj1 (proj2 (@headers_too_large_iff stored_zlib true
                                   codec3 1 10 None [block_over_ceiling]
                                   (len block_over_ceiling)
                                   (decoded true codec3 r) Hdec)
                            r many_values [] Hi _
                            (le_S _ _ (le_S _ _ (le_S _ _ (le_n 1))))
                            many_values_valid Hfit _ _))
              Hgt);
      vm_compute; reflexivity.
Defined.

(** The spec has [HeadersTooLarge] whenever the expanded total exceeds
    the ceiling; a block whose first entry expands to 82474 bytes and
    whose second entry has the name "X" is answered with
    [INVALID_HEADER_VALUE], the pieces of the first entry left in
    [outHeaders_]. *)
Lemma ceiling_is_tested_last :
  exists out,
    decode true 10 codec3 None [block_over_then_invalid]
      (len block_over_then_invalid) = Some out
    /\ do_result out = Error INVALID_HEADER_VALUE
    /\ flagged_piece_bytes (outHeaders_ (do_codec out)) = 82474
    /\ 82474 > 81920.
Proof.
  set (r := inflated_or nothing_inflated
              (inflate_chunks 10 codec3 [block_over_then_invalid]
                 (len block_over_then_invalid) 0 (inflate_start codec3 None))).
  assert (Hi : inflate_chunks 10 codec3 [block_over_then_invalid]
                 (len block_over_then_invalid) 0 (inflate_start codec3 None)
               = Some (Ok r)) by (vm_compute; reflexivity).
  exists (decoded true codec3 r).
  split; [apply decode_inflated; [reflexivity | exact Hi]|].
  split; [vm_compute; reflexivity|].
  split; [vm_compute; reflexivity | reflexivity].
Qed.

(* ================================================================== *)
(** * Further properties of the codec *)

(* ------------------------------------------------------------------ *)
(** ** The origin of every error of decode *)

Section ErrorOrigin.

Context {zlib : Zlib}.
Variable signed_char : bool.
Variable c : GzipHeaderCodec.

Lemma inflate_body_return (st : InflState) (e : HeaderDecodeError) :
  (exists st', inflate_body c st = Return e st') <-> pass_fails c st e.
Proof.
  destruct e; cbn [pass_fails]; try apply inflate_body_too_large;
    unfold inflate_body, dict_rejected, inflate_failed, pass_inflate,
      pass_buf;
    set (buf := if tailroom (i_buf st) =? 0
                then reserve (capacity (i_buf st)) (i_buf st)
                else i_buf st);
    set (r := inflate (i_stream st) (i_in st) (tailroom buf) Z_NO_FLUSH);
    cbv zeta;
    (destruct (Z.eqb_spec (z_rc r) Z_NEED_DICT) as [Hd | Hd];
     [ destruct (inflateSetDictionary (z_next r) (dict (versionSettings_ c)))
         as [r' s']; cbn [fst];
       destruct (Z.eqb_spec r' Z_OK) as [Hr | Hr]; cbn [negb]
     | destruct (Z.eqb_spec (z_rc r) 0) as [H0 | H0]; cbn [negb];
       [ destruct (len (data (i_buf
                     {| i_stream := z_next r; i_buf := append (z_out r) buf;
                        i_in := z_rest r;
                        i_avail_out := tailroom buf - len (z_out r) |}))
                   >? maxUncompressed_ c) | ] ]);
    (split;
     [ intros [st' H];
       first [ discriminate H
             | exfalso; exact (loop_test_not_return _ _ _ H)
             | split; assumption ]
     | intros H;
       first [ contradiction
             | destruct H as [H1 H2]; congruence
             | eauto ] ]).
Qed.

Lemma inflate_loop_error (fuel : nat) :
  forall st e st',
    inflate_loop fuel c st = Some (Error (e, st')) ->
    exists stk, passes c st stk /\ inflate_body c stk = Return e st'.
Proof.
  induction fuel as [|fuel IH]; intros st e st' H; [discriminate|].
  cbn [inflate_loop] in H.
  destruct (inflate_body c st) as [e0 s | s | s] eqn:Hb.
  - apply Some_inj in H. inversion H; subst e0 s.
    exists st. split; [constructor | exact Hb].
  - destruct (IH s e st' H) as (stk & Hp & Hc).
    exists stk. split; [econstructor; eassumption | exact Hc].
  - discriminate.
Qed.

Lemma inflate_chunks_error (fuel : nat) :
  forall cursor length consumed st e r,
    inflate_chunks fuel c cursor length consumed st = Some (Error (e, r)) ->
    exists stk, reaches c cursor length st stk /\ pass_fails c stk e.
Proof.
  induction fuel as [|fuel IH]; intros cursor length consumed st e r H.
  - cbn [inflate_chunks] in H.
    destruct (length >? 0); discriminate.
  - destruct (Z.gtb_spec length 0) as [Hl | Hl].
    + rewrite inflate_chunks_unfold in H by lia.
      destruct (inflate_loop (S fuel) c (enter_chunk cursor length st))
        as [[st' | [e' st']] |] eqn:Hloop; [| |discriminate].
      * destruct (inflate_loop_exit _ _ _ _ Hloop) as (st1 & Hp & Hx).
        destruct (IH _ _ _ _ _ _ H) as (stk & Hr & Hc).
        exists stk. split; [|exact Hc].
        eapply reaches_next_chunk; try eassumption. lia.
      * apply Some_inj in H. inversion H; subst e' r.
        destruct (inflate_loop_error _ _ _ _ Hloop) as (stk & Hp & Hc).
        exists stk. split.
        -- apply reaches_in_chunk; [lia | exact Hp].
        -- apply inflate_body_return. eauto.
    + rewrite inflate_chunks_done in H
        by (rewrite Z.gtb_ltb; apply Z.ltb_ge; lia).
      discriminate.
Qed.

Lemma passes_return (st stk : InflState) (e : HeaderDecodeError)
    (s : InflState) :
  passes c st stk -> inflate_body c stk = Return e s ->
  forall fuel res,
    inflate_loop fuel c st = Some res -> res = Error (e, s).
Proof.
  induction 1 as [st | st st1 st2 Hb Hp IH]; intros Hc fuel res H.
  - destruct fuel; [discriminate|]. cbn [inflate_loop] in H.
    rewrite Hc in H. apply Some_inj in H. subst res. reflexivity.
  - destruct fuel; [discriminate|]. cbn [inflate_loop] in H.
    rewrite Hb in H. eapply IH; eassumption.
Qed.

Lemma reaches_return (cursor : Cursor) (length : Z) (st stk : InflState)
    (e : HeaderDecodeError) :
  reaches c cursor length st stk -> pass_fails c stk e ->
  forall fuel consumed res,
    inflate_chunks fuel c cursor length consumed st = Some res ->
    exists r, res = Error (e, r).
Proof.
  induction 1 as [cursor length st0 st Hl Hp
                 | cursor length st0 st1 st2 st Hl Hp Hx Hr IH];
    intros Hc fuel consumed res H.
  - destruct fuel as [|fuel].
    { cbn [inflate_chunks] in H.
      destruct (Z.gtb_spec length 0); [discriminate | lia]. }
    rewrite inflate_chunks_unfold in H by lia.
    destruct (inflate_loop (S fuel) c (enter_chunk cursor length st0))
      as [res'|] eqn:Hloop; [|discriminate].
    apply inflate_body_return in Hc as [s Hs].
    rewrite (passes_return _ _ _ _ Hp Hs _ _ Hloop) in H.
    apply Some_inj in H. subst res. eauto.
  - destruct fuel as [|fuel].
    { cbn [inflate_chunks] in H.
      destruct (Z.gtb_spec length 0); [discriminate | lia]. }
    rewrite inflate_chunks_unfold in H by lia.
    destruct (inflate_loop (S fuel) c (enter_chunk cursor length st0))
      as [res'|] eqn:Hloop; [|discriminate].
    rewrite (passes_exit _ _ _ _ Hp Hx _ _ Hloop) in H.
    eapply IH; eassumption.
Qed.

(** The errors the parser itself answers. *)
Lemma parse_loop_error_kinds (W : nat) (n : nat) :
  forall i hn cur out expanded e,
    snd (parse_loop W signed_char n i hn cur out expanded) = ParseError e ->
    e = EMPTY_HEADER_NAME \/ e = EMPTY_HEADER_VALUE
    \/ e = INVALID_HEADER_VALUE.
Proof.
  induction n as [|n IH]; intros i hn cur out expanded e; cbn [parse_loop].
  - discriminate.
  - destruct (parseSize W cur) as [[l cur1]|]; [|discriminate].
    destruct ((l =? 0) && match hn with None => true | Some _ => false end).
    { cbn [snd]. intros H. inversion H. auto. }
    destruct (len cur1 <? l); [discriminate|].
    destruct (i mod 2 =? 0).
    + destruct (existsb _ _); [|apply IH].
      cbn [snd]. intros H. inversion H. auto.
    + destruct (split_value _ _ _) as [[out2 e2]|out2]; [apply IH|].
      cbn [snd]. intros H. inversion H. auto.
Qed.

(** X11.  A call of [decode] that returns answers the error [e] exactly
    when the block is not empty and either some pass of the
    decompression loop fails with [e] ([inflate] asks for the dictionary
    and zlib refuses it: [INFLATE_DICTIONARY]; [inflate] answers an
    error: [BAD_ENCODING]; the scratch buffer exceeds the cap:
    [HEADERS_TOO_LARGE]), or the decompression completes and the parser
    ends with [e], runs off the buffer ([BAD_ENCODING]) or counts more
    than the ceiling ([HEADERS_TOO_LARGE]).  The decompression never
    answers [EMPTY_HEADER_NAME], [EMPTY_HEADER_VALUE] or
    [INVALID_HEADER_VALUE], and the parser answers no other error than
    these. *)
Theorem decode_error_origin
    (fuel : nat) (tl : option IOBuf) (cursor : Cursor) (length : Z)
    (out : DecodeOut) (e : HeaderDecodeError) :
  decode signed_char fuel c tl cursor length = Some out ->
  (do_result out = Error e
   <-> length <> 0
       /\ ((exists st,
               reaches c cursor length (inflate_start c tl) st
               /\ pass_fails c st e)
           \/ (exists r,
                  inflate_chunks fuel c cursor length 0 (inflate_start c tl)
                  = Some (Ok r)
                  /\ parse_fails
                       (snd (parseNameValues
                               (nameValueSize (versionSettings_ c))
                               signed_char (data (i_buf (in_state r))) []))
                       e)))
  /\ (forall blk e',
         snd (parseNameValues (nameValueSize (versionSettings_ c))
                signed_char blk [])
         = ParseError e' ->
         e' = EMPTY_HEADER_NAME \/ e' = EMPTY_HEADER_VALUE
         \/ e' = INVALID_HEADER_VALUE).
Proof.
  intros Hdec. split.
  2:{ intros blk e'. unfold parseNameValues.
      destruct (parseSize _ blk) as [[numNV cur]|]; [|discriminate].
      apply parse_loop_error_kinds. }
  destruct (Z.eqb_spec length 0) as [-> | Hne].
  - unfold decode in Hdec. cbn [Z.eqb] in Hdec.
    apply Some_inj in Hdec. subst out. cbn [do_result].
    split; [discriminate | intros [H _]; congruence].
  - assert (Hl : (length =? 0) = false) by (apply Z.eqb_neq; exact Hne).
    destruct (inflate_chunks fuel c cursor length 0 (inflate_start c tl))
      as [[r | [e0 r]] |] eqn:Hi.
    + rewrite (decode_inflated signed_char fuel c tl cursor length r Hl Hi)
        in Hdec.
      apply Some_inj in Hdec. subst out. unfold decoded. cbn [do_result].
      destruct (snd (parseNameValues (nameValueSize (versionSettings_ c))
                       signed_char (data (i_buf (in_state r))) []))
        as [n | e' |] eqn:Hp.
      * cbn [parse_fails].
        destruct (Z.gtb_spec n kMaxExpandedHeaderLineBytes) as [Hgt | Hle].
        2:{ split; [discriminate|].
            intros [_ [(st & Hr & Hc) | (r' & Hi' & Hpf)]].
            - destruct (reaches_return _ _ _ _ _ Hr Hc _ _ _ Hi)
                as (x & Hx).
              discriminate.
            - apply Some_inj in Hi'. inversion Hi'; subst r'.
              rewrite Hp in Hpf. destruct Hpf as [Hn _]. lia. }
        split.
        -- intros H. split; [exact Hne|]. right. exists r.
           split; [reflexivity|]. rewrite Hp. cbn [parse_fails].
           inversion H. split; [lia | reflexivity].
        -- intros [_ [(st & Hr & Hc) | (r' & Hi' & Hpf)]].
           ++ destruct (reaches_return _ _ _ _ _ Hr Hc _ _ _ Hi) as (x & Hx).
              discriminate.
           ++ apply Some_inj in Hi'. inversion Hi'; subst r'.
              rewrite Hp in Hpf. destruct Hpf as [Hn ->]. reflexivity.
      * split.
        -- intros H. inversion H; subst e'. split; [exact Hne|].
           right. exists r. split; [reflexivity|].
           rewrite Hp. reflexivity.
        -- intros [_ [(st & Hr & Hc) | (r' & Hi' & Hpf)]].
           ++ destruct (reaches_return _ _ _ _ _ Hr Hc _ _ _ Hi) as (x & Hx).
              discriminate.
           ++ apply Some_inj in Hi'. inversion Hi'; subst r'.
              rewrite Hp in Hpf. cbn [parse_fails] in Hpf. congruence.
      * split.
        -- intros H. inversion H; subst e. split; [exact Hne|].
           right. exists r. split; [reflexivity|].
           rewrite Hp. reflexivity.
        -- intros [_ [(st & Hr & Hc) | (r' & Hi' & Hpf)]].
           ++ destruct (reaches_return _ _ _ _ _ Hr Hc _ _ _ Hi) as (x & Hx).
              discriminate.
           ++ apply Some_inj in Hi'. inversion Hi'; subst r'.
              rewrite Hp in Hpf. cbn [parse_fails] in Hpf. congruence.
    + unfold decode in Hdec. rewrite Hl, Hi in Hdec.
      apply Some_inj in Hdec. subst out. cbn [do_result].
      split.
      * intros H. inversion H; subst e0. split; [exact Hne|]. left.
        eapply inflate_chunks_error. exact Hi.
      * intros [_ [(st & Hr & Hc) | (r' & Hi' & _)]]; [|discriminate].
        destruct (reaches_return _ _ _ _ _ Hr Hc _ _ _ Hi) as (x & Hx).
        congruence.
    + unfold decode in Hdec. rewrite Hl, Hi in Hdec. discriminate.
Qed.

End ErrorOrigin.

Lemma decode_error_origin_witness :
  exists out,
    decode true 10 rejecting_codec None [block_empty_name] 8 = Some out
    /\ do_result out = Error INFLATE_DICTIONARY
    /\ 8 <> 0
    /\ ((exists st,
            reaches rejecting_codec [block_empty_name] 8
              (inflate_start rejecting_codec None) st
            /\ pass_fails rejecting_codec st INFLATE_DICTIONARY)
        \/ (exists r,
               inflate_chunks 10 rejecting_codec [block_empty_name] 8 0
                 (inflate_start rejecting_codec None)
               = Some (Ok r)
               /\ parse_fails
                    (snd (parseNameValues
                            (nameValueSize (versionSettings_ rejecting_codec))
                            true (data (i_buf (in_state r))) []))
                    INFLATE_DICTIONARY)).
Proof.
  match eval vm_compute in
        (decode true 10 rejecting_codec None [block_empty_name] 8) with
  | Some ?o =>
      exists o;
      split; [reflexivity|]; split; [reflexivity|];
      exact (proj1 (proj1 (@decode_error_origin rejecting_zlib true
                             rejecting_codec 10 None [block_empty_name] 8 o
                             INFLATE_DICTIONARY eq_refl))
               eq_refl)
  end.
Defined.

(* ------------------------------------------------------------------ *)
(** ** What a completed decompression has consumed and produced *)

Lemma peek_le_concat (cursor : Cursor) :
  (length (peek cursor) <= length (concat cursor))%nat.
Proof.
  induction cursor as [|b cursor IH]; [simpl; lia|].
  destruct b as [|x b]; [exact IH|].
  cbn [peek concat]. rewrite length_app. lia.
Qed.

Lemma concat_skip (n : nat) (cursor : Cursor) :
  (n <= length (peek cursor))%nat ->
  concat (skip n cursor) = skipn n (concat cursor).
Proof.
  induction cursor as [|b cursor IH]; intros Hn.
  - simpl. rewrite skipn_nil. reflexivity.
  - destruct b as [|x b]; [exact (IH Hn)|].
    cbn [peek] in Hn. cbn [skip concat].
    rewrite skipn_app.
    replace (n - length (x :: b))%nat with 0%nat by lia.
    reflexivity.
Qed.

Section Completed.

Context {zlib : Zlib}.
Variable signed_char : bool.
Variable c : GzipHeaderCodec.

Lemma chunk_len_range (cursor : Cursor) (length : Z) :
  0 < length ->
  0 <= chunk_len cursor length <= length
  /\ chunk_len cursor length <= len (peek cursor).
Proof.
  intros Hl. unfold chunk_len.
  pose proof (len_nonneg (peek cursor)) as H0.
  pose proof (Z.mod_pos_bound (len (peek cursor)) (2 ^ 32) ltac:(lia)) as Hm.
  pose proof (Z.mod_le (len (peek cursor)) (2 ^ 32) H0 ltac:(lia)) as Hle.
  lia.
Qed.

Lemma inflate_chunks_consumed (fuel : nat) :
  forall cursor length consumed st r,
    0 <= length -> 0 <= consumed -> consumed + length < 2 ^ 32 ->
    inflate_chunks fuel c cursor length consumed st = Some (Ok r) ->
    in_consumed r = consumed + length
    /\ concat (in_cursor r) = skipn (Z.to_nat length) (concat cursor)
    /\ length <= len (concat cursor).
Proof.
  induction fuel as [|fuel IH];
    intros cursor length consumed st r Hl Hc Hsum H.
  - cbn [inflate_chunks] in H.
    destruct (Z.gtb_spec length 0) as [Hpos | Hz]; [discriminate|].
    apply Some_inj in H. inversion H; subst r.
    cbn [in_consumed in_cursor].
    assert (length = 0) by lia. subst length.
    pose proof (len_nonneg (concat cursor)).
    split; [lia | split; [reflexivity | lia]].
  - destruct (Z.gtb_spec length 0) as [Hpos | Hz].
    + rewrite inflate_chunks_unfold in H by lia.
      destruct (inflate_loop (S fuel) c (enter_chunk cursor length st))
        as [[st' | [e st']] |]; [|discriminate|discriminate].
      destruct (chunk_len_range cursor length Hpos) as [Hr Hp].
      set (cl := chunk_len cursor length) in *.
      rewrite Z.mod_small in H by lia.
      assert (Hn : (Z.to_nat cl <= List.length (peek cursor))%nat)
        by (unfold len in Hp; lia).
      apply IH in H; [|lia|lia|lia].
      destruct H as (Hcons & Hcur & Hlen).
      rewrite (concat_skip _ _ Hn) in Hcur, Hlen.
      rewrite skipn_skipn in Hcur.
      pose proof (peek_le_concat cursor) as Hpk.
      unfold len in Hlen. rewrite length_skipn in Hlen.
      split; [lia | split].
      * rewrite Hcur. f_equal. lia.
      * unfold len. lia.
    + rewrite inflate_chunks_done in H
        by (rewrite Z.gtb_ltb; apply Z.ltb_ge; lia).
      apply Some_inj in H. inversion H; subst r.
      cbn [in_consumed in_cursor].
      assert (length = 0) by lia. subst length.
      pose proof (len_nonneg (concat cursor)).
      split; [lia | split; [reflexivity | lia]].
Qed.

(** X12.  A call of [decode] on [length] bytes that returns headers has
    consumed exactly [length] bytes: [bytesConsumed] and the compressed
    size it records are [length], the cursor stands [length] bytes
    further, and the input held at least that many bytes.  The headers
    returned are the [outHeaders_] of the codec. *)
Theorem decode_consumes_length
    (fuel : nat) (tl : option IOBuf) (cursor : Cursor) (length : Z)
    (out : DecodeOut) (res : HeaderDecodeResult) :
  0 <= length < 2 ^ 32 ->
  decode signed_char fuel c tl cursor length = Some out ->
  do_result out = Ok res ->
  bytesConsumed res = length
  /\ concat (do_cursor out) = skipn (Z.to_nat length) (concat cursor)
  /\ length <= len (concat cursor)
  /\ headers res = outHeaders_ (do_codec out)
  /\ (length <> 0 -> compressed (decodedSize_ (do_codec out)) = length).
Proof.
  intros Hrange Hdec Hres.
  destruct (Z.eqb_spec length 0) as [-> | Hne].
  - unfold decode in Hdec. cbn [Z.eqb] in Hdec.
    apply Some_inj in Hdec. subst out.
    cbn [do_result do_cursor do_codec with_decoded outHeaders_] in *.
    inversion Hres; subst res. cbn [bytesConsumed headers].
    pose proof (len_nonneg (concat cursor)).
    split; [reflexivity|]. split; [reflexivity|]. split; [lia|].
    split; [reflexivity | congruence].
  - assert (Hl : (length =? 0) = false) by (apply Z.eqb_neq; exact Hne).
    destruct (inflate_chunks fuel c cursor length 0 (inflate_start c tl))
      as [[r | [e0 r]] |] eqn:Hi.
    + rewrite (decode_inflated signed_char fuel c tl cursor length r Hl Hi)
        in Hdec.
      apply Some_inj in Hdec. subst out.
      pose proof Hi as Hc.
      apply inflate_chunks_consumed in Hc; [|lia|lia|lia].
      destruct Hc as (Hcons & Hcur & Hlen).
      unfold decoded in *.
      cbn [do_result do_cursor do_codec with_decoded outHeaders_
           decodedSize_ compressed] in *.
      destruct (snd (parseNameValues (nameValueSize (versionSettings_ c))
                       signed_char (data (i_buf (in_state r))) []))
        as [n | e' |]; [|discriminate|discriminate].
      destruct (n >? kMaxExpandedHeaderLineBytes); [discriminate|].
      inversion Hres; subst res. cbn [bytesConsumed headers].
      split; [lia|]. split; [exact Hcur|]. split; [exact Hlen|].
      split; [reflexivity | intros _; lia].
    + unfold decode in Hdec. rewrite Hl, Hi in Hdec.
      apply Some_inj in Hdec. subst out. discriminate.
    + unfold decode in Hdec. rewrite Hl, Hi in Hdec. discriminate.
Qed.

Lemma data_pass_buf (st : InflState) :
  data (pass_buf st) = data (i_buf st).
Proof.
  unfold pass_buf, reserve.
  destruct (tailroom (i_buf st) =? 0); [|reflexivity].
  destruct (capacity (i_buf st) <=? tailroom (i_buf st)); reflexivity.
Qed.

Lemma loop_test_state (st st' : InflState) :
  loop_test st = Again st' \/ loop_test st = Exit st' -> st' = st.
Proof.
  unfold loop_test.
  destruct ((len (i_in st) >? 0) && (i_avail_out st =? 0));
    intros [H | H]; congruence.
Qed.

Lemma inflate_body_keeps_cap (st st' : InflState) :
  len (data (i_buf st)) <= Z.max 0 (maxUncompressed_ c) ->
  inflate_body c st = Again st' \/ inflate_body c st = Exit st' ->
  len (data (i_buf st')) <= Z.max 0 (maxUncompressed_ c).
Proof.
  intros Hcap. pose proof (data_pass_buf st) as Hbuf. revert Hbuf.
  unfold inflate_body, pass_buf.
  set (buf := if tailroom (i_buf st) =? 0
              then reserve (capacity (i_buf st)) (i_buf st)
              else i_buf st).
  set (r := inflate (i_stream st) (i_in st) (tailroom buf) Z_NO_FLUSH).
  cbv zeta. intros Hbuf.
  destruct (z_rc r =? Z_NEED_DICT).
  - destruct (inflateSetDictionary (z_next r) (dict (versionSettings_ c)))
      as [r' s'].
    destruct (negb (r' =? Z_OK)); [intros [H | H]; discriminate|].
    intros H. apply loop_test_state in H. subst st'.
    cbn [i_buf]. rewrite Hbuf. exact Hcap.
  - destruct (negb (z_rc r =? 0)); [intros [H | H]; discriminate|].
    destruct (Z.gtb_spec
                (len (data (i_buf
                   {| i_stream := z_next r; i_buf := append (z_out r) buf;
                      i_in := z_rest r;
                      i_avail_out := tailroom buf - len (z_out r) |})))
                (maxUncompressed_ c)) as [Hgt | Hle];
      [intros [H | H]; discriminate|].
    intros H. apply loop_test_state in H. subst st'. lia.
Qed.

Lemma passes_keep_cap (st stk : InflState) :
  passes c st stk ->
  len (data (i_buf st)) <= Z.max 0 (maxUncompressed_ c) ->
  len (data (i_buf stk)) <= Z.max 0 (maxUncompressed_ c).
Proof.
  induction 1 as [st | st st1 st2 Hb Hp IH]; intros Hcap; [exact Hcap|].
  apply IH. apply (inflate_body_keeps_cap st st1 Hcap). left. exact Hb.
Qed.

Lemma inflate_chunks_keep_cap (fuel : nat) :
  forall cursor length consumed st r,
    len (data (i_buf st)) <= Z.max 0 (maxUncompressed_ c) ->
    inflate_chunks fuel c cursor length consumed st = Some (Ok r) ->
    len (data (i_buf (in_state r))) <= Z.max 0 (maxUncompressed_ c).
Proof.
  induction fuel as [|fuel IH]; intros cursor length consumed st r Hcap H.
  - cbn [inflate_chunks] in H.
    destruct (length >? 0); [discriminate|].
    apply Some_inj in H. inversion H; subst r. exact Hcap.
  - destruct (Z.gtb_spec length 0) as [Hpos | Hz].
    + rewrite inflate_chunks_unfold in H by lia.
      destruct (inflate_loop (S fuel) c (enter_chunk cursor length st))
        as [[st' | [e st']] |] eqn:Hloop; [|discriminate|discriminate].
      destruct (inflate_loop_exit _ _ _ _ Hloop) as (st1 & Hp & Hx).
      apply (IH _ _ _ _ _ (inflate_body_keeps_cap st1 st'
                             (passes_keep_cap _ _ Hp Hcap)
                             (or_intror Hx)) H).
    + rewrite inflate_chunks_done in H
        by (rewrite Z.gtb_ltb; apply Z.ltb_ge; lia).
      apply Some_inj in H. inversion H; subst r. exact Hcap.
Qed.

(** X13.  The cap holds of everything handed on: when [decode] on a
    block of nonzero length gets through the decompression (it returns
    headers or an error of the parser), the scratch buffer it parsed,
    whose size it records as the uncompressed size, holds at most
    [maxUncompressed_] bytes, and none when that cap is negative.  A
    block of length zero leaves the recorded sizes as they were. *)
Theorem decompressed_size_within_cap
    (fuel : nat) (tl : option IOBuf) (cursor : Cursor) (length : Z)
    (out : DecodeOut) (r : Inflated) :
  decode signed_char fuel c tl cursor length = Some out ->
  (length <> 0 ->
   inflate_chunks fuel c cursor length 0 (inflate_start c tl) = Some (Ok r) ->
   do_scratch out = Some (i_buf (in_state r))
   /\ uncompressed (decodedSize_ (do_codec out))
      = len (data (i_buf (in_state r)))
   /\ uncompressed (decodedSize_ (do_codec out))
      <= Z.max 0 (maxUncompressed_ c))
  /\ (length = 0 -> decodedSize_ (do_codec out) = decodedSize_ c).
Proof.
  intros Hdec. split.
  - intros Hne Hi.
    assert (Hl : (length =? 0) = false) by (apply Z.eqb_neq; exact Hne).
    rewrite (decode_inflated signed_char fuel c tl cursor length r Hl Hi)
      in Hdec.
    apply Some_inj in Hdec. subst out. unfold decoded.
    cbn [do_scratch do_codec with_decoded decodedSize_ uncompressed].
    split; [reflexivity|]. split; [reflexivity|].
    apply (inflate_chunks_keep_cap _ _ _ _ _ _) with (2 := Hi).
    cbn [inflate_start i_buf]. rewrite getHeaderBuf_empty.
    change (len (@nil byte)) with 0. lia.
  - intros ->. unfold decode in Hdec. cbn [Z.eqb] in Hdec.
    apply Some_inj in Hdec. subst out. reflexivity.
Qed.

End Completed.

Lemma decode_consumes_length_witness :
  exists out res,
    0 <= 16 < 2 ^ 32
    /\ decode true 10 codec3 None cursor_two_chunks 16 = Some out
    /\ do_result out = Ok res
    /\ bytesConsumed res = 16
    /\ concat (do_cursor out)
       = skipn (Z.to_nat 16) (concat cursor_two_chunks)
    /\ 16 <= len (concat cursor_two_chunks)
    /\ headers res = outHeaders_ (do_codec out)
    /\ (16 <> 0 -> compressed (decodedSize_ (do_codec out)) = 16).
Proof.
  assert (Hr : 0 <= 16 < 2 ^ 32) by lia.
  match eval vm_compute in
        (decode true 10 codec3 None cursor_two_chunks 16) with
  | Some ?o =>
      match eval vm_compute in (do_result o) with
      | Ok ?r =>
          exists o, r;
          split; [exact Hr|]; split; [reflexivity|]; split; [reflexivity|];
          exact (@decode_consumes_length stored_zlib true codec3 10 None
                   cursor_two_chunks 16 o r Hr eq_refl eq_refl)
      end
  end.
Defined.

Lemma decompressed_size_within_cap_witness :
  exists out r,
    decode true 10 codec3 None cursor_two_chunks 16 = Some out
    /\ inflate_chunks 10 codec3 cursor_two_chunks 16 0
         (inflate_start codec3 None) = Some (Ok r)
    /\ do_scratch out = Some (i_buf (in_state r))
    /\ uncompressed (decodedSize_ (do_codec out))
       = len (data (i_buf (in_state r)))
    /\ uncompressed (decodedSize_ (do_codec out))
       <= Z.max 0 (maxUncompressed_ codec3).
Proof.
  assert (Hne : 16 <> 0) by discriminate.
  match eval vm_compute in
        (decode true 10 codec3 None cursor_two_chunks 16) with
  | Some ?o =>
      match eval vm_compute in
            (inflate_chunks 10 codec3 cursor_two_chunks 16 0
               (inflate_start codec3 None)) with
      | Some (Ok ?r) =>
          exists o, r;
          split; [reflexivity|]; split; [reflexivity|];
          exact (proj1 (@decompressed_size_within_cap stored_zlib true
                          codec3 10 None cursor_two_chunks 16 o r eq_refl)
                   Hne eq_refl)
      end
  end.
Defined.

(* ------------------------------------------------------------------ *)
(** ** The context cache and the constructor *)

Section ContextCache.

Context {zlib : Zlib}.

Lemma SPDYVersion_eqb_eq (a b : SPDYVersion) :
  SPDYVersion_eqb a b = true <-> a = b.
Proof. destruct a, b; simpl; split; congruence. Qed.

Lemma ZlibConfig_eqb_eq (a b : ZlibConfig) :
  ZlibConfig_eqb a b = true <-> a = b.
Proof.
  destruct a as [va la], b as [vb lb]. unfold ZlibConfig_eqb. cbn [fst snd].
  rewrite andb_true_iff, SPDYVersion_eqb_eq, Z.eqb_eq.
  split; [intros [-> ->]; reflexivity | intros E; inversion E; auto].
Qed.

Lemma ZlibConfig_eqb_refl (a : ZlibConfig) : ZlibConfig_eqb a a = true.
Proof. apply ZlibConfig_eqb_eq. reflexivity. Qed.

(** What an obtain call leaves in the cache. *)
Lemma getZlibContext_cached (m m' : ZlibContextMap)
    (vs : SPDYVersionSettings) (level : Z) (ctx : ZlibContext) :
  getZlibContext m vs level = Some (ctx, m') ->
  find_context (version vs, level) m' = Some ctx
  /\ (find_context (version vs, level) m = None ->
      m' = ((version vs, level), ctx) :: m)
  /\ (forall ctx0, find_context (version vs, level) m = Some ctx0 ->
                   ctx = ctx0 /\ m' = m).
Proof.
  unfold getZlibContext. cbv zeta.
  destruct (find_context (version vs, level) m) as [ctx0|] eqn:Ef.
  - intros E. apply Some_inj in E. inversion E; subst ctx0 m'.
    split; [exact Ef|]. split; [discriminate|].
    intros ctx0 E0. inversion E0. auto.
  - destruct (deflateInit2 level Z_DEFLATED
                (if level =? Z_NO_COMPRESSION then 8 else 11) 1
                Z_DEFAULT_STRATEGY) as [r d].
    destruct (negb (r =? Z_OK)); [discriminate|].
    destruct (if negb (level =? Z_NO_COMPRESSION)
              then deflateSetDictionary d (dict vs) else (r, d))
      as [r1 d1].
    destruct (negb (r1 =? Z_OK)); [discriminate|].
    destruct inflateInit as [r2 i].
    destruct (negb (r2 =? Z_OK)); [discriminate|].
    intros E. apply Some_inj in E. inversion E; subst ctx m'.
    cbn [find_context]. rewrite ZlibConfig_eqb_refl.
    split; [reflexivity|]. split; [reflexivity | discriminate].
Qed.

Lemma getZlibContext_hit (m : ZlibContextMap) (vs : SPDYVersionSettings)
    (level : Z) (ctx : ZlibContext) :
  find_context (version vs, level) m = Some ctx ->
  getZlibContext m vs level = Some (ctx, m).
Proof. unfold getZlibContext. cbv zeta. intros ->. reflexivity. Qed.

(** X14.  The template of a key is built once per thread.  After an
    obtain call for (version, level), every later call for that version
    and level returns the same context and leaves the cache as it is,
    also for version settings that carry another dictionary; the
    contexts under other keys are what they were; and a key that was
    present is answered from the cache without any change. *)
Theorem context_is_built_once (m m' : ZlibContextMap)
    (vs : SPDYVersionSettings) (level : Z) (ctx : ZlibContext) :
  getZlibContext m vs level = Some (ctx, m') ->
  (forall vs', version vs' = version vs ->
               getZlibContext m' vs' level = Some (ctx, m'))
  /\ (forall k, k <> (version vs, level) ->
                find_context k m' = find_context k m)
  /\ (forall ctx0, find_context (version vs, level) m = Some ctx0 ->
                   ctx = ctx0 /\ m' = m).
Proof.
  intros H.
  destruct (getZlibContext_cached m m' vs level ctx H) as (Hf & Hnew & Hold).
  split; [|split; [|exact Hold]].
  - intros vs' Hv. apply getZlibContext_hit. rewrite Hv. exact Hf.
  - intros k Hk.
    destruct (find_context (version vs, level) m) as [ctx0|] eqn:Ef.
    + destruct (Hold ctx0 eq_refl) as [_ ->]. reflexivity.
    + rewrite (Hnew eq_refl). cbn [find_context].
      destruct (ZlibConfig_eqb k (version vs, level)) eqn:Ek;
        [|reflexivity].
      apply ZlibConfig_eqb_eq in Ek. contradiction.
Qed.


End ContextCache.

(* ------------------------------------------------------------------ *)
(** ** The scratch buffer *)

Section ScratchBuffer.

Context {zlib : Zlib}.
Variable c : GzipHeaderCodec.

Lemma capacity_pass_buf (st : InflState) :
  capacity (i_buf st) <= capacity (pass_buf st).
Proof.
  unfold pass_buf, reserve.
  destruct (tailroom (i_buf st) =? 0); [|lia].
  destruct (capacity (i_buf st) <=? tailroom (i_buf st)); cbn [capacity];
    [lia|].
  pose proof (len_nonneg (data (i_buf st))). lia.
Qed.

Lemma inflate_body_keeps_capacity (st st' : InflState) :
  maxUncompressed_ c <= capacity (i_buf st) ->
  inflate_body c st = Again st' \/ inflate_body c st = Exit st' ->
  maxUncompressed_ c <= capacity (i_buf st').
Proof.
  intros Hcap. pose proof (capacity_pass_buf st) as Hbuf. revert Hbuf.
  unfold inflate_body, pass_buf.
  set (buf := if tailroom (i_buf st) =? 0
              then reserve (capacity (i_buf st)) (i_buf st)
              else i_buf st).
  set (r := inflate (i_stream st) (i_in st) (tailroom buf) Z_NO_FLUSH).
  cbv zeta. intros Hbuf.
  destruct (z_rc r =? Z_NEED_DICT).
  - destruct (inflateSetDictionary (z_next r) (dict (versionSettings_ c)))
      as [r' s'].
    destruct (negb (r' =? Z_OK)); [intros [H | H]; discriminate|].
    intros H. apply loop_test_state in H. subst st'.
    cbn [i_buf]. lia.
  - destruct (negb (z_rc r =? 0)); [intros [H | H]; discriminate|].
    destruct (len (data (i_buf
                {| i_stream := z_next r; i_buf := append (z_out r) buf;
                   i_in := z_rest r;
                   i_avail_out := tailroom buf - len (z_out r) |}))
              >? maxUncompressed_ c);
      [intros [H | H]; discriminate|].
    intros H. apply loop_test_state in H. subst st'.
    cbn [i_buf append capacity]. lia.
Qed.

Lemma passes_buf_ok (st stk : InflState) :
  passes c st stk -> buf_ok c st -> buf_ok c stk.
Proof.
  induction 1 as [st | st st1 st2 Hb Hp IH]; intros Hok; [exact Hok|].
  apply IH. destruct Hok as [Hd Hc]. split.
  - apply (inflate_body_keeps_cap c st st1 Hd). left. exact Hb.
  - apply (inflate_body_keeps_capacity st st1 Hc). left. exact Hb.
Qed.

Lemma reaches_buf_ok (cursor : Cursor) (length : Z) (st0 st : InflState) :
  reaches c cursor length st0 st -> buf_ok c st0 -> buf_ok c st.
Proof.
  induction 1 as [cursor length st0 st Hl Hp
                 | cursor length st0 st1 st2 st Hl Hp Hx Hr IH];
    intros Hok.
  - apply (passes_buf_ok _ _ Hp). exact Hok.
  - apply IH.
    destruct (passes_buf_ok _ _ Hp Hok) as [Hd Hc]. split.
    + apply (inflate_body_keeps_cap c st1 st2 Hd). right. exact Hx.
    + apply (inflate_body_keeps_capacity st1 st2 Hc). right. exact Hx.
Qed.

Lemma inflate_start_buf_ok (tl : option IOBuf) :
  buf_ok c (inflate_start c tl).
Proof.
  unfold buf_ok, inflate_start. cbn [i_buf].
  rewrite getHeaderBuf_empty. change (len (@nil byte)) with 0.
  split; [lia|].
  unfold getHeaderBuf, getStaticHeaderBufSpace.
  destruct tl as [b|]; cbn [capacity]; [|lia].
  destruct (Z.gtb_spec (maxUncompressed_ c) (capacity b)); cbn [capacity];
    lia.
Qed.

(** X16.  At the start of every pass of the decompression loop the
    scratch buffer holds at most [maxUncompressed_] bytes and has room
    for at least that many.  So the branch that doubles the buffer
    (lines 259-264, which the source expects not to run) is taken
    exactly in a pass that starts with the buffer filled to the cap, its
    capacity being the cap: this happens when the decompressed bytes so
    far are exactly [maxUncompressed_] and input is left. *)
Theorem doubling_only_at_cap (tl : option IOBuf) (cursor : Cursor)
    (length : Z) (st : InflState) :
  reaches c cursor length (inflate_start c tl) st ->
  buf_ok c st
  /\ (0 <= maxUncompressed_ c ->
      (tailroom (i_buf st) = 0
       <-> len (data (i_buf st)) = maxUncompressed_ c
           /\ capacity (i_buf st) = maxUncompressed_ c)).
Proof.
  intros Hr.
  pose proof (reaches_buf_ok _ _ _ _ Hr (inflate_start_buf_ok tl))
    as [Hd Hc].
  split; [split; assumption|].
  intros H0. unfold tailroom. split; [intros Ht | intros [E1 E2]]; lia.
Qed.

End ScratchBuffer.

Lemma context_is_built_once_witness :
  exists ctx m',
    @getZlibContext stored_zlib [] spdy3 9 = Some (ctx, m')
    /\ @getZlibContext stored_zlib m' spdy3 9 = Some (ctx, m').
Proof.
  match eval vm_compute in (@getZlibContext stored_zlib [] spdy3 9) with
  | Some (?x, ?m) =>
      exists x, m; split; [reflexivity|];
      exact (proj1 (@context_is_built_once stored_zlib [] m spdy3 9 x
                      eq_refl) spdy3 eq_refl)
  end.
Defined.


Lemma doubling_only_at_cap_witness :
  exists st,
    reaches codec_cap8 [nine_bytes] 9 (inflate_start codec_cap8 None) st
    /\ tailroom (i_buf st) = 0
    /\ buf_ok codec_cap8 st
    /\ (0 <= maxUncompressed_ codec_cap8 ->
        (tailroom (i_buf st) = 0
         <-> len (data (i_buf st)) = maxUncompressed_ codec_cap8
             /\ capacity (i_buf st) = maxUncompressed_ codec_cap8)).
Proof.
  match eval vm_compute in
        (inflate_body codec_cap8
           (enter_chunk [nine_bytes] 9 (inflate_start codec_cap8 None))) with
  | Again ?s1 =>
      match eval vm_compute in (inflate_body codec_cap8 s1) with
      | Again ?s2 =>
          assert (Hr : reaches codec_cap8 [nine_bytes] 9
                         (inflate_start codec_cap8 None) s2)
            by (apply reaches_in_chunk; [lia|];
                apply (@passes_again stored_zlib codec_cap8 _ s1 s2);
                [reflexivity|];
                apply (@passes_again stored_zlib codec_cap8 s1 s2 s2);
                [reflexivity|];
                apply passes_here);
          exists s2; split; [exact Hr|]; split; [reflexivity|];
          exact (@doubling_only_at_cap stored_zlib codec_cap8 None
                   [nine_bytes] 9 s2 Hr)
      end
  end.
Defined.

(* ------------------------------------------------------------------ *)
(** ** One entry per key *)

Lemma bytes_ltb_total (a : list byte) :
  forall b, bytes_ltb a b = false -> bytes_ltb b a = false -> a = b.
Proof.
  induction a as [|x a IH]; intros [|y b]; simpl; try congruence.
  ltb_cases; try congruence; try lia.
  intros H1 H2. f_equal; [apply byte_val_inj; lia | apply IH; assumption].
Qed.

Lemma Header_ltb_total (a b : Header) :
  Header_ltb a b = false -> Header_ltb b a = false ->
  code a = code b /\ name a = name b.
Proof.
  unfold Header_ltb. intros H1 H2.
  apply orb_false_iff in H1 as [H1 H1'], H2 as [H2 H2'].
  apply Z.ltb_ge in H1, H2.
  assert (E : code a = code b) by lia. split; [exact E|].
  rewrite E, Z.eqb_refl in H1'. rewrite E, Z.eqb_refl in H2'.
  cbn [andb] in H1', H2'. apply bytes_ltb_total; assumption.
Qed.

Lemma Header_ltb_key (a a' b : Header) :
  code a = code a' -> name a = name a' ->
  Header_ltb b a = Header_ltb b a'.
Proof. unfold Header_ltb. intros -> ->. reflexivity. Qed.

Lemma same_key_false (c : Z) (n : list byte) (h : Header) :
  same_key c n h = false -> (code h, name h) <> (c, n).
Proof.
  intros K E. inversion E; subst c n.
  unfold same_key in K. rewrite Z.eqb_refl, bytes_eqb_refl in K.
  discriminate.
Qed.

Lemma entry_keys_in (hs : list Header) :
  forall c n k,
    In k (entry_keys c n hs) ->
    exists h, In h hs /\ (code h, name h) = k.
Proof.
  induction hs as [|h t IH]; intros c n k Hin; [contradiction|].
  cbn [entry_keys] in Hin. apply in_app_or in Hin as [Hin | Hin].
  - destruct (same_key c n h); [contradiction|].
    destruct Hin as [<- | []]. exists h. split; [left|]; reflexivity.
  - destruct (IH _ _ _ Hin) as (h' & Hh & Hk).
    exists h'. split; [right; exact Hh | exact Hk].
Qed.

Lemma entry_keys_complete (hs : list Header) :
  forall c n h,
    In h hs ->
    (code h, name h) = (c, n) \/ In (code h, name h) (entry_keys c n hs).
Proof.
  induction hs as [|x t IH]; intros c n h Hin; [contradiction|].
  cbn [entry_keys].
  assert (Hx : (code x, name x) = (c, n)
               \/ In (code x, name x) (entry_keys c n (x :: t))).
  { cbn [entry_keys]. destruct (same_key c n x) eqn:K.
    - left. apply same_key_eq in K as [-> ->]. reflexivity.
    - right. left. reflexivity. }
  cbn [entry_keys] in Hx.
  destruct Hin as [-> | Hin]; [exact Hx|].
  destruct (IH (code x) (name x) h Hin) as [E | Hk].
  - rewrite E. exact Hx.
  - right. apply in_or_app. right. exact Hk.
Qed.

(** In a sorted list the key of the first header opens no entry after
    it. *)
Lemma entry_keys_sorted_head (t : list Header) :
  forall h,
    StronglySorted (fun a b => Header_ltb b a = false) (h :: t) ->
    ~ In (code h, name h) (entry_keys (code h) (name h) t).
Proof.
  induction t as [|x t IH]; intros h Hs Hin; [contradiction|].
  inversion Hs as [|h' t' Ht Hh]; subst h' t'.
  inversion Ht as [|x' t'' Ht' Hx]; subst x' t''.
  inversion Hh as [|x' t'' Hhx Hht]; subst x' t''.
  cbn [entry_keys] in Hin.
  destruct (same_key (code h) (name h) x) eqn:K.
  - apply same_key_eq in K as [Kc Kn].
    cbn [app] in Hin. rewrite <- Kc, <- Kn in Hin.
    exact (IH x Ht Hin).
  - assert (Hno : forall y, In y (x :: t) ->
                            (code y, name y) <> (code h, name h)).
    { intros y Hy E. inversion E as [[Ec En]].
      assert (Hxy : Header_ltb y x = false).
      { destruct Hy as [-> | Hy].
        - unfold Header_ltb.
          rewrite Z.ltb_irrefl, Z.eqb_refl. cbn [orb andb].
          destruct (bytes_ltb (name y) (name y)) eqn:B; [|reflexivity].
          pose proof (bytes_ltb_asym _ _ B). congruence.
        - rewrite Forall_forall in Hx. apply Hx. exact Hy. }
      assert (Hhx' : Header_ltb h x = false).
      { unfold Header_ltb in *. rewrite <- Ec, <- En. exact Hxy. }
      destruct (Header_ltb_total x h Hhx Hhx') as [E1 E2].
      apply same_key_false in K. apply K. congruence. }
    apply in_app_or in Hin as [Hin | Hin].
    + destruct Hin as [E | []]. apply (Hno x (or_introl eq_refl) E).
    + destruct (entry_keys_in _ _ _ _ Hin) as (y & Hy & E).
      apply (Hno y (or_intror Hy) E).
Qed.

Lemma entry_keys_nodup (hs : list Header) :
  forall c n,
    StronglySorted (fun a b => Header_ltb b a = false) hs ->
    NoDup (entry_keys c n hs).
Proof.
  induction hs as [|h t IH]; intros c n Hs; [constructor|].
  cbn [entry_keys].
  pose proof (entry_keys_sorted_head t h Hs) as Hh.
  inversion Hs as [|h' t' Ht _]; subst h' t'.
  destruct (same_key c n h); cbn [app]; [apply IH; exact Ht|].
  constructor; [exact Hh | apply IH; exact Ht].
Qed.

Lemma entry_keys_count (hs : list Header) :
  forall c n, len (entry_keys c n hs) = unique_names c n hs.
Proof.
  induction hs as [|h t IH]; intros c n; [reflexivity|].
  cbn [entry_keys unique_names]. rewrite len_app, IH.
  destruct (same_key c n h); reflexivity.
Qed.

(** X20.  One entry per key.  Whatever order the caller gave, the
    block [encode] serializes for headers none of which has the initial
    key (code of other names with the empty name) declares as many
    entries as the input has distinct (code, name) keys: after the sort
    equal keys are neighbours, so every key opens exactly one entry. *)
Theorem one_entry_per_key (W : nat) (HTTP_HEADER_OTHER : Z)
    (sort : list Header -> list Header) (hs : list Header) :
  sort_post hs (sort hs) ->
  (forall h, In h hs -> code h <> HTTP_HEADER_OTHER \/ name h <> []) ->
  exists ks,
    NoDup ks
    /\ (forall k, In k ks <-> exists h, In h hs /\ (code h, name h) = k)
    /\ unique_names HTTP_HEADER_OTHER [] (sort hs) = len ks
    /\ serialize W HTTP_HEADER_OTHER (sort hs)
       = Some (appendSize W (len ks mod 2 ^ 32)
                 ++ wire W HTTP_HEADER_OTHER [] (sort hs)).
Proof.
  intros [Hperm Hsorted] Hkey.
  exists (entry_keys HTTP_HEADER_OTHER [] (sort hs)).
  split; [apply entry_keys_nodup; exact Hsorted|].
  split; [|split; [symmetry; apply entry_keys_count|]].
  - intros k. split.
    + intros Hin. destruct (entry_keys_in _ _ _ _ Hin) as (h & Hh & E).
      exists h. split; [|exact E].
      apply (Permutation_in h (Permutation_sym Hperm) Hh).
    + intros (h & Hh & <-).
      destruct (entry_keys_complete (sort hs) HTTP_HEADER_OTHER [] h
                  (Permutation_in h Hperm Hh)) as [E | Hin];
        [|exact Hin].
      inversion E. destruct (Hkey h Hh); contradiction.
  - rewrite entry_keys_count. apply serialize_wire.
    intros h t E.
    destruct (same_key HTTP_HEADER_OTHER [] h) eqn:K; [|reflexivity].
    apply same_key_eq in K as [Kc Kn].
    assert (Hh : In h hs).
    { apply (Permutation_in h (Permutation_sym Hperm)).
      rewrite E. left. reflexivity. }
    destruct (Hkey h Hh); contradiction.
Qed.

Lemma one_entry_per_key_witness :
  sort_post scenario (sort_keeping scenario)
  /\ exists ks,
       NoDup ks
       /\ (forall k, In k ks
                     <-> exists h, In h scenario /\ (code h, name h) = k)
       /\ unique_names 1 [] (sort_keeping scenario) = len ks
       /\ serialize 4 1 (sort_keeping scenario)
          = Some (appendSize 4 (len ks mod 2 ^ 32)
                    ++ wire 4 1 [] (sort_keeping scenario)).
Proof.
  split; [apply sort_keeping_post|].
  apply (one_entry_per_key 4 1 sort_keeping scenario
           (sort_keeping_post scenario)).
  intros h Hin. right. simpl in Hin.
  repeat (destruct Hin as [<- | Hin]; [discriminate|]).
  contradiction.
Defined.

(* ------------------------------------------------------------------ *)
(** ** The names of the protocols *)

Lemma CodecProtocol_eqb_eq (a b : CodecProtocol) :
  CodecProtocol_eqb a b = true <-> a = b.
Proof. destruct a, b; simpl; split; congruence. Qed.

Lemma valid_name_cases (s : String.string) :
  isValidCodecProtocolStr s = true ->
  s = Names.http_1_1 \/ s = Names.spdy_2 \/ s = Names.spdy_3
  \/ s = Names.spdy_3_1 \/ s = Names.spdy_3_1_hpack \/ s = Names.http_2.
Proof.
  unfold isValidCodecProtocolStr. rewrite !orb_true_iff, !String.eqb_eq.
  tauto.
Qed.

(** X17.  The two conversions between protocols and their names are
    inverse to each other on the protocols: the name of every protocol
    is a valid name and reads back as that protocol, so no two protocols
    share a name. *)
Theorem protocol_name_round_trip (p : CodecProtocol) :
  getCodecProtocolFromStr (getCodecProtocolString p) = p
  /\ isValidCodecProtocolStr (getCodecProtocolString p) = true
  /\ (forall q, getCodecProtocolString q = getCodecProtocolString p -> q = p).
Proof.
  split; [destruct p; reflexivity|].
  split; [destruct p; reflexivity|].
  intros q; destruct p, q; intros E; try reflexivity;
    vm_compute in E; discriminate E.
Qed.

(** X18.  A string is a valid protocol name exactly when it is the name
    of some protocol; a valid name reads as the protocol it names, and
    every other string, the empty one and names in another case among
    them, reads as [HTTP_1_1], so that the reading of a string tells
    nothing about its validity. *)
Theorem protocol_of_string (s : String.string) :
  (isValidCodecProtocolStr s = true
   <-> exists p, s = getCodecProtocolString p)
  /\ (isValidCodecProtocolStr s = true ->
      getCodecProtocolString (getCodecProtocolFromStr s) = s)
  /\ (isValidCodecProtocolStr s = false ->
      getCodecProtocolFromStr s = HTTP_1_1)
  /\ (getCodecProtocolFromStr s = HTTP_1_1 <->
      s = Names.http_1_1 \/ isValidCodecProtocolStr s = false).
Proof.
  assert (Hname : forall p, isValidCodecProtocolStr
                              (getCodecProtocolString p) = true)
    by (intros p; destruct p; reflexivity).
  assert (Hback : isValidCodecProtocolStr s = true ->
                  getCodecProtocolString (getCodecProtocolFromStr s) = s).
  { intros H. apply valid_name_cases in H.
    destruct H as [-> | [-> | [-> | [-> | [-> | ->]]]]]; reflexivity. }
  assert (Hdef : isValidCodecProtocolStr s = false ->
                 getCodecProtocolFromStr s = HTTP_1_1).
  { unfold isValidCodecProtocolStr, getCodecProtocolFromStr.
    rewrite !orb_false_iff.
    intros (((((-> & ->) & ->) & ->) & ->) & ->). reflexivity. }
  split; [|split; [exact Hback | split; [exact Hdef|]]].
  - split.
    + intros H. exists (getCodecProtocolFromStr s). symmetry.
      apply Hback. exact H.
    + intros [p ->]. apply Hname.
  - split.
    + intros H.
      destruct (isValidCodecProtocolStr s) eqn:Ev; [left | right; reflexivity].
      rewrite <- (Hback eq_refl), H. reflexivity.
    + intros [-> | H]; [reflexivity | apply Hdef; exact H].
Qed.

(** X19.  Only the SPDY protocols have priorities: the maximum
    priority of a protocol is positive exactly when the protocol is a
    SPDY one, it is 3 for SPDY/2 only and 7 for the SPDY/3 family, and
    it fits three bits. *)
Theorem priorities_only_for_spdy (p : CodecProtocol) :
  (0 < maxProtocolPriority p <-> isSpdyCodecProtocol p = true)
  /\ 0 <= maxProtocolPriority p < 2 ^ 3
  /\ (maxProtocolPriority p = 3 <-> p = SPDY_2)
  /\ (maxProtocolPriority p = 7 <->
      p = SPDY_3 \/ p = SPDY_3_1 \/ p = SPDY_3_1_HPACK)
  /\ (isSpdyCodecProtocol p = false <-> p = HTTP_1_1 \/ p = HTTP_2).
Proof.
  destruct p;
    cbn [maxProtocolPriority isSpdyCodecProtocol CodecProtocol_eqb orb];
    repeat match goal with
           | |- _ /\ _ => split
           | |- _ <-> _ => split
           end;
    try lia;
    intuition (try discriminate; try lia; try reflexivity).
Qed.

(* ------------------------------------------------------------------ *)
(** ** The image [encode] serializes *)

Section ImageFacts.

Variable W : nat.
Variable HTTP_HEADER_OTHER : Z.

Lemma not_initial_key_fresh (hs : list Header) :
  (forall h t, hs = h :: t -> code h <> HTTP_HEADER_OTHER \/ name h <> []) ->
  fresh HTTP_HEADER_OTHER [] hs.
Proof.
  intros Hk h t E. destruct (same_key HTTP_HEADER_OTHER [] h) eqn:K;
    [|reflexivity].
  apply same_key_eq in K as [Kc Kn]. destruct (Hk h t E); contradiction.
Qed.

(** X1. The image the serialization loop writes for a list that does not
    start with the initial key (code of other names, empty name) is the
    count of distinct neighbouring keys, modulo 2^32, followed by one
    entry per run of headers with one key: the name in lowercase, then
    the values of the run joined by NUL under one length field. *)
Theorem serialized_image_layout (hs : list Header) :
  (forall h t, hs = h :: t -> code h <> HTTP_HEADER_OTHER \/ name h <> []) ->
  serialize W HTTP_HEADER_OTHER hs
  = Some (appendSize W (unique_names HTTP_HEADER_OTHER [] hs mod 2 ^ 32)
            ++ wire W HTTP_HEADER_OTHER [] hs).
Proof.
  intros Hk. apply serialize_wire. apply not_initial_key_fresh. exact Hk.
Qed.

Lemma len_appendSize (n : Z) : len (appendSize W n) = Z.of_nat W.
Proof. unfold len. rewrite length_appendSize. reflexivity. Qed.

Lemma len_map {A B : Type} (f : A -> B) (l : list A) :
  len (map f l) = len l.
Proof. unfold len. rewrite length_map. reflexivity. Qed.

Lemma len_wire (hs : list Header) :
  forall c n, len (wire W c n hs) = payload W hs - saved_bytes W c n hs.
Proof.
  induction hs as [|h t IH]; intros c n; cbn [wire payload fold_right
                                                  saved_bytes].
  - reflexivity.
  - fold (payload W t). destruct (same_key c n h) eqn:K.
    + apply same_key_eq in K as [Kc Kn].
      rewrite len_cons, len_app, IH, Kc, Kn. lia.
    + rewrite !len_app, !len_appendSize, len_map, IH. lia.
Qed.

Lemma saved_bytes_nonneg (hs : list Header) :
  (1 <= W)%nat -> forall c n, 0 <= saved_bytes W c n hs.
Proof.
  intros HW. induction hs as [|h t IH]; intros c n; cbn [saved_bytes].
  - lia.
  - specialize (IH (code h) (name h)). pose proof (len_nonneg (name h)).
    destruct (same_key c n h); lia.
Qed.

Lemma saved_bytes_zero (hs : list Header) :
  (1 <= W)%nat ->
  forall c n, saved_bytes W c n hs = 0 <-> unique_names c n hs = len hs.
Proof.
  intros HW. induction hs as [|h t IH]; intros c n;
    cbn [saved_bytes unique_names].
  - unfold len. simpl. tauto.
  - rewrite len_cons.
    pose proof (saved_bytes_nonneg t HW (code h) (name h)).
    pose proof (unique_names_le t (code h) (name h)).
    pose proof (len_nonneg (name h)).
    specialize (IH (code h) (name h)).
    destruct (same_key c n h).
    + split; intros E; lia.
    + rewrite Z.add_0_l, IH. split; intros E; lia.
Qed.

(** X2. The image is shorter than the size estimate by exactly the two
    length fields and the name, less one NUL, of every header that
    repeats the key of the one before it.  So the estimate is reached
    exactly when no two neighbours share a key, and combining values
    always uses less space than estimated. *)
Theorem image_length_exact (hs : list Header) (image : list byte) :
  (1 <= W)%nat ->
  serialize W HTTP_HEADER_OTHER hs = Some image ->
  len image = size_estimate W hs - saved_bytes W HTTP_HEADER_OTHER [] hs
  /\ 0 <= saved_bytes W HTTP_HEADER_OTHER [] hs
  /\ (len image = size_estimate W hs
      <-> unique_names HTTP_HEADER_OTHER [] hs = len hs).
Proof.
  intros HW Hs.
  assert (Hf : fresh HTTP_HEADER_OTHER [] hs).
  { intros h t E. destruct (same_key HTTP_HEADER_OTHER [] h) eqn:K;
      [|reflexivity].
    exfalso. apply same_key_eq in K as [Kc Kn].
    assert (Hn : serialize W HTTP_HEADER_OTHER hs = None)
      by (apply serialize_none; eauto).
    congruence. }
  rewrite serialize_wire in Hs by exact Hf.
  apply Some_inj in Hs. subst image.
  rewrite len_app, len_appendSize, len_wire. unfold size_estimate.
  pose proof (saved_bytes_nonneg hs HW HTTP_HEADER_OTHER []) as H0.
  split; [lia|]. split; [exact H0|].
  rewrite <- (saved_bytes_zero hs HW). lia.
Qed.

End ImageFacts.

Section EncodeOutcome.

Context {zlib : Zlib}.
Variable HTTP_HEADER_OTHER : Z.
Variable sort : list Header -> list Header.

(** X3. What a call of [encode] comes to, for a width of at least one
    byte.  The call fails to return only at the null length pointer of
    a first sorted header with the code of other names and an empty name,
    or at one of the two [CHECK]s after [deflate]; the scratch space it
    reserved is never too small.  When it returns, the output holds what
    [deflate] produced for the whole image, the last encoded sizes are
    the lengths of that output and of the image, the sink (if any) got
    one [recordEncode] with them, and everything else of the codec is
    as it was: the inflater, the last decoded sizes, [outHeaders_], the
    version settings, the cap and the headroom. *)
Theorem encode_outcome
    (c : GzipHeaderCodec) (tl : option IOBuf) (hs : list Header) :
  (forall l, Permutation l (sort l)) ->
  (1 <= nameValueSize (versionSettings_ c))%nat ->
  let W := nameValueSize (versionSettings_ c) in
  let run image :=
    deflate (deflater_ c) image (deflateBound (deflater_ c) (len image))
            Z_SYNC_FLUSH in
  match snd (encode HTTP_HEADER_OTHER sort c tl hs) with
  | None =>
      (exists h t, sort hs = h :: t
                   /\ code h = HTTP_HEADER_OTHER /\ name h = [])
      \/ (exists image,
             serialize W HTTP_HEADER_OTHER (sort hs) = Some image
             /\ (z_rc (run image) <> Z_OK \/ z_rest (run image) <> []))
  | Some eo =>
      exists image,
        serialize W HTTP_HEADER_OTHER (sort hs) = Some image
        /\ z_rc (run image) = Z_OK
        /\ z_rest (run image) = []
        /\ eo_bytes eo = z_out (run image)
        /\ eo_headroom eo = encodeHeadroom_ c
        /\ encodedSize_ (eo_codec eo)
           = {| compressed := len (z_out (run image));
                uncompressed := len image |}
        /\ stats_ (eo_codec eo)
           = record_stat
               (recordEncode {| compressed := len (z_out (run image));
                                uncompressed := len image |})
               (stats_ c)
        /\ deflater_ (eo_codec eo) = z_next (run image)
        /\ inflater_ (eo_codec eo) = inflater_ c
        /\ len image <= size_estimate W hs
        /\ decodedSize_ (eo_codec eo) = decodedSize_ c
        /\ outHeaders_ (eo_codec eo) = outHeaders_ c
        /\ versionSettings_ (eo_codec eo) = versionSettings_ c
        /\ maxUncompressed_ (eo_codec eo) = maxUncompressed_ c
        /\ encodeHeadroom_ (eo_codec eo) = encodeHeadroom_ c
  end.
Proof.
  intros Hperm HW W run. unfold encode. cbn [snd]. fold W.
  destruct (serialize W HTTP_HEADER_OTHER (sort hs)) as [image|] eqn:E.
  - pose proof (serialize_bound W HTTP_HEADER_OTHER _ _ HW E) as Hb.
    pose proof (reserve_capacity (maxUncompressedSize W (sort hs))
                  (getHeaderBuf c tl) (getHeaderBuf_empty c tl)) as Hcap.
    rewrite maxUncompressedSize_estimate in Hcap.
    destruct (Z.ltb_spec
                (capacity (reserve (maxUncompressedSize W (sort hs))
                             (getHeaderBuf c tl))) (len image)) as [Hlt|_].
    { rewrite maxUncompressedSize_estimate in Hlt. lia. }
    fold (run image).
    destruct (Z.eqb_spec (z_rc (run image)) Z_OK) as [Hrc|Hrc]; cbn [negb].
    + destruct (Z.eqb_spec (len (z_rest (run image))) 0) as [Hr|Hr];
        cbn [negb].
      * exists image. cbn [eo_bytes eo_headroom eo_codec encodedSize_ stats_
                             deflater_ inflater_ decodedSize_ outHeaders_
                             versionSettings_ maxUncompressed_
                             encodeHeadroom_].
        assert (Hnil : z_rest (run image) = []).
        { destruct (z_rest (run image)); [reflexivity|].
          rewrite len_cons in Hr. pose proof (len_nonneg l). lia. }
        rewrite (size_estimate_perm W hs (sort hs) (Hperm hs)).
        repeat split; auto.
      * right. exists image. split; [reflexivity|]. right. intros Hn.
        rewrite Hn in Hr. apply Hr. reflexivity.
    + right. exists image. split; [reflexivity|]. left. exact Hrc.
  - left. apply serialize_none in E. exact E.
Qed.

End EncodeOutcome.

Lemma encode_outcome_witness :
  (forall l, Permutation l (sort_keeping l))
  /\ (1 <= nameValueSize (versionSettings_ codec3))%nat
  /\ exists eo,
       snd (@encode stored_zlib 1 sort_keeping codec3 None scenario) = Some eo
       /\ encodedSize_ (eo_codec eo)
          = {| compressed := 36; uncompressed := 36 |}
       /\ stats_ (eo_codec eo)
          = Some [recordEncode {| compressed := 36; uncompressed := 36 |}]
       /\ decodedSize_ (eo_codec eo) = decodedSize_ codec3
       /\ outHeaders_ (eo_codec eo) = outHeaders_ codec3.
Proof.
  split; [apply sort_post_perm, sort_keeping_post|].
  split; [simpl; lia|].
  match eval vm_compute in
        (snd (@encode stored_zlib 1 sort_keeping codec3 None scenario)) with
  | Some ?e =>
      exists e;
      pose proof (@encode_outcome stored_zlib 1 sort_keeping codec3 None
                    scenario (sort_post_perm _ sort_keeping_post)
                    (le_S _ _ (le_S _ _ (le_S _ _ (le_n 1))))) as T;
      cbv zeta in T;
      change (snd (@encode stored_zlib 1 sort_keeping codec3 None scenario))
        with (Some e) in T;
      destruct T as (image & Hs & _ & _ & _ & _ & Hsize & Hstats & _ & _ & _
                     & Hdec & Hout & _)
  end.
  split; [reflexivity|].
  vm_compute in Hs. apply Some_inj in Hs. subst image.
  split; [exact Hsize|]. split; [exact Hstats|].
  split; [exact Hdec | exact Hout].
Defined.

Lemma serialized_image_layout_witness :
  (forall h t, sort_keeping scenario = h :: t -> code h <> 1 \/ name h <> [])
  /\ serialize 4 1 (sort_keeping scenario)
     = Some (bytes_of [0; 0; 0; 2;
                       0; 0; 0; 6; 97; 99; 99; 101; 112; 116;
                       0; 0; 0; 3; 42; 47; 42;
                       0; 0; 0; 4; 104; 111; 115; 116;
                       0; 0; 0; 3; 97; 0; 98]).
Proof.
  assert (Hk : forall h t, sort_keeping scenario = h :: t ->
                           code h <> 1 \/ name h <> []).
  { intros h t E. vm_compute in E. inversion E. right. discriminate. }
  split; [exact Hk|].
  rewrite (serialized_image_layout 4 1 (sort_keeping scenario) Hk).
  reflexivity.
Defined.

Lemma image_length_exact_witness :
  (1 <= 4)%nat
  /\ serialize 4 1 [x_a 1; x_b 1]
     = Some (bytes_of [0; 0; 0; 1; 0; 0; 0; 1; 120; 0; 0; 0; 3; 97; 0; 98])
  /\ size_estimate 4 [x_a 1; x_b 1] = 24
  /\ saved_bytes 4 1 [] [x_a 1; x_b 1] = 8
  /\ len (bytes_of [0; 0; 0; 1; 0; 0; 0; 1; 120; 0; 0; 0; 3; 97; 0; 98])
     = size_estimate 4 [x_a 1; x_b 1] - saved_bytes 4 1 [] [x_a 1; x_b 1].
Proof.
  split; [lia|]. split; [reflexivity|].
  split; [reflexivity|]. split; [reflexivity|].
  apply (image_length_exact 4 1 [x_a 1; x_b 1] _
           (le_S _ _ (le_S _ _ (le_S _ _ (le_n 1)))) eq_refl).
Defined.

(* ------------------------------------------------------------------ *)
(** ** Lowercasing of names *)

Lemma toLowerAscii_val (b : byte) :
  byte_val (toLowerAscii b)
  = if (65 <=? byte_val b) && (byte_val b <=? 90)
    then byte_val b + 32 else byte_val b.
Proof.
  unfold toLowerAscii. cbv zeta.
  destruct ((65 <=? byte_val b) && (byte_val b <=? 90)) eqn:E;
    [|reflexivity].
  apply andb_true_iff in E as [H1 H2]. apply Z.leb_le in H1, H2.
  rewrite byte_val_of_Z, Z.mod_small by lia. reflexivity.
Qed.

Lemma toLowerAscii_idem (b : byte) :
  toLowerAscii (toLowerAscii b) = toLowerAscii b.
Proof.
  apply byte_val_inj. rewrite (toLowerAscii_val (toLowerAscii b)).
  rewrite toLowerAscii_val.
  destruct ((65 <=? byte_val b) && (byte_val b <=? 90)) eqn:E.
  - apply andb_true_iff in E as [H1 H2]. apply Z.leb_le in H1, H2.
    destruct (Z.leb_spec 65 (byte_val b + 32));
      destruct (Z.leb_spec (byte_val b + 32) 90); simpl; lia.
  - rewrite E. reflexivity.
Qed.

Lemma map_toLowerAscii_idem (n : list byte) :
  map toLowerAscii (map toLowerAscii n) = map toLowerAscii n.
Proof.
  rewrite map_map. apply map_ext. intros b. apply toLowerAscii_idem.
Qed.

Lemma toLowerAscii_printable (b : byte) :
  printable b = true -> wire_name_char (toLowerAscii b) = true.
Proof.
  unfold printable, wire_name_char. cbv zeta. intros H.
  apply andb_true_iff in H as [H1 H2]. apply Z.leb_le in H1, H2.
  rewrite toLowerAscii_val.
  destruct ((65 <=? byte_val b) && (byte_val b <=? 90)) eqn:E.
  - apply andb_true_iff in E as [E1 E2]. apply Z.leb_le in E1, E2.
    repeat match goal with
           | |- context [?x <=? ?y] => destruct (Z.leb_spec x y)
           end; simpl; try reflexivity; lia.
  - rewrite E.
    repeat match goal with
           | |- context [?x <=? ?y] => destruct (Z.leb_spec x y)
           end; simpl; try reflexivity; lia.
Qed.

Lemma lower_header_wire (h : Header) :
  printable_header h -> wire_header (lower_header h).
Proof.
  intros (Hne & Hp & Hv & Hn). unfold wire_header, lower_header.
  cbn [name value]. repeat split; try assumption.
  - destruct (name h); [congruence | discriminate].
  - rewrite forallb_forall in *. intros b Hb.
    apply in_map_iff in Hb as (a & <- & Ha).
    apply toLowerAscii_printable, Hp, Ha.
Qed.

Section LowercaseFacts.

Variable W : nat.

Lemma case_consistent_same (c : Z) (n : list byte) (h : Header)
    (t : list Header) :
  same_key c n h = true ->
  case_consistent (code h) (name h) t -> case_consistent c n t.
Proof. intros K. apply same_key_eq in K as [-> ->]. auto. Qed.

Lemma run_len_lower (hs : list Header) :
  forall c n, case_consistent c n hs ->
  run_len c n hs
  = run_len c (map toLowerAscii n) (map lower_header hs).
Proof.
  induction hs as [|h t IH]; intros c n Hcc; [reflexivity|].
  destruct Hcc as [Hk Hcc]. cbn [map run_len]. rewrite <- Hk.
  destruct (same_key c n h) eqn:K; [|reflexivity].
  cbn [lower_header value]. rewrite (IH c n); [reflexivity|].
  eapply case_consistent_same; eassumption.
Qed.

Lemma unique_names_lower (hs : list Header) :
  forall c n, case_consistent c n hs ->
  unique_names c n hs
  = unique_names c (map toLowerAscii n) (map lower_header hs).
Proof.
  induction hs as [|h t IH]; intros c n Hcc; [reflexivity|].
  destruct Hcc as [Hk Hcc]. cbn [map unique_names]. rewrite <- Hk.
  cbn [lower_header code name]. rewrite (IH _ _ Hcc). reflexivity.
Qed.

Lemma wire_lower (hs : list Header) :
  forall c n, case_consistent c n hs ->
  wire W c n hs = wire W c (map toLowerAscii n) (map lower_header hs).
Proof.
  induction hs as [|h t IH]; intros c n Hcc; [reflexivity|].
  pose proof Hcc as [Hk Hcc']. cbn [map wire]. rewrite <- Hk.
  destruct (same_key c n h) eqn:K.
  - cbn [lower_header value]. rewrite (IH c n); [reflexivity|].
    eapply case_consistent_same; eassumption.
  - cbn [lower_header value name code].
    rewrite map_toLowerAscii_idem, len_map.
    rewrite (IH _ _ Hcc'), (run_len_lower t _ _ Hcc'). reflexivity.
Qed.

Lemma payload_lower (hs : list Header) :
  payload W (map lower_header hs) = payload W hs.
Proof.
  unfold payload. induction hs as [|h t IH]; [reflexivity|].
  cbn [map fold_right lower_header name value]. rewrite IH, len_map.
  reflexivity.
Qed.

Lemma fields_fit_lower (hs : list Header) :
  forall c n, case_consistent c n hs ->
  fields_fit W c n hs ->
  fields_fit W c (map toLowerAscii n) (map lower_header hs).
Proof.
  induction hs as [|h t IH]; intros c n Hcc Hfit; [exact I|].
  destruct Hcc as [Hk Hcc]. destruct Hfit as [Hh Hfit].
  cbn [map fields_fit]. rewrite <- Hk. split.
  - intros K. destruct (Hh K) as [Hn Hv].
    cbn [lower_header name value code]. rewrite len_map.
    rewrite <- (run_len_lower t _ _ Hcc). split; assumption.
  - cbn [lower_header name code]. apply IH; assumption.
Qed.

(** X5. Lowercasing.  For headers with nonempty printable names,
    uppercase letters allowed, and nonempty NUL-free values, of which no
    neighbour differs from the one before it only in the case of
    letters, and whose names, combined values and number of keys fit
    their length fields: the image [encode] serializes is the image of
    the headers with their names in lowercase, and the parser reads
    those headers from it, so that uppercase letters in a name are
    emitted lowercase on the wire and returned lowercase on decode, the
    values unchanged and in the order of the list. *)
Theorem lowercase_round_trip (signed_char : bool) (other : Z)
    (hs : list Header) :
  Forall printable_header hs ->
  case_consistent other [] hs ->
  fields_fit W other [] hs ->
  unique_names other [] hs < 256 ^ Z.of_nat W ->
  2 * unique_names other [] hs < 2 ^ 32 ->
  exists image,
    serialize W other hs = Some image
    /\ serialize W other (map lower_header hs) = Some image
    /\ image
       = appendSize W
           (unique_names other [] (map lower_header hs) mod 2 ^ 32)
           ++ wire W other [] (map lower_header hs)
    /\ parseNameValues W signed_char image []
       = (pieces other [] (map lower_header hs),
          ParseOk (expandedBytes other [] (map lower_header hs)))
    /\ pairs_of (pieces other [] (map lower_header hs))
       = map (fun h => (map toLowerAscii (name h), value h)) hs.
Proof.
  intros Hp Hcc Hfit Hu H2u.
  assert (Hwf : Forall wire_header (map lower_header hs)).
  { apply Forall_map. eapply Forall_impl; [|exact Hp].
    intros h. apply lower_header_wire. }
  assert (Hf : fresh other [] hs).
  { intros h t ->. inversion Hp as [|h' t' (Hne & _) _]; subst.
    unfold same_key. destruct (name h); [congruence|]. apply andb_false_r. }
  assert (Hf' : fresh other [] (map lower_header hs))
    by (apply wire_header_fresh; exact Hwf).
  pose proof (fields_fit_lower hs other [] Hcc Hfit) as Hfit'.
  cbn [map] in Hfit'.
  pose proof (unique_names_lower hs other [] Hcc) as Eu. cbn [map] in Eu.
  pose proof (wire_lower hs other [] Hcc) as Ew. cbn [map] in Ew.
  eexists. split; [|split; [|split; [reflexivity|split]]].
  - rewrite serialize_wire by exact Hf. rewrite Eu, Ew. reflexivity.
  - apply serialize_wire. exact Hf'.
  - rewrite <- (app_nil_r (wire W other [] (map lower_header hs))).
    apply parseNameValues_wire_fit; try assumption; rewrite <- Eu;
      assumption.
  - rewrite pairs_of_pieces. unfold header_pairs. rewrite map_map.
    reflexivity.
Qed.

Lemma printable_entry (signed_char : bool) (n : nat) (i : Z) (h : Header)
    (tail : list byte) (out : list HeaderPiece) (expanded : Z) :
  i mod 2 = 0 ->
  printable_header h ->
  len (name h) < 256 ^ Z.of_nat W ->
  len (value h) < 256 ^ Z.of_nat W ->
  parse_loop W signed_char (S (S n)) i None (plain_entry W h ++ tail)
    out expanded
  = parse_loop W signed_char n (((i + 1) mod 2 ^ 32 + 1) mod 2 ^ 32) None
      tail
      (out ++ [ {| str := map toLowerAscii (name h); owner := false;
                   multiValued := false |};
                {| str := value h; owner := false; multiValued := false |} ])
      expanded.
Proof.
  intros Hi Hp Hn Hv.
  pose proof (lower_header_wire h Hp) as (Hne & Hchars & Hvne & Hnul).
  cbn [lower_header name value] in *.
  pose proof (parse_entry W signed_char n i (map toLowerAscii (name h))
                (value h) [] tail out expanded Hi Hne Hchars) as E.
  cbn [run_bytes flat_map run_pieces run_expanded fold_right] in E.
  rewrite app_nil_r, map_toLowerAscii_idem, len_map, Z.add_0_r in E.
  unfold plain_entry. rewrite <- !app_assoc.
  apply E; [assumption | assumption | split; assumption | constructor].
Qed.

(** X4. Two neighbours that differ in code, or in name by the case of
    letters only, are not combined: the comparison that decides it runs
    on the names as given, before they are lowercased.  The image then
    declares two names and carries two entries with the same lowercase
    name, and the parser returns that name twice, with neither pair
    flagged multi-valued. *)
Theorem case_variants_are_not_combined (signed_char : bool) (other : Z)
    (h1 h2 : Header) :
  (1 <= W <= 4)%nat ->
  printable_header h1 -> printable_header h2 ->
  len (name h1) < 256 ^ Z.of_nat W -> len (value h1) < 256 ^ Z.of_nat W ->
  len (name h2) < 256 ^ Z.of_nat W -> len (value h2) < 256 ^ Z.of_nat W ->
  same_key (code h1) (name h1) h2 = false ->
  map toLowerAscii (name h1) = map toLowerAscii (name h2) ->
  serialize W other [h1; h2]
  = Some (appendSize W 2 ++ plain_entry W h1 ++ plain_entry W h2)
  /\ parseNameValues W signed_char
       (appendSize W 2 ++ plain_entry W h1 ++ plain_entry W h2) []
     = ([ {| str := map toLowerAscii (name h1); owner := false;
             multiValued := false |};
          {| str := value h1; owner := false; multiValued := false |};
          {| str := map toLowerAscii (name h1); owner := false;
             multiValued := false |};
          {| str := value h2; owner := false; multiValued := false |} ],
        ParseOk 0).
Proof.
  intros HW Hp1 Hp2 Hn1 Hv1 Hn2 Hv2 Hk Hlow.
  assert (Hpow : 2 < 256 ^ Z.of_nat W).
  { assert (256 ^ 1 <= 256 ^ Z.of_nat W)
      by (apply Z.pow_le_mono_r; lia). lia. }
  split.
  - assert (Hf : fresh other [] [h1; h2]).
    { intros h t E. inversion E; subst. destruct Hp1 as (Hne & _).
      unfold same_key. destruct (name h); [congruence|].
      apply andb_false_r. }
    rewrite serialize_wire by exact Hf.
    cbn [unique_names wire run_len]. rewrite (Hf h1 [h2] eq_refl), Hk.
    rewrite !Z.add_0_r, app_nil_r. unfold plain_entry.
    rewrite <- !app_assoc. reflexivity.
  - unfold parseNameValues. rewrite parseSize_appendSize by lia.
    change (Z.to_nat ((2 * 2) mod 2 ^ 32)) with 4%nat.
    rewrite (printable_entry signed_char 2 0 h1) by (auto; reflexivity).
    rewrite <- (app_nil_r (plain_entry W h2)).
    rewrite (printable_entry signed_char 0 _ h2)
      by (auto; apply next_even; reflexivity).
    cbn [parse_loop app]. rewrite Hlow. reflexivity.
Qed.

End LowercaseFacts.

Lemma lowercase_round_trip_witness :
  Forall printable_header [x_foo_upper]
  /\ case_consistent 1 [] [x_foo_upper]
  /\ exists image,
       serialize 4 1 [x_foo_upper] = Some image
       /\ serialize 4 1 (map lower_header [x_foo_upper]) = Some image
       /\ image
          = appendSize 4
              (unique_names 1 [] (map lower_header [x_foo_upper]) mod 2 ^ 32)
              ++ wire 4 1 [] (map lower_header [x_foo_upper])
       /\ parseNameValues 4 true image []
          = (pieces 1 [] (map lower_header [x_foo_upper]),
             ParseOk (expandedBytes 1 [] (map lower_header [x_foo_upper])))
       /\ pairs_of (pieces 1 [] (map lower_header [x_foo_upper]))
          = map (fun h => (map toLowerAscii (name h), value h))
                [x_foo_upper].
Proof.
  assert (Hp : Forall printable_header [x_foo_upper])
    by (repeat constructor; discriminate).
  assert (Hc : case_consistent 1 [] [x_foo_upper]) by (split; reflexivity).
  assert (Hfit : fields_fit 4 1 [] [x_foo_upper])
    by (vm_compute; repeat split; intros; reflexivity).
  split; [exact Hp|]. split; [exact Hc|].
  exact (lowercase_round_trip 4 true 1 [x_foo_upper] Hp Hc Hfit
           eq_refl eq_refl).
Defined.

Lemma case_variants_are_not_combined_witness :
  same_key (code x_foo_upper) (name x_foo_upper) x_foo_lower = false
  /\ map toLowerAscii (name x_foo_upper) = map toLowerAscii (name x_foo_lower)
  /\ serialize 4 1 [x_foo_upper; x_foo_lower]
     = Some (bytes_of [0; 0; 0; 2;
                       0; 0; 0; 5; 120; 45; 102; 111; 111; 0; 0; 0; 1; 49;
                       0; 0; 0; 5; 120; 45; 102; 111; 111; 0; 0; 0; 1; 50]).
Proof.
  split; [reflexivity|]. split; [reflexivity|].
  refine (proj1 (case_variants_are_not_combined 4 true 1 x_foo_upper
                   x_foo_lower
                   (conj (le_S _ _ (le_S _ _ (le_S _ _ (le_n 1)))) (le_n 4))
                   _ _ eq_refl eq_refl eq_refl eq_refl eq_refl eq_refl));
    repeat split; discriminate.
Defined.

Lemma parsed_pairs_are_valid_witness :
  parseNameValues 4 true block_two_segments []
  = ([ {| str := bytes_of [120]; owner := false; multiValued := false |};
       {| str := bytes_of [97]; owner := false; multiValued := false |};
       {| str := bytes_of [120]; owner := false; multiValued := true |};
       {| str := bytes_of [98]; owner := false; multiValued := true |} ],
     ParseOk 2)
  /\ exists es,
       [ {| str := bytes_of [120]; owner := false; multiValued := false |};
         {| str := bytes_of [97]; owner := false; multiValued := false |};
         {| str := bytes_of [120]; owner := false; multiValued := true |};
         {| str := bytes_of [98]; owner := false; multiValued := true |} ]
       = [] ++ flat_map entry_pieces es
       /\ Forall entry_ok es
       /\ flags_follow None es
       /\ 2 = flagged_bytes es.
Proof.
  split; [reflexivity|].
  exact (parsed_pairs_are_valid 4 true block_two_segments []
           [ {| str := bytes_of [120]; owner := false; multiValued := false |};
             {| str := bytes_of [97]; owner := false; multiValued := false |};
             {| str := bytes_of [120]; owner := false; multiValued := true |};
             {| str := bytes_of [98]; owner := false; multiValued := true |} ]
           2 eq_refl).
Defined.

(* ------------------------------------------------------------------ *)
(** ** Blocks the parser gives up on, and bytes it does not read *)


Section ParserOutcomes.

Context {zlib : Zlib}.
Variable HTTP_HEADER_OTHER : Z.
Variable signed_char : bool.





End ParserOutcomes.




(* ------------------------------------------------------------------ *)
(** ** The round trip over the stand-in for zlib *)

Lemma stored_copy_all (s : StoredStream) (input : list byte) (avail : Z) :
  input <> [] -> len input <= avail ->
  stored_copy s input avail
  = {| z_rc := Z_OK; z_next := s; z_rest := []; z_out := input |}.
Proof.
  intros Hne Hlen. unfold stored_copy.
  destruct input as [|b input]; [congruence|].
  assert (Hn : (length (b :: input) <= Z.to_nat avail)%nat)
    by (unfold len in Hlen; lia).
  rewrite (skipn_all2 _ Hn), (firstn_all2 _ Hn). reflexivity.
Qed.

Lemma stored_inflate_dict (s : StoredStream) (input : list byte)
    (avail flush : Z) :
  ss_needs_dict s = true ->
  @inflate stored_zlib s input avail flush
  = {| z_rc := Z_NEED_DICT; z_next := s; z_rest := input; z_out := [] |}.
Proof. intros H. cbn [inflate stored_zlib]. rewrite H. reflexivity. Qed.

Lemma stored_inflate_copy (s : StoredStream) (input : list byte)
    (avail flush : Z) :
  ss_needs_dict s = false ->
  input <> [] -> len input <= avail ->
  @inflate stored_zlib s input avail flush
  = {| z_rc := Z_OK; z_next := s; z_rest := []; z_out := input |}.
Proof.
  intros H Hne Hlen. cbn [inflate stored_zlib]. rewrite H.
  apply stored_copy_all; assumption.
Qed.

Section StoredPasses.

Variable c : @GzipHeaderCodec stored_zlib.

(** The pass in which a fresh inflater asks for the dictionary. *)
Lemma stored_pass_dict (st : @InflState stored_zlib) :
  ss_needs_dict (i_stream st) = true ->
  tailroom (i_buf st) <> 0 ->
  i_in st <> [] ->
  inflate_body c st
  = Again (@Build_InflState stored_zlib
             {| ss_params := ss_params (i_stream st);
                ss_dict := Some (dict (versionSettings_ c));
                ss_needs_dict := false |}
             (i_buf st) (i_in st) 0).
Proof.
  intros Hd Ht Hin. unfold inflate_body.
  rewrite (proj2 (Z.eqb_neq _ _) Ht). cbv zeta.
  rewrite stored_inflate_dict by exact Hd.
  cbn [z_rc z_next z_rest z_out inflateSetDictionary stored_zlib].
  change (Z_NEED_DICT =? Z_NEED_DICT) with true.
  change (negb (Z_OK =? Z_OK)) with false. cbv iota.
  unfold loop_test. cbn [i_in i_avail_out].
  pose proof (len_pos _ Hin) as Hp.
  replace (len (i_in st) >? 0) with true
    by (symmetry; rewrite Z.gtb_ltb; apply Z.ltb_lt; lia).
  reflexivity.
Qed.

(** The pass that copies the whole input. *)
Lemma stored_pass_copy (st : @InflState stored_zlib) :
  ss_needs_dict (i_stream st) = false ->
  i_in st <> [] ->
  len (i_in st) <= tailroom (i_buf st) ->
  len (data (i_buf st)) + len (i_in st) <= maxUncompressed_ c ->
  inflate_body c st
  = Exit (@Build_InflState stored_zlib (i_stream st)
            (append (i_in st) (i_buf st)) []
            (tailroom (i_buf st) - len (i_in st))).
Proof.
  intros Hd Hin Hroom Hcap. unfold inflate_body.
  pose proof (len_pos _ Hin) as Hp.
  rewrite (proj2 (Z.eqb_neq (tailroom (i_buf st)) 0)) by lia. cbv zeta.
  rewrite stored_inflate_copy by assumption.
  cbn [z_rc z_next z_rest z_out].
  change (Z_OK =? Z_NEED_DICT) with false.
  change (negb (Z_OK =? 0)) with false. cbv iota.
  cbn [i_buf append data]. rewrite len_app.
  replace (len (data (i_buf st)) + len (i_in st) >? maxUncompressed_ c)
    with false
    by (symmetry; rewrite Z.gtb_ltb; apply Z.ltb_ge; lia).
  unfold loop_test. cbn [i_in i_avail_out]. reflexivity.
Qed.

(** The decompression loops on one buffer that holds [image]. *)
Lemma stored_inflate_chunks (tl : option IOBuf) (image : list byte) :
  ss_needs_dict (inflater_ c) = true ->
  image <> [] ->
  len image <= maxUncompressed_ c ->
  len image < 2 ^ 32 ->
  exists r,
    inflate_chunks 2 c [image] (len image) 0 (inflate_start c tl)
    = Some (Ok r)
    /\ data (i_buf (in_state r)) = image
    /\ in_consumed r = len image.
Proof.
  intros Hd Hne Hcap H32.
  pose proof (len_pos _ Hne) as Hp.
  pose proof (inflate_start_buf_ok c tl) as [_ Hroom].
  assert (Hpeek : peek [image] = image)
    by (destruct image; [congruence | reflexivity]).
  assert (Hcl : chunk_len [image] (len image) = len image).
  { unfold chunk_len. rewrite Hpeek, Z.mod_small by lia. lia. }
  rewrite inflate_chunks_unfold by lia.
  unfold enter_chunk. rewrite Hcl, Hpeek, Z_to_nat_len, firstn_all.
  cbn [inflate_loop].
  pose proof (getHeaderBuf_empty c tl) as He.
  assert (Ht : tailroom (i_buf (inflate_start c tl)) = capacity (getHeaderBuf c tl)).
  { unfold tailroom, inflate_start. cbn [i_buf]. rewrite He.
    change (len (@nil byte)) with 0. lia. }
  cbn [inflate_start i_buf i_stream] in Hroom, Ht.
  rewrite stored_pass_dict;
    [ | exact Hd | cbn [i_buf inflate_start]; lia | exact Hne ].
  cbn [i_stream i_buf i_in inflate_start].
  rewrite stored_pass_copy;
    [ | reflexivity | exact Hne
      | cbn [i_buf i_in]; lia
      | cbn [i_buf i_in]; rewrite He; change (len (@nil byte)) with 0; lia ].
  cbn [i_stream i_buf i_in].
  rewrite inflate_chunks_done
    by (rewrite Z.gtb_ltb; apply Z.ltb_ge; lia).
  eexists. split; [reflexivity|].
  cbn [in_state in_consumed i_buf append data]. rewrite He.
  split; [reflexivity|]. rewrite Z.mod_small by lia. lia.
Qed.

End StoredPasses.

Section StoredRoundTrip.

Variable HTTP_HEADER_OTHER : Z.
Variable signed_char : bool.
Variable sort : list Header -> list Header.

(** X21.  Over the stand-in for zlib that stores bytes as they are,
    [encode] followed by [decode] returns for every list of valid
    headers whose size estimate fits the wire integer and the cap: the
    encoder's output is the serialized image, two passes of the
    decompression loop (one for the dictionary, one for the bytes) put
    it back into the scratch buffer the encoder left, and [decode]
    returns one pair per header, in sorted order, having consumed the
    whole block. *)
Theorem stored_round_trip
    (vs : SPDYVersionSettings) (cap : Z) (stats : option (list StatsCall))
    (tl : option IOBuf) (H : list Header) :
  (forall l, sort_post l (sort l)) ->
  let W := nameValueSize vs in
  let c := stored_codec vs cap stats in
  (1 <= W <= 4)%nat ->
  Forall wire_header H ->
  size_estimate W H < 256 ^ Z.of_nat W ->
  size_estimate W H <= cap ->
  expandedBytes HTTP_HEADER_OTHER [] (sort H) <= kMaxExpandedHeaderLineBytes ->
  exists eo out,
    snd (encode HTTP_HEADER_OTHER sort c tl H) = Some eo
    /\ eo_bytes eo
       = appendSize W (unique_names HTTP_HEADER_OTHER [] (sort H) mod 2 ^ 32)
           ++ wire W HTTP_HEADER_OTHER [] (sort H)
    /\ decode signed_char 2 (eo_codec eo) (eo_scratch eo) [eo_bytes eo]
         (len (eo_bytes eo))
       = Some out
    /\ do_result out
       = Ok {| headers := pieces HTTP_HEADER_OTHER [] (sort H);
               bytesConsumed := len (eo_bytes eo) |}.
Proof.
  intros Hsort W c HW Hwf Hsize Hcap Hexp.
  destruct (Hsort H) as [Hperm Hsorted].
  assert (Hwf' : Forall wire_header (sort H))
    by (eapply Permutation_Forall; eassumption).
  assert (Hfresh : fresh HTTP_HEADER_OTHER [] (sort H))
    by (apply wire_header_fresh; assumption).
  pose proof (serialize_wire W HTTP_HEADER_OTHER (sort H) Hfresh) as Hser.
  set (image := appendSize W
                  (unique_names HTTP_HEADER_OTHER [] (sort H) mod 2 ^ 32)
                  ++ wire W HTTP_HEADER_OTHER [] (sort H)) in *.
  assert (Hne : image <> [])
    by (apply appendSize_app_nonempty; lia).
  pose proof (serialize_bound W HTTP_HEADER_OTHER _ _ (proj1 HW) Hser) as Hb.
  rewrite <- (size_estimate_perm W H (sort H) Hperm) in Hb.
  assert (Hpow : 256 ^ Z.of_nat W <= 2 ^ 32).
  { change (2 ^ 32) with (256 ^ Z.of_nat 4).
    apply Z.pow_le_mono_r; lia. }
  (* encode *)
  assert (Henc : exists eo,
             snd (encode HTTP_HEADER_OTHER sort c tl H) = Some eo
             /\ eo_bytes eo = image
             /\ inflater_ (eo_codec eo) = inflater_ c
             /\ maxUncompressed_ (eo_codec eo) = cap
             /\ versionSettings_ (eo_codec eo) = vs).
  { unfold encode. cbn [snd].
    change (nameValueSize (versionSettings_ c)) with W. rewrite Hser.
    rewrite maxUncompressedSize_estimate.
    pose proof (reserve_capacity (size_estimate W (sort H))
                  (getHeaderBuf c tl) (getHeaderBuf_empty c tl)) as Hres.
    pose proof (size_estimate_perm W H (sort H) Hperm) as Hsz.
    replace (capacity (reserve (size_estimate W (sort H))
                         (getHeaderBuf c tl)) <? len image)
      with false by (symmetry; apply Z.ltb_ge; lia).
    cbn [deflate deflateBound stored_zlib].
    rewrite stored_copy_all by (try assumption; lia).
    cbn [z_rc z_rest z_out z_next].
    change (negb (Z_OK =? Z_OK)) with false.
    change (negb (len (@nil byte) =? 0)) with false. cbv iota.
    eexists. split; [reflexivity|].
    cbn [eo_bytes eo_codec inflater_ maxUncompressed_ versionSettings_].
    repeat split. }
  destruct Henc as (eo & Henc & Hbytes & Hinfl & Hmax & Hvs).
  (* decode *)
  assert (Hl : (len (eo_bytes eo) =? 0) = false).
  { rewrite Hbytes. apply Z.eqb_neq. pose proof (len_pos _ Hne). lia. }
  destruct (stored_inflate_chunks (eo_codec eo) (eo_scratch eo) image)
    as (r & Hr & Hdata & Hcons).
  { rewrite Hinfl. reflexivity. }
  { exact Hne. }
  { rewrite Hmax. lia. }
  { lia. }
  exists eo, (decoded signed_char (eo_codec eo) r).
  split; [exact Henc|]. split; [exact Hbytes|]. split.
  - apply decode_inflated; [exact Hl|]. rewrite Hbytes. exact Hr.
  - unfold decoded. cbn [do_result]. rewrite Hvs, Hdata, Hcons, Hbytes.
    fold W. unfold image.
    rewrite parseNameValues_wire;
      [ | assumption | assumption | assumption
        | rewrite <- (size_estimate_perm W H (sort H) Hperm); assumption ].
    cbn [fst snd].
    destruct (Z.gtb_spec (expandedBytes HTTP_HEADER_OTHER [] (sort H))
                kMaxExpandedHeaderLineBytes); [lia | reflexivity].
Qed.

End StoredRoundTrip.

Lemma stored_round_trip_witness :
  (forall l, sort_post l (sort_keeping l))
  /\ Forall wire_header scenario
  /\ exists eo out,
       snd (@encode stored_zlib 1 sort_keeping
              (stored_codec spdy3 131072 None) None scenario) = Some eo
       /\ eo_bytes eo
          = appendSize 4 (unique_names 1 [] (sort_keeping scenario) mod 2 ^ 32)
              ++ wire 4 1 [] (sort_keeping scenario)
       /\ @decode stored_zlib true 2 (eo_codec eo) (eo_scratch eo)
            [eo_bytes eo] (len (eo_bytes eo))
          = Some out
       /\ do_result out
          = Ok {| headers := pieces 1 [] (sort_keeping scenario);
                  bytesConsumed := len (eo_bytes eo) |}.
Proof.
  assert (Hwf : Forall wire_header scenario)
    by (repeat constructor; discriminate).
  split; [exact sort_keeping_post|]. split; [exact Hwf|].
  refine (stored_round_trip 1 true sort_keeping spdy3 131072 None None
            scenario sort_keeping_post _ Hwf _ _ _).
  - simpl. lia.
  - vm_compute. reflexivity.
  - vm_compute. discriminate.
  - vm_compute. discriminate.
Defined.

(* ================================================================== *)
(** * Round trip *)

Section RoundTrip.

Context {zlib : Zlib}.
Variable HTTP_HEADER_OTHER : Z.
Variable signed_char : bool.
Variable sort : list Header -> list Header.

(** What a call of [encode] that returned has passed. *)
Lemma encode_returned (c : GzipHeaderCodec) (tl : option IOBuf)
    (hs : list Header) (eo : EncodeOut) :
  snd (encode HTTP_HEADER_OTHER sort c tl hs) = Some eo ->
  exists image,
    serialize (nameValueSize (versionSettings_ c)) HTTP_HEADER_OTHER (sort hs)
    = Some image
    /\ z_rc (deflate (deflater_ c) image
               (deflateBound (deflater_ c) (len image)) Z_SYNC_FLUSH) = Z_OK
    /\ z_rest (deflate (deflater_ c) image
                 (deflateBound (deflater_ c) (len image)) Z_SYNC_FLUSH) = []
    /\ eo_bytes eo
       = z_out (deflate (deflater_ c) image
                  (deflateBound (deflater_ c) (len image)) Z_SYNC_FLUSH).
Proof.
  unfold encode. cbn [snd].
  destruct (serialize (nameValueSize (versionSettings_ c)) HTTP_HEADER_OTHER
              (sort hs)) as [image|]; [|discriminate].
  destruct (capacity _ <? len image); [discriminate|].
  set (r := deflate (deflater_ c) image
              (deflateBound (deflater_ c) (len image)) Z_SYNC_FLUSH).
  destruct (Z.eqb_spec (z_rc r) Z_OK) as [Hrc|]; cbn [negb]; [|discriminate].
  destruct (Z.eqb_spec (len (z_rest r)) 0) as [Hr|]; cbn [negb];
    [|discriminate].
  assert (Hnil : z_rest r = []).
  { revert Hr. destruct (z_rest r) as [|b l]; [reflexivity|].
    rewrite len_cons. pose proof (len_nonneg l). lia. }
  intros E. apply Some_inj in E. subst eo. cbn [eo_bytes].
  exists image. split; [reflexivity|]. split; [exact Hrc|].
  split; [exact Hnil | reflexivity].
Qed.

Variable c : GzipHeaderCodec.

(** The pass in which [inflate] asks for the dictionary. *)
Lemma pass_asks_dictionary (st : InflState) :
  tailroom (i_buf st) <> 0 ->
  z_rc (inflate (i_stream st) (i_in st) (tailroom (i_buf st)) Z_NO_FLUSH)
  = Z_NEED_DICT ->
  z_rest (inflate (i_stream st) (i_in st) (tailroom (i_buf st)) Z_NO_FLUSH)
  <> [] ->
  fst (inflateSetDictionary
         (z_next (inflate (i_stream st) (i_in st) (tailroom (i_buf st))
                    Z_NO_FLUSH))
         (dict (versionSettings_ c))) = Z_OK ->
  inflate_body c st
  = Again
      {| i_stream :=
           snd (inflateSetDictionary
                  (z_next (inflate (i_stream st) (i_in st)
                             (tailroom (i_buf st)) Z_NO_FLUSH))
                  (dict (versionSettings_ c)));
         i_buf := i_buf st;
         i_in := z_rest (inflate (i_stream st) (i_in st)
                           (tailroom (i_buf st)) Z_NO_FLUSH);
         i_avail_out := 0 |}.
Proof.
  intros Ht Hrc Hrest Hd. unfold inflate_body.
  rewrite (proj2 (Z.eqb_neq _ _) Ht). cbv zeta.
  set (a := inflate (i_stream st) (i_in st) (tailroom (i_buf st)) Z_NO_FLUSH)
    in *.
  rewrite Hrc. change (Z_NEED_DICT =? Z_NEED_DICT) with true. cbv iota.
  destruct (inflateSetDictionary (z_next a) (dict (versionSettings_ c)))
    as [r' s'].
  cbn [fst snd] in *. subst r'.
  change (negb (Z_OK =? Z_OK)) with false. cbv iota.
  unfold loop_test. cbn [i_in i_avail_out].
  pose proof (len_pos _ Hrest) as Hp.
  replace (len (z_rest a) >? 0) with true
    by (symmetry; rewrite Z.gtb_ltb; apply Z.ltb_lt; lia).
  reflexivity.
Qed.

(** The pass in which [inflate] stores the rest of the output. *)
Lemma pass_inflates (st : InflState) :
  tailroom (i_buf st) <> 0 ->
  z_rc (inflate (i_stream st) (i_in st) (tailroom (i_buf st)) Z_NO_FLUSH)
  = Z_OK ->
  z_rest (inflate (i_stream st) (i_in st) (tailroom (i_buf st)) Z_NO_FLUSH)
  = [] ->
  len (data (i_buf st))
  + len (z_out (inflate (i_stream st) (i_in st) (tailroom (i_buf st))
                  Z_NO_FLUSH))
  <= maxUncompressed_ c ->
  inflate_body c st
  = Exit
      {| i_stream := z_next (inflate (i_stream st) (i_in st)
                               (tailroom (i_buf st)) Z_NO_FLUSH);
         i_buf := append (z_out (inflate (i_stream st) (i_in st)
                                   (tailroom (i_buf st)) Z_NO_FLUSH))
                         (i_buf st);
         i_in := [];
         i_avail_out :=
           tailroom (i_buf st)
           - len (z_out (inflate (i_stream st) (i_in st)
                           (tailroom (i_buf st)) Z_NO_FLUSH)) |}.
Proof.
  intros Ht Hrc Hrest Hcap. unfold inflate_body.
  rewrite (proj2 (Z.eqb_neq _ _) Ht). cbv zeta.
  set (a := inflate (i_stream st) (i_in st) (tailroom (i_buf st)) Z_NO_FLUSH)
    in *.
  rewrite Hrc, Hrest.
  change (Z_OK =? Z_NEED_DICT) with false.
  change (negb (Z_OK =? 0)) with false. cbv iota.
  cbn [i_buf append data]. rewrite len_app.
  replace (len (data (i_buf st)) + len (z_out a) >? maxUncompressed_ c)
    with false
    by (symmetry; rewrite Z.gtb_ltb; apply Z.ltb_ge; lia).
  unfold loop_test. cbn [i_in i_avail_out]. reflexivity.
Qed.

(** The decompression loops of [decode] on one buffer that zlib
    inflates back to [image]. *)
Lemma inflates_back_chunks (tl : option IOBuf) (input image : list byte)
    (fuel : nat) :
  (2 <= fuel)%nat ->
  input <> [] ->
  len input < 2 ^ 32 ->
  image <> [] ->
  len image <= maxUncompressed_ c ->
  inflates_back (inflater_ c) (dict (versionSettings_ c)) input
    (capacity (getHeaderBuf c tl)) image ->
  exists r,
    inflate_chunks fuel c [input] (len input) 0 (inflate_start c tl)
    = Some (Ok r)
    /\ data (i_buf (in_state r)) = image
    /\ in_consumed r = len input.
Proof.
  intros Hfuel Hin H32 Hne Hcap Hback.
  destruct fuel as [|[|fuel]]; [lia | lia |].
  pose proof (len_pos _ Hin) as Hpi.
  pose proof (len_pos _ Hne) as Hp.
  pose proof (inflate_start_buf_ok c tl) as [_ Hroom].
  pose proof (getHeaderBuf_empty c tl) as He.
  assert (Hpeek : peek [input] = input)
    by (destruct input; [congruence | reflexivity]).
  assert (Hcl : chunk_len [input] (len input) = len input).
  { unfold chunk_len. rewrite Hpeek, Z.mod_small by lia. lia. }
  rewrite inflate_chunks_unfold by lia.
  unfold enter_chunk. rewrite Hcl, Hpeek, Z_to_nat_len, firstn_all.
  cbn [inflate_start i_buf i_stream] in *.
  assert (Ht : tailroom (getHeaderBuf c tl) = capacity (getHeaderBuf c tl)).
  { unfold tailroom. rewrite He. change (len (@nil byte)) with 0. lia. }
  assert (Hmod : (0 + len input) mod 2 ^ 32 = len input)
    by (rewrite Z.mod_small; lia).
  unfold inflates_back in Hback. cbv zeta in Hback. rewrite <- Ht in Hback.
  destruct Hback as [(Hrc & Hrest & Hout)
                    | (Hrc & Hrest & Hd & Hrc2 & Hrest2 & Hout)].
  - cbn [inflate_loop].
    rewrite pass_inflates; cbn [i_stream i_buf i_in];
      [ | lia | exact Hrc | exact Hrest
        | rewrite He, Hout; change (len (@nil byte)) with 0; lia ].
    rewrite inflate_chunks_done
      by (rewrite Z.gtb_ltb; apply Z.ltb_ge; lia).
    eexists. split; [reflexivity|].
    cbn [in_state in_consumed i_buf append data].
    rewrite He, Hout. split; [reflexivity | exact Hmod].
  - cbn [inflate_loop].
    rewrite pass_asks_dictionary; cbn [i_stream i_buf i_in];
      [ | lia | exact Hrc | exact Hrest | exact Hd ].
    rewrite pass_inflates; cbn [i_stream i_buf i_in];
      [ | lia | exact Hrc2 | exact Hrest2
        | rewrite He, Hout; change (len (@nil byte)) with 0; lia ].
    rewrite inflate_chunks_done
      by (rewrite Z.gtb_ltb; apply Z.ltb_ge; lia).
    eexists. split; [reflexivity|].
    cbn [in_state in_consumed i_buf append data].
    rewrite He, Hout. split; [reflexivity | exact Hmod].
Qed.

End RoundTrip.

Section RoundTripLaw.

Context {zlib : Zlib}.
Variable HTTP_HEADER_OTHER : Z.
Variable signed_char : bool.
Variable sort : list Header -> list Header.

(** C1, as the code has it.  Let [H] be a list of header pairs whose
    names are nonempty lowercase printable ASCII and whose values are
    nonempty and free of NUL, such that every length field holds its
    value (each name, and the values of each key joined by NUL, are
    shorter than 256^W, and so is the number of keys), the image fits
    the cap of the decoder and the bytes of the repeated pairs stay
    within the 80 KiB ceiling.  With a zlib whose inflate stream gives
    back what its deflate stream was given, [decode] on the block a
    returning [encode] produced returns one (name, value) pair per pair
    of [H] and has consumed the whole block.  The pairs come in the
    order [std::sort] left the list in: a rearrangement of [H] sorted by
    (code, name), so that equal keys are neighbours and the values of
    one key follow each other in the order the sort gave them. *)
Theorem round_trip
    (enc dec : GzipHeaderCodec) (tl tl' : option IOBuf) (H : list Header)
    (eo : EncodeOut) (fuel : nat) :
  (forall l, sort_post l (sort l)) ->
  let W := nameValueSize (versionSettings_ dec) in
  let image :=
    appendSize W (unique_names HTTP_HEADER_OTHER [] (sort H) mod 2 ^ 32)
      ++ wire W HTTP_HEADER_OTHER [] (sort H) in
  nameValueSize (versionSettings_ enc) = W ->
  (1 <= W)%nat ->
  Forall wire_header H ->
  fields_fit W HTTP_HEADER_OTHER [] (sort H) ->
  unique_names HTTP_HEADER_OTHER [] (sort H) < 256 ^ Z.of_nat W ->
  2 * unique_names HTTP_HEADER_OTHER [] (sort H) < 2 ^ 32 ->
  expandedBytes HTTP_HEADER_OTHER [] (sort H) <= kMaxExpandedHeaderLineBytes ->
  len image <= maxUncompressed_ dec ->
  zlib_inverts (deflater_ enc) (inflater_ dec) (dict (versionSettings_ dec)) ->
  snd (encode HTTP_HEADER_OTHER sort enc tl H) = Some eo ->
  len (eo_bytes eo) < 2 ^ 32 ->
  (2 <= fuel)%nat ->
  exists out,
    decode signed_char fuel dec tl' [eo_bytes eo] (len (eo_bytes eo))
    = Some out
    /\ do_result out
       = Ok {| headers := pieces HTTP_HEADER_OTHER [] (sort H);
               bytesConsumed := len (eo_bytes eo) |}
    /\ pairs_of (pieces HTTP_HEADER_OTHER [] (sort H)) = header_pairs (sort H)
    /\ Permutation (header_pairs H) (header_pairs (sort H))
    /\ StronglySorted (fun a b => Header_ltb b a = false) (sort H).
Proof.
  intros Hsort W image HW HW1 Hwf Hfit Hu H2u Hexp Hcap Hzlib Henc H32 Hfuel.
  destruct (Hsort H) as [Hperm Hsorted].
  assert (Hwf' : Forall wire_header (sort H))
    by (eapply Permutation_Forall; eassumption).
  assert (Hfresh : fresh HTTP_HEADER_OTHER [] (sort H))
    by (apply wire_header_fresh; assumption).
  assert (Hne : image <> [])
    by (apply appendSize_app_nonempty; exact HW1).
  (* what encode returned *)
  destruct (encode_returned HTTP_HEADER_OTHER sort enc tl H eo Henc)
    as (image0 & Hser & Hrc & Hrest & Hbytes).
  rewrite HW, serialize_wire in Hser by exact Hfresh.
  apply Some_inj in Hser. fold image in Hser. subst image0.
  (* what zlib makes of it *)
  pose proof (inflate_start_buf_ok dec tl') as [_ Hroom].
  cbn [inflate_start i_buf] in Hroom.
  destruct (Hzlib image (capacity (getHeaderBuf dec tl')) Hne
              ltac:(lia) Hrc Hrest) as [Hout Hback].
  rewrite <- Hbytes in Hout, Hback.
  destruct (inflates_back_chunks dec tl' (eo_bytes eo) image fuel
              Hfuel Hout H32 Hne Hcap Hback) as (r & Hr & Hdata & Hcons).
  (* decode *)
  assert (Hl : (len (eo_bytes eo) =? 0) = false).
  { apply Z.eqb_neq. pose proof (len_pos _ Hout). lia. }
  exists (decoded signed_char dec r).
  split; [apply decode_inflated; assumption|].
  split.
  - unfold decoded. cbn [do_result]. fold W. rewrite Hdata, Hcons.
    unfold image.
    rewrite <- (app_nil_r (wire W HTTP_HEADER_OTHER [] (sort H))).
    rewrite parseNameValues_wire_fit by assumption.
    cbn [fst snd].
    destruct (Z.gtb_spec (expandedBytes HTTP_HEADER_OTHER [] (sort H))
                kMaxExpandedHeaderLineBytes); [lia | reflexivity].
  - split; [apply pairs_of_pieces|]. split; [|assumption].
    unfold header_pairs. apply Permutation_map. assumption.
Qed.

End RoundTripLaw.

(** The stand-in for zlib meets the contract of the round trip, for any
    deflate stream and an inflate stream that has not got its
    dictionary. *)
Lemma stored_zlib_inverts (d i : StoredStream) (dictionary : list byte) :
  ss_needs_dict i = true ->
  @zlib_inverts stored_zlib d i dictionary.
Proof.
  intros Hd image avail Hne Hlen. cbv zeta.
  cbn [deflate deflateBound stored_zlib].
  rewrite stored_copy_all by (try assumption; lia).
  cbn [z_rc z_rest z_out]. intros _ _. split; [exact Hne|].
  unfold inflates_back. cbv zeta. right.
  rewrite stored_inflate_dict by exact Hd.
  cbn [z_rc z_rest z_next inflateSetDictionary stored_zlib fst snd].
  rewrite stored_inflate_copy by (try assumption; reflexivity).
  cbn [z_rc z_rest z_out]. repeat split. exact Hne.
Qed.

Lemma round_trip_witness :
  exists eo,
    (forall l, sort_post l (sort_keeping l))
    /\ Forall wire_header scenario
    /\ snd (@encode stored_zlib 1 sort_keeping codec3 None scenario) = Some eo
    /\ exists out,
         decode true 2 codec3 None [eo_bytes eo] (len (eo_bytes eo))
         = Some out
         /\ do_result out
            = Ok {| headers := pieces 1 [] (sort_keeping scenario);
                    bytesConsumed := len (eo_bytes eo) |}
         /\ pairs_of (pieces 1 [] (sort_keeping scenario))
            = header_pairs (sort_keeping scenario).
Proof.
  assert (Hwf : Forall wire_header scenario)
    by (repeat constructor; discriminate).
  assert (Hfit : fields_fit 4 1 [] (sort_keeping scenario))
    by (vm_compute; repeat split; intros; reflexivity).
  assert (Hz : @zlib_inverts stored_zlib (deflater_ codec3)
                 (inflater_ codec3) (dict (versionSettings_ codec3)))
    by (apply stored_zlib_inverts; reflexivity).
  match eval vm_compute in
        (snd (@encode stored_zlib 1 sort_keeping codec3 None scenario)) with
  | Some ?e =>
      exists e;
      split; [exact sort_keeping_post|];
      split; [exact Hwf|];
      split; [reflexivity|];
      destruct (@round_trip stored_zlib 1 true sort_keeping codec3 codec3
                  None None scenario e 2 sort_keeping_post eq_refl
                  (le_S _ _ (le_S _ _ (le_S _ _ (le_n 1)))) Hwf Hfit
                  eq_refl eq_refl)
        as (out & Hd & Hr & Hp & _)
  end.
  - vm_compute. discriminate.
  - vm_compute. discriminate.
  - exact Hz.
  - reflexivity.
  - reflexivity.
  - apply le_n.
  - exists out. repeat split; assumption.
Defined.

Section LawFails.

Variable other : Z.
Variable signed_char : bool.
Variable sort : list Header -> list Header.
Variable enc dec : @GzipHeaderCodec stored_zlib.
Variable fuel : nat.
Variable H : list Header.

(** What the law says of the result of the one decode it speaks of. *)
Lemma round_trip_law_result (d : EncodeOut) :
  round_trip_law other signed_char sort enc dec fuel H ->
  returned (snd (encode other sort enc None H)) = true ->
  let eo := encoded_or d (snd (encode other sort enc None H)) in
  exists pcs,
    option_map (fun o => do_result o)
      (decode signed_char fuel dec None [eo_bytes eo] (len (eo_bytes eo)))
    = Some (Ok {| headers := pcs; bytesConsumed := len (eo_bytes eo) |})
    /\ Permutation (pairs_of pcs) (header_pairs H)
    /\ forall nm,
         values_of nm (pairs_of pcs) = values_of nm (header_pairs H).
Proof.
  intros L He.
  destruct (snd (encode other sort enc None H)) as [e|] eqn:E;
    [|discriminate He].
  cbn [encoded_or].
  destruct (L e E) as (out & pcs & Hd & Hr & Hp & Ho).
  exists pcs. rewrite Hd. cbn [option_map]. rewrite Hr. auto.
Qed.

End LawFails.

Ltac law_result L :=
  let pcs := fresh "pcs" in
  let Hd := fresh "Hd" in
  let Hperm := fresh "Hperm" in
  let Hord := fresh "Hord" in
  destruct (round_trip_law_result _ _ _ _ _ _ _ no_output L)
    as (pcs & Hd & Hperm & Hord);
    [vm_compute; reflexivity | vm_compute in Hd].

(** The round-trip law of the spec does not hold for every valid list:
    it fails on a list whose repeated pairs add up to more than 80 KiB,
    for which [decode] returns [HEADERS_TOO_LARGE]; and it fails for
    SPDY/2 on a pair whose value is too long for the two-byte length
    field, which comes back with another value. *)
Lemma round_trip_law_fails :
  (Forall wire_header many_values
   /\ ~ @round_trip_law stored_zlib 1 true sort_keeping codec3 codec3 10
          many_values)
  /\ (Forall wire_header one_long_value
      /\ ~ @round_trip_law stored_zlib 1 true sort_keeping codec2 codec2 10
             one_long_value).
Proof.
  split; split.
  - apply Forall_forall. intros h Hin. apply repeat_spec in Hin. subst h.
    repeat split; try discriminate; vm_compute; reflexivity.
  - intros L. law_result L. discriminate Hd.
  - repeat constructor; try discriminate; try (vm_compute; reflexivity).
  - intros L. law_result L.
    apply Some_inj in Hd. inversion Hd as [Hpcs]. subst pcs.
    cbn [pairs_of str header_pairs one_long_value map name value] in Hperm.
    apply Permutation_length_1 in Hperm.
    apply (f_equal (fun p => len (snd p))) in Hperm.
    vm_compute in Hperm. discriminate Hperm.
Qed.
